(** * suricata-update: rule parsing, matchers, filters and flowbit resolution

    A shallow embedding of [suricata/update/rule.py] and
    [suricata/update/matchers.py], and the properties of the rule parser,
    the rule record, the modify and drop filters and the flowbit resolver.

    Python values that the code manipulates are embedded as follows:
    - [str] is [string]; a character is a code point below 256;
    - [int] is [Z]; an index may be negative and then counts from the end;
    - an exception is a constructor of [exn], a call that may raise returns
      an [outcome];
    - a [Rule] is a [dict] (a [gmap string value]) together with the
      attributes assigned on the instance;
    - rule objects that are mutated in place live in a [heap] and are named
      by their address. *)

From Stdlib Require Import ZArith Lia Ascii String.
From Stdlib Require Import DecimalString.
From Stdlib Require DecimalPos DecimalZ.
From stdpp Require Import base option list gmap strings.

Local Open Scope Z_scope.

(** * Python builtins *)

Module Py.

(** Exceptions the embedded code can raise; [ReError] is [re.error].  The
    last two are not Python exceptions.  [Diverged] is what a loop of the
    model answers when the iteration bound it was given is used up (the
    lemmas [*_terminates] show that the bounds the model uses are never
    used up).  [Unmodelled] marks the two places the model does not cover:
    printing a list, and an address that names no object of the heap. *)
Inductive exn : Type :=
  | NoEndOfOptionError
  | BadSidError
  | IndexError
  | ValueError
  | TypeError
  | AttributeError
  | KeyError
  | FlowbitParseError
  | ReError
  | Diverged
  | Unmodelled.

Inductive outcome (A : Type) : Type :=
  | Ok (a : A)
  | Raise (e : exn).
Arguments Ok {A} a.
Arguments Raise {A} e.

#[global] Instance outcome_ret : MRet outcome := fun A a => Ok a.
#[global] Instance outcome_bind : MBind outcome := fun A B k m =>
  match m with
  | Ok a => k a
  | Raise e => Raise e
  end.

(** ** Characters *)

Definition code (c : ascii) : Z := Z.of_nat (nat_of_ascii c).

(** [str.isspace] on one character, also the class [\s] of [re] on [str]
    patterns: tab to carriage return, the four separators 0x1c-0x1f, the
    space, NEL and the no-break space. *)
Definition isspace (c : ascii) : bool :=
  let n := code c in
  ((9 <=? n) && (n <=? 13)) || ((28 <=? n) && (n <=? 32))
  || (n =? 133) || (n =? 160).

Definition isdigit (c : ascii) : bool :=
  let n := code c in (48 <=? n) && (n <=? 57).

(** The class [\w] of [re] on [str] patterns: alphanumeric or underscore. *)
Definition isword (c : ascii) : bool :=
  let n := code c in
  isdigit c
  || ((65 <=? n) && (n <=? 90)) || ((97 <=? n) && (n <=? 122)) || (n =? 95)
  || (n =? 170) || (n =? 181) || (n =? 186)
  || (n =? 178) || (n =? 179) || (n =? 185)
  || ((188 <=? n) && (n <=? 190))
  || ((192 <=? n) && (n <=? 214)) || ((216 <=? n) && (n <=? 246))
  || (248 <=? n).

Definition ascii_eqb (a b : ascii) : bool := Ascii.eqb a b.

(** ** Strings *)

Definition len (s : string) : Z := Z.of_nat (String.length s).

Fixpoint lstrip (s : string) : string :=
  match s with
  | EmptyString => EmptyString
  | String c s' => if isspace c then lstrip s' else s
  end.

Fixpoint rstrip (s : string) : string :=
  match s with
  | EmptyString => EmptyString
  | String c s' =>
      match rstrip s' with
      | EmptyString => if isspace c then EmptyString else String c EmptyString
      | r => String c r
      end
  end.

(** [s.strip()] *)
Definition strip (s : string) : string := lstrip (rstrip s).

(** [s.startswith(p)] *)
Definition startswith (s p : string) : bool := String.prefix p s.

Fixpoint rev_string (acc s : string) : string :=
  match s with
  | EmptyString => acc
  | String c s' => rev_string (String c acc) s'
  end.

(** [s.endswith(p)] *)
Definition endswith (s p : string) : bool :=
  String.prefix (rev_string EmptyString p) (rev_string EmptyString s).

(** [s.find(sub)]: the lowest index where [sub] starts, or -1. *)
Fixpoint find (sub s : string) : Z :=
  if String.prefix sub s then 0
  else match s with
       | EmptyString => -1
       | String _ s' => let r := find sub s' in if r <? 0 then -1 else r + 1
       end.

(** [sub in s] *)
Definition contains (sub s : string) : bool := 0 <=? find sub s.

(** A slice bound [i] of a string of length [n], as Python clamps it. *)
Definition clamp (n i : Z) : Z :=
  if i <? 0 then Z.max 0 (n + i) else Z.min i n.

(** [s[start:stop]]; an omitted bound is [None]. *)
Definition slice (s : string) (start stop : option Z) : string :=
  let a := match start with Some i => clamp (len s) i | None => 0 end in
  let b := match stop with Some i => clamp (len s) i | None => len s end in
  String.substring (Z.to_nat a) (Z.to_nat (b - a)) s.

(** [s[i]] *)
Definition index (s : string) (i : Z) : outcome ascii :=
  let j := if i <? 0 then len s + i else i in
  if (0 <=? j) && (j <? len s)
  then match String.get (Z.to_nat j) s with
       | Some c => Ok c
       | None => Raise IndexError
       end
  else Raise IndexError.

(** [s.split(sep, 1)] for a one-character separator. *)
Fixpoint split1_aux (sep : ascii) (acc s : string) : list string :=
  match s with
  | EmptyString => [rev_string EmptyString acc]
  | String c s' =>
      if ascii_eqb c sep then [rev_string EmptyString acc; s']
      else split1_aux sep (String c acc) s'
  end.
Definition split1 (sep : ascii) (s : string) : list string :=
  split1_aux sep EmptyString s.

(** [s.split(sep)] for a one-character separator. *)
Fixpoint split_aux (sep : ascii) (acc s : string) : list string :=
  match s with
  | EmptyString => [rev_string EmptyString acc]
  | String c s' =>
      if ascii_eqb c sep
      then rev_string EmptyString acc :: split_aux sep EmptyString s'
      else split_aux sep (String c acc) s'
  end.
Definition split (sep : ascii) (s : string) : list string :=
  split_aux sep EmptyString s.

(** The longest prefix of characters in a class, and the rest. *)
Fixpoint span (p : ascii -> bool) (s : string) : string * string :=
  match s with
  | EmptyString => (EmptyString, EmptyString)
  | String c s' =>
      if p c then let '(a, b) := span p s' in (String c a, b)
      else (EmptyString, s)
  end.

(** The last character and what is before it. *)
Fixpoint unsnoc (s : string) : option (string * ascii) :=
  match s with
  | EmptyString => None
  | String c s' =>
      match unsnoc s' with
      | None => Some (EmptyString, c)
      | Some (i, l) => Some (String c i, l)
      end
  end.

(** ** Integers *)

(** The digits of [int(s)]: decimal digits, one underscore allowed between
    two digits.  [seen] says that the previous character was a digit. *)
Fixpoint int_digits (acc : Z) (seen : bool) (s : string) : option Z :=
  match s with
  | EmptyString => if seen then Some acc else None
  | String c s' =>
      if isdigit c then int_digits (10 * acc + (code c - 48)) true s'
      else if ascii_eqb c "_"%char && seen then int_digits acc false s'
      else None
  end.

(** The number of decimal digits in a text, and the most that [int]
    accepts: with more it raises [ValueError] (the default of
    [sys.set_int_max_str_digits]; signs, underscores and whitespace do not
    count, leading zeros do). *)
Fixpoint digit_count (s : string) : Z :=
  match s with
  | EmptyString => 0
  | String c s' => (if isdigit c then 1 else 0) + digit_count s'
  end.

Definition max_str_digits : Z := 4300.

(** The digits of [int(s)], after the sign. *)
Definition read_digits (d : string) : option Z :=
  if max_str_digits <? digit_count d then None else int_digits 0 false d.

(** [int(s)] for a [str]: surrounding whitespace, a sign, the digits. *)
Definition int_of_str (s : string) : outcome Z :=
  let r := match strip s with
           | String "+"%char d => read_digits d
           | String "-"%char d => Z.opp <$> read_digits d
           | d => read_digits d
           end in
  match r with
  | Some z => Ok z
  | None => Raise ValueError
  end.

(** The whitespace that [int] passes over at the ends of a [str]: it is
    [isspace] without the four separators 0x1c-0x1f. *)
Definition int_space (c : ascii) : bool :=
  let n := code c in
  ((9 <=? n) && (n <=? 13)) || (n =? 32) || (n =? 133) || (n =? 160).

Fixpoint lstrip_int (s : string) : string :=
  match s with
  | EmptyString => EmptyString
  | String c s' => if int_space c then lstrip_int s' else s
  end.

Fixpoint rstrip_int (s : string) : string :=
  match s with
  | EmptyString => EmptyString
  | String c s' =>
      match rstrip_int s' with
      | EmptyString => if int_space c then EmptyString else String c EmptyString
      | r => String c r
      end
  end.

(** [int(s)] for any [str].  [int_of_str] above passes over the
    whitespace of [strip]; the two agree on a text that [strip] leaves
    unchanged, which is what [parse] gives to [int]. *)
Definition int_of_text (s : string) : outcome Z :=
  let r := match lstrip_int (rstrip_int s) with
           | String "+"%char d => read_digits d
           | String "-"%char d => Z.opp <$> read_digits d
           | d => read_digits d
           end in
  match r with
  | Some z => Ok z
  | None => Raise ValueError
  end.

(** [str(z)] for an [int] of at most [max_str_digits] digits, as every
    integer is that [int] has read; on a longer one [str] raises. *)
Definition str_of_int (z : Z) : string := NilZero.string_of_int (Z.to_int z).

(** ** Values held by a rule's dictionary *)

Inductive value : Type :=
  | VNone
  | VBool (b : bool)
  | VInt (z : Z)
  | VStr (s : string)
  | VList (l : list (option string)).

(** Truth value of an object ([if v], [not v]). *)
Definition truthy (v : value) : bool :=
  match v with
  | VNone => false
  | VBool b => b
  | VInt z => negb (z =? 0)
  | VStr s => negb (String.eqb s EmptyString)
  | VList l => match l with [] => false | _ => true end
  end.

Definition opt_str_eqb (a b : option string) : bool :=
  match a, b with
  | None, None => true
  | Some x, Some y => String.eqb x y
  | _, _ => false
  end.

Fixpoint list_eqb (a b : list (option string)) : bool :=
  match a, b with
  | [], [] => true
  | x :: a', y :: b' => opt_str_eqb x y && list_eqb a' b'
  | _, _ => false
  end.

(** [a == b]; a [bool] compares as the integer 0 or 1. *)
Definition value_eqb (a b : value) : bool :=
  match a, b with
  | VNone, VNone => true
  | VBool x, VBool y => Bool.eqb x y
  | VBool x, VInt z | VInt z, VBool x => z =? (if x then 1 else 0)
  | VInt x, VInt y => x =? y
  | VStr x, VStr y => String.eqb x y
  | VList x, VList y => list_eqb x y
  | _, _ => false
  end.

(** [int(v)] *)
Definition int (v : value) : outcome Z :=
  match v with
  | VNone => Raise TypeError
  | VBool b => Ok (if b then 1 else 0)
  | VInt z => Ok z
  | VStr s => int_of_str s
  | VList _ => Raise TypeError
  end.

(** [d1 == d2] for two dictionaries: the same keys, with equal values. *)
Definition dict_eqb (d1 d2 : gmap string value) : bool :=
  bool_decide (dom d1 = dom d2)
  && forallb (fun kv => match d2 !! kv.1 with
                        | Some v => value_eqb kv.2 v
                        | None => false
                        end) (map_to_list d1).

End Py.


(** * suricata/update/rule.py *)

Module rule.
Import Py.

(** ** The rule record *)

(** [class Rule(dict)]: the dictionary, and the attributes assigned on the
    instance.  [Rule] defines [__getattr__] and no [__setattr__], so
    [rule.name = v] stores an instance attribute that shadows the
    dictionary entry of that name without changing it. *)
Record Rule : Type := { fields : gmap string value; attrs : gmap string value }.

(** [Rule.__init__] *)
Definition Rule_init (enabled action group : value) : Rule :=
  {| fields :=
       <["raw" := VNone]> (
       <["features" := VList []]> (
       <["noalert" := VBool false]> (
       <["priority" := VInt 0]> (
       <["classtype" := VNone]> (
       <["references" := VList []]> (
       <["metadata" := VList []]> (
       <["flowbits" := VList []]> (
       <["msg" := VNone]> (
       <["rev" := VInt 0]> (
       <["sid" := VNone]> (
       <["gid" := VInt 1]> (
       <["group" := group]> (
       <["dest_port" := VNone]> (
       <["dest_addr" := VNone]> (
       <["direction" := VNone]> (
       <["source_port" := VNone]> (
       <["source_addr" := VNone]> (
       <["proto" := VNone]> (
       <["action" := action]> (
       <["enabled" := enabled]> ∅))))))))))))))))))));
     attrs := ∅ |}.

(** [rule[name]] *)
Definition getitem (d : gmap string value) (name : string) : outcome value :=
  match d !! name with
  | Some v => Ok v
  | None => Raise KeyError
  end.

(** [rule.name]: an instance attribute if there is one, else
    [__getattr__], which is [self[name]]. *)
Definition getattr (r : Rule) (name : string) : outcome value :=
  match attrs r !! name with
  | Some v => Ok v
  | None => getitem (fields r) name
  end.

(** [rule.name = v] *)
Definition setattr (r : Rule) (name : string) (v : value) : Rule :=
  {| fields := fields r; attrs := <[name := v]> (attrs r) |}.

(** Truth value of a rule ([if rule]): a non-empty dictionary. *)
Definition rule_truthy (r : Rule) : bool := negb (bool_decide (fields r = ∅)).

(** [Rule.__hash__]: the hash of [self["raw"]]; [hash] is Python's. *)
Definition Rule_hash (hash : value -> outcome Z) (r : Rule) : outcome Z :=
  raw ← getitem (fields r) "raw"; hash raw.

(** [r1 == r2]: [Rule] defines no [__eq__], the comparison is [dict]'s. *)
Definition Rule_eq (r1 r2 : Rule) : bool := dict_eqb (fields r1) (fields r2).

(** [str(v)] as the f-string of [format] prints a value. *)
Definition str_of_value (v : value) : outcome string :=
  match v with
  | VNone => Ok "None"
  | VBool b => Ok (if b then "True" else "False")
  | VInt z => Ok (str_of_int z)
  | VStr s => Ok s
  | VList _ => Raise Unmodelled
  end.

(** [Rule.idstr] *)
Definition idstr (r : Rule) : outcome string :=
  gid ← getattr r "gid"; g ← str_of_value gid;
  sid ← getattr r "sid"; s ← str_of_value sid;
  Ok ("[" +:+ g +:+ ":" +:+ s +:+ "]").

Definition is_blank (c : ascii) : bool := ascii_eqb c " "%char.

(** A match of " *sid\: *[0-9]+\;" at the start of [s]: the text matched. *)
Definition match_sid (s : string) : option string :=
  let '(sp1, r1) := span is_blank s in
  if startswith r1 "sid:" then
    let '(sp2, r3) := span is_blank (slice r1 (Some 4) None) in
    let '(ds, r4) := span isdigit r3 in
    match ds, r4 with
    | String _ _, String ";"%char _ => Some (sp1 +:+ "sid:" +:+ sp2 +:+ ds +:+ ";")
    | _, _ => None
    end
  else None.

(** [re.sub] of the pattern "( *sid\: *[0-9]+\;)" by " noalert;\1": every
    match, found from left to right, is kept and preceded by " noalert;".
    [skip] counts the characters of the current match still to copy. *)
Fixpoint inject_noalert (skip : nat) (s : string) : string :=
  match s with
  | EmptyString => EmptyString
  | String c s' =>
      match skip with
      | S k => String c (inject_noalert k s')
      | O =>
          match match_sid s with
          | Some m =>
              " noalert;" +:+ String c (inject_noalert (String.length m - 1) s')
          | None => String c (inject_noalert 0 s')
          end
      end
  end.

(** [Rule.format]: the rule after the call (its [raw] attribute may have
    been assigned) and the text or the exception. *)
Definition format (r : Rule) : Rule * outcome string :=
  let injected : outcome Rule :=
    noalert ← getattr r "noalert";
    if truthy noalert then
      raw ← getattr r "raw";
      match raw with
      | VStr s =>
          if contains "noalert;" s then Ok r
          else Ok (setattr r "raw" (VStr (inject_noalert 0 s)))
      | VList l =>
          if existsb (opt_str_eqb (Some "noalert;")) l then Ok r
          else Raise TypeError
      | _ => Raise TypeError
      end
    else Ok r in
  match injected with
  | Raise e => (r, Raise e)
  | Ok r1 =>
      (r1,
       enabled ← getattr r1 "enabled";
       raw ← getattr r1 "raw";
       text ← str_of_value raw;
       Ok ((if truthy enabled then "" else "# ") +:+ text))
  end.

(** ** The parser *)

(** [find_opt_end]: one turn of the [while True] loop per unit of [fuel]. *)
Fixpoint find_opt_end_loop (fuel : nat) (options : string) (offset : Z)
  : outcome Z :=
  match fuel with
  | O => Raise Diverged
  | S fuel' =>
      let i := find ";" (slice options (Some offset) None) in
      c ← index options (offset + i - 1);
      if ascii_eqb c "\"%char
      then find_opt_end_loop fuel' options (offset + 2)
      else Ok (offset + i)
  end.

Definition find_opt_end (options : string) : outcome Z :=
  find_opt_end_loop (String.length options + 2) options 0.

(** The pattern for basic rule matching, as the source compiles it. *)
Definition rule_pattern : string :=
  "^(?P<enabled>#)*[\s#]*(?P<raw>(?P<header>[^()]+)\((?P<options>.*)\)$)".

(** The groups of a match of [rule_pattern]. *)
Record groups : Type :=
  { g_enabled : option string; g_raw : string;
    g_header : string; g_options : string }.

Definition is_hash (c : ascii) : bool := ascii_eqb c "#"%char.
Definition is_space_or_hash (c : ascii) : bool := isspace c || is_hash c.
Definition not_paren (c : ascii) : bool :=
  negb (ascii_eqb c "("%char || ascii_eqb c ")"%char).
Definition no_newline (s : string) : bool := find (String "010"%char "") s <? 0.

(** The end of [rule_pattern], from the parenthesis that opens the
    options, on the text [s] that follows the header: an
    opening parenthesis, then the options, which hold no newline, then a
    closing parenthesis that ends the text or stands before the newline
    that ends it.  The result is the options and the text matched. *)
Definition match_options (s : string) : option (string * string) :=
  match s with
  | String "("%char tail =>
      match unsnoc tail with
      | Some (body, ")"%char) =>
          if no_newline body then Some (body, "(" +:+ body +:+ ")") else None
      | Some (body', "010"%char) =>
          match unsnoc body' with
          | Some (body, ")"%char) =>
              if no_newline body then Some (body, "(" +:+ body +:+ ")") else None
          | _ => None
          end
      | _ => None
      end
  | _ => None
  end.

(** [rule_pattern.match(buf)].  Both leading stars are greedy.  The header is the longest run without a
    parenthesis and needs one character; when the two stars have left it
    none, the matcher gives the last character they took back to the
    header: a character of the second star if it took one, else the last
    "#" of the first.  The group [enabled] is set when the first star kept
    an iteration. *)
Definition rule_pattern_match (buf : string) : option groups :=
  let '(hashes, r1) := span is_hash buf in
  let '(junk, r2) := span is_space_or_hash r1 in
  let '(header, rest) := span not_paren r2 in
  let mk (enabled : bool) (header : string) : option groups :=
    '(options, tail) ← match_options rest;
    Some {| g_enabled := if enabled then Some "#" else None;
            g_raw := header +:+ tail;
            g_header := header; g_options := options |} in
  let hashed := negb (String.eqb hashes "") in
  match header with
  | String _ _ => mk hashed header
  | EmptyString =>
      match unsnoc junk, hashes with
      | Some (_, c), _ => mk hashed (String c "")
      | None, String _ hs => mk (negb (String.eqb hs "")) "#"
      | None, EmptyString => None
      end
  end.

(** Rule actions we expect to see. *)
Definition actions : list string :=
  ["alert"; "log"; "pass"; "activate"; "dynamic"; "drop"; "reject"; "sdrop"].

Definition states : list string :=
  ["action"; "proto"; "source_addr"; "source_port"; "direction";
   "dest_addr"; "dest_port"].

(** One turn of the loop over [states]: the token and what remains, or
    [None] where the code returns [None]. *)
Definition next_token (rem : string) : option (string * string) :=
  match rem with
  | EmptyString => None
  | String c _ =>
      if ascii_eqb c "["%char then
        let e := find "]" rem in
        if e <? 0 then None
        else Some (strip (slice rem None (Some (e + 1))),
                   strip (slice rem (Some (e + 1)) None))
      else
        let e := find " " rem in
        if e <? 0 then Some (rem, EmptyString)
        else Some (strip (slice rem None (Some e)),
                   strip (slice rem (Some e) None))
  end.

(** The loop over [states]: the rule, the action and the direction. *)
Fixpoint walk_states (sts : list string) (rem : string)
    (rule : gmap string value) (action : string) (direction : value)
  : option (gmap string value * string * value) :=
  match sts with
  | [] => Some (rule, action, direction)
  | state_ :: sts' =>
      '(token, rem') ← next_token rem;
      if String.eqb state_ "action" then
        walk_states sts' rem' rule token direction
      else if String.eqb state_ "proto" then
        walk_states sts' rem' (<["proto" := VStr token]> rule) action direction
      else if String.eqb state_ "source_addr" then
        walk_states sts' rem' (<["source_addr" := VStr token]> rule) action direction
      else if String.eqb state_ "source_port" then
        walk_states sts' rem' (<["source_port" := VStr token]> rule) action direction
      else if String.eqb state_ "direction" then
        walk_states sts' rem' rule action (VStr token)
      else if String.eqb state_ "dest_addr" then
        walk_states sts' rem' (<["dest_addr" := VStr token]> rule) action direction
      else if String.eqb state_ "dest_port" then
        walk_states sts' rem' (<["dest_port" := VStr token]> rule) action direction
      else walk_states sts' rem' rule action direction
  end.

Definition of_opt (val : option string) : value :=
  match val with
  | Some s => VStr s
  | None => VNone
  end.

(** [rule[key].append(x)]: only a list has [append]. *)
Definition append_to (rule : gmap string value) (key : string) (x : option string)
  : outcome (gmap string value) :=
  cur ← getitem rule key;
  match cur with
  | VList l => Ok (<[key := VList (l ++ [x])]> rule)
  | _ => Raise AttributeError
  end.

(** The body of the [while options] loop after [name] and [val] are known:
    first the chain of tests on [name]. *)
Definition store_option (rule : gmap string value) (name : string)
    (val : option string) : outcome (gmap string value) :=
     if bool_decide (name ∈ ["gid"; "sid"; "rev"]) then
       z ← int (of_opt val); Ok (<[name := VInt z]> rule)
     else if String.eqb name "metadata" then
       let rule0 := match rule !! name with
                    | None => <[name := VList []]> rule
                    | Some _ => rule
                    end in
       cur ← getitem rule0 name;
       match val with
       | None => Raise AttributeError
       | Some v =>
           match cur with
           | VList l =>
               Ok (<[name := VList (l ++ map (fun x => Some (strip x))
                                             (split ","%char v))]> rule0)
           | _ => Raise TypeError
           end
       end
     else if String.eqb name "flowbits" then
       rule' ← append_to rule "flowbits" val;
       if truthy (of_opt val) && (find "noalert" (default "" val) >? -1)
       then Ok (<["noalert" := VBool true]> rule')
       else Ok rule'
     else if String.eqb name "noalert" then
       Ok (<["noalert" := VBool true]> rule)
     else if String.eqb name "reference" then
       append_to rule "references" val
     else if String.eqb name "msg" then
       match val with
       | Some v =>
           if truthy (VStr v) && startswith v (String "034"%char "")
              && endswith v (String "034"%char "")
           then Ok (<[name := VStr (slice v (Some 1) (Some (-1)))]> rule)
           else Ok (<[name := VStr v]> rule)
       | None => Ok (<[name := VNone]> rule)
       end
     else Ok (<[name := of_opt val]> rule).

(** The body of the [while options] loop after [name] and [val] are known. *)
Definition set_option (rule : gmap string value) (name : string)
    (val : option string) : outcome (gmap string value) :=
  rule1 ← store_option rule name val;
  if startswith name "ja3" then append_to rule1 "features" (Some "ja3")
  else Ok rule1.

(** What one turn of the [while options] loop reads from [options]: the
    name and the value of the option, and the options that remain. *)
Definition next_option (options : string)
  : outcome (string * option string * string) :=
  idx ← find_opt_end options;
  if idx <? 0 then Raise NoEndOfOptionError
  else
    let option := strip (slice options None (Some idx)) in
    let options' := strip (slice options (Some (idx + 1)) None) in
    if find ":" option >? -1 then
      match map strip (split1 ":"%char option) with
      | [n; v] => Ok (n, Some v, options')
      | _ => Raise ValueError
      end
    else Ok (option, None, options').

(** The [while options] loop, one option per unit of [fuel]. *)
Fixpoint parse_options (fuel : nat) (rule : gmap string value)
    (options : string) : outcome (gmap string value) :=
  if String.eqb options "" then Ok rule
  else
    match fuel with
    | O => Raise Diverged
    | S fuel' =>
        '(name, val, options') ← next_option options;
        rule' ← set_option rule name val;
        parse_options fuel' rule' options'
    end.

(** What [parse] does once the pattern has matched, up to the end of the
    options loop: the dictionary then, [Ok None] where the code returns
    [None]. *)
Definition parse_matched (m : groups) (group : value)
  : outcome (option (gmap string value)) :=
  let enabled := negb (bool_decide (g_enabled m = Some "#")) in
  let header := strip (g_header m) in
  let rule := fields (Rule_init (VBool enabled) VNone group) in
  let walked :=
    if bool_decide (length (split " "%char header) = 1%nat)
    then Some (rule, header, VNone)
    else walk_states states header rule "" VNone in
  match walked with
  | None => Ok None
  | Some (rule, action, direction) =>
      if negb (bool_decide (action ∈ actions)) then Ok None
      else
        let rule := <["header" := VStr header]> (
                    <["direction" := direction]> (
                    <["action" := VStr action]> rule)) in
        rule' ← parse_options (String.length (g_options m)) rule (g_options m);
        Ok (Some rule')
  end.

(** The end of [parse]: the default [msg], the check of [sid], [raw]. *)
Definition finish (m : groups) (rule : gmap string value) : outcome Rule :=
  msg ← getitem rule "msg";
  let rule := match msg with
              | VNone => <["msg" := VStr ""]> rule
              | _ => rule
              end in
  sid ← getitem rule "sid";
  if negb (truthy sid) then Raise BadSidError
  else Ok {| fields := <["raw" := VStr (strip (g_raw m))]> rule; attrs := ∅ |}.

(** [parse(buf, group)] for a [str] buffer. *)
Definition parse (buf : string) (group : value) : outcome (option Rule) :=
  match rule_pattern_match (strip buf) with
  | None => Ok None
  | Some m =>
      parsed ← parse_matched m group;
      match parsed with
      | None => Ok None
      | Some rule => r ← finish m rule; Ok (Some r)
      end
  end.

(** ** The flowbit resolver *)

(** Rule objects are mutated in place: they live in a heap, and a rule map
    holds addresses.  Two entries of a map may hold the same address. *)
Notation addr := nat (only parsing).
Notation heap := (list Rule) (only parsing).

(** A dictionary of rules keyed by id (gid, sid), in insertion order; a
    value may be [None]. *)
Notation rulemap := (list ((Z * Z) * option addr)) (only parsing).

(** [rules.values()] *)
Definition values (rules : rulemap) : list (option addr) := map snd rules.

Definition deref (h : heap) (a : addr) : outcome Rule :=
  match h !! a with
  | Some r => Ok r
  | None => Raise Unmodelled
  end.

Definition setters : list string := ["set"; "setx"; "unset"; "toggle"].
Definition getters : list string := ["isset"; "isnotset"].

(** [FlowbitResolver.parse_flowbit]; the flowbit is a [str] or [None]. *)
Definition parse_flowbit (flowbit : option string)
  : outcome (string * option string) :=
  match flowbit with
  | None => Raise AttributeError
  | Some s =>
      match split1 ","%char s with
      | [t0] => Ok (t0, None)
      | [t0; t1] => Ok (t0, Some t1)
      | _ => Raise FlowbitParseError
      end
  end.

(** The items that iterating over a value yields ([rule.flowbits]). *)
Fixpoint chars (s : string) : list (option string) :=
  match s with
  | EmptyString => []
  | String c s' => Some (String c EmptyString) :: chars s'
  end.

Definition iter (v : value) : outcome (list (option string)) :=
  match v with
  | VList l => Ok l
  | VStr s => Ok (chars s)
  | _ => Raise TypeError
  end.

(** [rule.flowbits], as the list [map(self.parse_flowbit, ...)] runs over. *)
Definition flowbits_of (r : Rule) : outcome (list (option string)) :=
  v ← getattr r "flowbits"; iter v.

(** A list comprehension [[rule for rule in vs if p(rule)]]. *)
Fixpoint select (p : option addr -> outcome bool) (vs : list (option addr))
  : outcome (list (option addr)) :=
  match vs with
  | [] => Ok []
  | v :: vs' =>
      b ← p v;
      rest ← select p vs';
      Ok (if (b : bool) then v :: rest else rest)
  end.

(** [rule and rule.enabled] *)
Definition is_enabled (h : heap) (v : option addr) : outcome bool :=
  match v with
  | None => Ok false
  | Some a =>
      r ← deref h a;
      if rule_truthy r then e ← getattr r "enabled"; Ok (truthy e)
      else Ok false
  end.

(** [not rule.enabled] *)
Definition is_disabled (h : heap) (v : option addr) : outcome bool :=
  match v with
  | None => Raise AttributeError
  | Some a => r ← deref h a; e ← getattr r "enabled"; Ok (negb (truthy e))
  end.

(** The inner loop of [get_required_flowbits] over one rule's flowbits. *)
Fixpoint add_getters (items : list (option string))
    (required : gset (option string)) : outcome (gset (option string)) :=
  match items with
  | [] => Ok required
  | fb :: items' =>
      '(option, value) ← parse_flowbit fb;
      if bool_decide (option ∈ getters)
      then add_getters items' ({[value]} ∪ required)
      else add_getters items' required
  end.

(** The outer loop of [get_required_flowbits]. *)
Fixpoint get_required_loop (h : heap) (rs : list (option addr))
    (required : gset (option string)) : outcome (gset (option string)) :=
  match rs with
  | [] => Ok required
  | None :: rs' => get_required_loop h rs' required
  | Some a :: rs' =>
      r ← deref h a;
      items ← flowbits_of r;
      required' ← add_getters items required;
      get_required_loop h rs' required'
  end.

(** [FlowbitResolver.get_required_flowbits] *)
Definition get_required_flowbits (h : heap) (rules : rulemap)
  : outcome (gset (option string)) :=
  rs ← select (is_enabled h) (values rules);
  get_required_loop h rs ∅.

(** [rule.enabled = True] on the object at [a]. *)
Definition enable (h : heap) (a : addr) : heap :=
  alter (fun r => setattr r "enabled" (VBool true)) a h.

(** The inner loop of [set_required_flowbits] over one rule's flowbits:
    the heap and the list [enabled] after it. *)
Fixpoint enable_matching (required : gset (option string)) (a : addr)
    (items : list (option string)) (h : heap) (enabled : list addr)
  : heap * outcome (list addr) :=
  match items with
  | [] => (h, Ok enabled)
  | fb :: items' =>
      match parse_flowbit fb with
      | Raise e => (h, Raise e)
      | Ok (option, value) =>
          if bool_decide (option ∈ setters) && bool_decide (value ∈ required)
          then enable_matching required a items' (enable h a) (enabled ++ [a])
          else enable_matching required a items' h enabled
      end
  end.

(** The outer loop of [set_required_flowbits]. *)
Fixpoint set_required_loop (required : gset (option string))
    (rs : list (option addr)) (h : heap) (enabled : list addr)
  : heap * outcome (list addr) :=
  match rs with
  | [] => (h, Ok enabled)
  | None :: _ => (h, Raise AttributeError)
  | Some a :: rs' =>
      match r ← deref h a; flowbits_of r with
      | Raise e => (h, Raise e)
      | Ok items =>
          match enable_matching required a items h enabled with
          | (h', Ok enabled') => set_required_loop required rs' h' enabled'
          | (h', Raise e) => (h', Raise e)
          end
      end
  end.

(** [FlowbitResolver.set_required_flowbits] *)
Definition set_required_flowbits (h : heap) (rules : rulemap)
    (required : gset (option string)) : heap * outcome (list addr) :=
  match select (is_disabled h) (values rules) with
  | Raise e => (h, Raise e)
  | Ok rs => set_required_loop required rs h []
  end.

(** A resolver object: its attribute [enabled]. *)
Record FlowbitResolver : Type := { enabled : list addr }.

(** [FlowbitResolver.__init__] *)
Definition FlowbitResolver_init : FlowbitResolver := {| enabled := [] |}.

(** [FlowbitResolver.resolve], one call of the recursion per unit of
    [fuel]: the heap and the resolver after the call, and what it returns
    or raises.  Python's own bound on the depth of recursion is not
    modelled. *)
Fixpoint resolve_loop (fuel : nat) (self : FlowbitResolver) (rules : rulemap)
    (h : heap) : heap * FlowbitResolver * outcome (list addr) :=
  match fuel with
  | O => (h, self, Raise Diverged)
  | S fuel' =>
      match get_required_flowbits h rules with
      | Raise e => (h, self, Raise e)
      | Ok required =>
          match set_required_flowbits h rules required with
          | (h', Raise e) => (h', self, Raise e)
          | (h', Ok []) => (h', self, Ok (enabled self))
          | (h', Ok new) =>
              resolve_loop fuel' {| enabled := enabled self ++ new |} rules h'
          end
      end
  end.

Definition resolve (self : FlowbitResolver) (rules : rulemap) (h : heap)
  : heap * FlowbitResolver * outcome (list addr) :=
  resolve_loop (S (length rules)) self rules h.

(** [enable_flowbit_dependencies] *)
Definition enable_flowbit_dependencies (rules : rulemap) (h : heap)
  : heap * outcome (list addr) :=
  let resolver := FlowbitResolver_init in
  let '(h', _, res) := resolve resolver rules h in (h', res).

(** [FlowbitResolver.get_required_rules]: what one rule contributes, the
    rule once per flowbit option that passes the three tests.  The third
    test reads [rule.enabled] only when the first two hold. *)
Fixpoint required_of (flowbits : gset (option string)) (include_enabled : bool)
    (r : Rule) (a : addr) (items : list (option string))
  : outcome (list addr) :=
  match items with
  | [] => Ok []
  | fb :: items' =>
      '(option, value) ← parse_flowbit fb;
      keep ← (if bool_decide (option ∈ setters)
                 && bool_decide (value ∈ flowbits)
              then e ← getattr r "enabled";
                   Ok (negb (truthy e) || include_enabled)
              else Ok false);
      rest ← required_of flowbits include_enabled r a items';
      Ok (if (keep : bool) then a :: rest else rest)
  end.

(** The loop of [get_required_rules] over the values of the map; a value
    that is [None] or an empty dictionary is passed over. *)
Fixpoint get_required_rules_loop (h : heap) (flowbits : gset (option string))
    (include_enabled : bool) (vs : list (option addr)) : outcome (list addr) :=
  match vs with
  | [] => Ok []
  | None :: vs' => get_required_rules_loop h flowbits include_enabled vs'
  | Some a :: vs' =>
      r ← deref h a;
      if rule_truthy r then
        items ← flowbits_of r;
        mine ← required_of flowbits include_enabled r a items;
        rest ← get_required_rules_loop h flowbits include_enabled vs';
        Ok (mine ++ rest)
      else get_required_rules_loop h flowbits include_enabled vs'
  end.

(** [FlowbitResolver.get_required_rules] *)
Definition get_required_rules (h : heap) (rules : rulemap)
    (flowbits : gset (option string)) (include_enabled : bool)
  : outcome (list addr) :=
  get_required_rules_loop h flowbits include_enabled (values rules).

(** ** Reading rules from a file *)

(** [parse_fileobj], for a file object that yields the lines [lines] as
    [str]: the loop, with the buffer [buf], the rules collected and the
    errors logged so far (the text of the buffer and the exception). *)
Fixpoint parse_fileobj_loop (group : value) (lines : list string)
    (buf : string) (rules : list Rule) (log : list (string * exn))
  : list Rule * list (string * exn) :=
  match lines with
  | [] => (rules, log)
  | line :: lines' =>
      if endswith (rstrip line) "\" then
        parse_fileobj_loop group lines'
          (buf +:+ slice (rstrip line) None (Some (-1)) +:+ " ") rules log
      else
        let buf := buf +:+ line in
        match parse buf group with
        | Ok (Some rule) =>
            if rule_truthy rule
            then parse_fileobj_loop group lines' "" (rules ++ [rule]) log
            else parse_fileobj_loop group lines' "" rules log
        | Ok None => parse_fileobj_loop group lines' "" rules log
        | Raise err =>
            parse_fileobj_loop group lines' "" rules (log ++ [(rstrip buf, err)])
        end
  end.

Definition parse_fileobj (lines : list string) (group : value)
  : list Rule * list (string * exn) :=
  parse_fileobj_loop group lines "" [] [].

(** ** Map entries and variable names *)

(** [Rule.id] *)
Definition Rule_id (r : Rule) : outcome (Z * Z) :=
  gid ← getattr r "gid"; g ← int gid;
  sid ← getattr r "sid"; s ← int sid;
  Ok (g, s).

(** [sep.join(items)]: every item has to be a [str]. *)
Fixpoint join (sep : string) (items : list value) : outcome string :=
  match items with
  | [] => Ok ""
  | [VStr s] => Ok s
  | VStr s :: items' => rest ← join sep items'; Ok (s +:+ sep +:+ rest)
  | _ :: _ => Raise TypeError
  end.

(** [left + right] where [left] is a list: [right] has to be a list. *)
Definition list_add (left : list value) (right : value) : outcome (list value) :=
  match right with
  | VList l => Ok (left ++ map of_opt l)
  | _ => Raise TypeError
  end.

(** The [try] block of [format_sidmsgmap]. *)
Definition sidmsgmap_row (r : Rule) : outcome string :=
  sid ← getattr r "sid"; s ← str_of_value sid;
  msg ← getattr r "msg";
  references ← getattr r "references";
  items ← list_add [VStr s; msg] references;
  join " || " items.

(** The [try] block of [format_sidmsgmap_v2]. *)
Definition sidmsgmap_v2_row (r : Rule) : outcome string :=
  gid ← getattr r "gid"; g ← str_of_value gid;
  sid ← getattr r "sid"; s ← str_of_value sid;
  rev ← getattr r "rev"; v ← str_of_value rev;
  classtype ← getattr r "classtype";
  let c := match classtype with
           | VNone => VStr "NOCLASS"
           | _ => classtype
           end in
  priority ← getattr r "priority"; p ← str_of_value priority;
  msg ← getattr r "msg";
  references ← getattr r "references";
  items ← list_add [VStr g; VStr s; VStr v; c; VStr p; msg] references;
  join " || " items.

(** A formatter of map entries: the row when the [try] block returns;
    when it raises, the handler prints the rule for the log ([str(rule)]
    is [format], which may itself raise) and returns [None].  The result
    holds the rule after the call and the messages logged. *)
Definition guarded (row : Rule → outcome string) (prefix : string) (r : Rule)
  : Rule * outcome (option string * list string) :=
  match row r with
  | Ok text => (r, Ok (Some text, []))
  | Raise Unmodelled => (r, Raise Unmodelled)
  | Raise _ =>
      let '(r1, text) := format r in
      (r1, t ← text; Ok (None, [prefix +:+ t]))
  end.

(** [format_sidmsgmap] *)
Definition format_sidmsgmap (r : Rule)
  : Rule * outcome (option string * list string) :=
  guarded sidmsgmap_row "Failed to format rule as sid-msg.map: " r.

(** [format_sidmsgmap_v2] *)
Definition format_sidmsgmap_v2 (r : Rule)
  : Rule * outcome (option string * list string) :=
  guarded sidmsgmap_v2_row "Failed to format rule as sid-msg-v2.map: " r.

(** [re.findall] of the pattern "\$([\w_]+)": the names that follow a
    dollar sign, from left to right.  [skip] counts the characters of the
    current name still to pass. *)
Fixpoint find_var_names (skip : nat) (s : string) : list string :=
  match s with
  | EmptyString => []
  | String c s' =>
      match skip with
      | S k => find_var_names k s'
      | O =>
          if ascii_eqb c "$"%char then
            match span isword s' with
            | (EmptyString, _) => find_var_names 0 s'
            | (name, _) => name :: find_var_names (String.length name) s'
            end
          else find_var_names 0 s'
      end
  end.

(** [parse_var_names]; [var] is a [str] or [None]. *)
Definition parse_var_names (var : option string) : list string :=
  match var with
  | None => []
  | Some s => find_var_names 0 s
  end.

End rule.

(** * suricata/update/matchers.py *)

Module matchers.
Import Py rule.

Section Matchers.

(** Functions of Python's library that the matchers call:
    [fnmatch.fnmatch(name, pat)], [os.path.basename(p)] and the root that
    [os.path.splitext(p)] returns first. *)
Variable fnmatch : string -> string -> bool.
Variable basename : string -> string.
Variable splitext_root : string -> string.

(** [re.compile(pattern, re.I)]: [None] when it raises, else the function
    that says whether the compiled pattern finds a match in a text. *)
Variable re_compile : string -> option (string -> bool).

(** The matcher classes.  A regular expression matcher holds its compiled
    pattern, here the function that says whether [pattern.search] finds a
    match in a text. *)
Inductive Matcher : Type :=
  | AllRuleMatcher
  | ProtoRuleMatcher (proto : value)
  | IdRuleMatcher (signatureIds : list (Z * Z))
  | FilenameMatcher (pattern : string)
  | GroupMatcher (pattern : string)
  | ReRuleMatcher (search : string -> bool).

(** [any(generatorId == rule.gid and signatureId == rule.sid for ...)] *)
Fixpoint any_id (rule : Rule) (ids : list (Z * Z)) : outcome bool :=
  match ids with
  | [] => Ok false
  | (generatorId, signatureId) :: ids' =>
      gid ← getattr rule "gid";
      hit ← (if value_eqb (VInt generatorId) gid
             then sid ← getattr rule "sid"; Ok (value_eqb (VInt signatureId) sid)
             else Ok false);
      if (hit : bool) then Ok true else any_id rule ids'
  end.

(** The method [match] of each matcher class. *)
Definition matcher_match (m : Matcher) (rule : Rule) : outcome bool :=
  match m with
  | AllRuleMatcher => Ok true
  | ProtoRuleMatcher proto =>
      p ← getattr rule "proto"; Ok (value_eqb p proto)
  | IdRuleMatcher ids => any_id rule ids
  | FilenameMatcher pattern =>
      g ← getattr rule "group";
      match g with
      | VNone => Ok false
      | VStr group => Ok (fnmatch group pattern)
      | _ => Raise TypeError
      end
  | GroupMatcher pattern =>
      g ← getattr rule "group";
      match g with
      | VNone => Ok false
      | VStr group =>
          if fnmatch (basename group) pattern then Ok true
          else if fnmatch (splitext_root (basename group)) pattern then Ok true
          else Ok false
      | _ => Raise TypeError
      end
  | ReRuleMatcher search =>
      raw ← getattr rule "raw";
      match raw with
      | VStr s => Ok (search s)
      | _ => Raise TypeError
      end
  end.

(** [class ModifyRuleFilter]: the matcher, and the substitution
    [self.pattern.sub(self.repl, text)] as a function of the text.  The
    substitution raises when the template does not fit the pattern
    ([re.error] for a reference to a group that the pattern does not have,
    [IndexError] for an unknown group name). *)
Record ModifyRuleFilter : Type :=
  { modify_matcher : Matcher; modify_sub : string -> outcome string }.

Definition ModifyRuleFilter_match (f : ModifyRuleFilter) (rule : Rule)
  : outcome bool :=
  matcher_match (modify_matcher f) rule.

(** What [ModifyRuleFilter.run] returns: the rule it was given, or the
    rule parsed from the modified text. *)
Inductive modified : Type :=
  | Original (rule : Rule)
  | Parsed (rule : Rule).

(** [ModifyRuleFilter.run]: the rule given after the call ([format] may
    have assigned its [raw]), and the result with the messages logged at
    level error, or the exception. *)
Definition ModifyRuleFilter_run (f : ModifyRuleFilter) (rule : Rule)
  : Rule * outcome (modified * list string) :=
  let '(rule1, text) := format rule in
  (rule1,
   text ← text;
   modified_rule ← modify_sub f text;
   group ← getattr rule1 "group";
   parsed ← parse modified_rule group;
   match parsed with
   | None =>
       id ← idstr rule1;
       Ok (Original rule1,
           ["Modification of rule " +:+ id
            +:+ " results in invalid rule: " +:+ modified_rule])
   | Some r => Ok (Parsed r, [])
   end).

(** [pattern.sub(repl, text)] when the pattern and the template are plain
    text without special characters: every occurrence of [old], found from
    left to right, becomes [new].  [skip] counts the characters of the
    current occurrence still to drop. *)
Fixpoint sub_plain (old new : string) (skip : nat) (text : string) : string :=
  match text with
  | EmptyString => EmptyString
  | String c text' =>
      match skip with
      | S k => sub_plain old new k text'
      | O =>
          if negb (String.eqb old "") && startswith text old
          then new +:+ sub_plain old new (String.length old - 1) text'
          else String c (sub_plain old new 0 text')
      end
  end.

(** The substitution of a filter whose pattern and template are plain
    text: it never raises. *)
Definition plain_sub (old new : string) (text : string) : outcome string :=
  Ok (sub_plain old new 0 text).

(** [class DropRuleFilter] *)
Record DropRuleFilter : Type := { drop_matcher : Matcher }.

(** [DropRuleFilter.match] *)
Definition DropRuleFilter_match (f : DropRuleFilter) (rule : Rule)
  : outcome bool :=
  noalert ← getitem (fields rule) "noalert";
  if truthy noalert then Ok false else matcher_match (drop_matcher f) rule.

(** [re.sub] of the pattern "^\w+" by "drop": the word that starts the
    text, if there is one, becomes "drop". *)
Definition sub_drop (s : string) : string :=
  let '(word, rest) := span isword s in
  match word with
  | EmptyString => s
  | String _ _ => "drop" +:+ rest
  end.

(** [DropRuleFilter.run] *)
Definition DropRuleFilter_run (f : DropRuleFilter) (rule : Rule)
  : outcome Rule :=
  raw ← getattr rule "raw";
  text ← match raw with
         | VStr s => Ok (sub_drop s)
         | _ => Raise TypeError
         end;
  drop_rule ← parse text VNone;
  enabled ← getattr rule "enabled";
  match drop_rule with
  | None => Raise AttributeError
  | Some r => Ok (setattr r "enabled" enabled)
  end.

(** ** Parsing match expressions *)

(** [AllRuleMatcher.parse] *)
Definition AllRuleMatcher_parse (buf : string) : option Matcher :=
  if String.eqb (strip buf) "*" then Some AllRuleMatcher else None.

(** The loop of [IdRuleMatcher.parse] over the entries; an entry that
    [int] refuses makes the whole parse return [None]. *)
Fixpoint parse_ids (entries : list string) (ids : list (Z * Z))
  : option (list (Z * Z)) :=
  match entries with
  | [] => Some ids
  | entry :: entries' =>
      match split1 ":"%char (strip entry) with
      | [p0] =>
          match int_of_text p0 with
          | Ok signatureId => parse_ids entries' (ids ++ [(1, signatureId)])
          | Raise _ => None
          end
      | [p0; p1] =>
          match int_of_text p0 with
          | Ok generatorId =>
              match int_of_text p1 with
              | Ok signatureId =>
                  parse_ids entries' (ids ++ [(generatorId, signatureId)])
              | Raise _ => None
              end
          | Raise _ => None
          end
      | _ => None
      end
  end.

(** [IdRuleMatcher.parse] *)
Definition IdRuleMatcher_parse (buf : string) : option Matcher :=
  IdRuleMatcher <$> parse_ids (split ","%char buf) [].

(** [buf.split(":", 1)[1]], [None] where the index is out of range. *)
Definition after_colon (buf : string) : option string :=
  match split1 ":"%char buf with
  | [_; rest] => Some rest
  | _ => None
  end.

(** [ReRuleMatcher.parse] *)
Definition ReRuleMatcher_parse (buf : string) : option Matcher :=
  if startswith buf "re:" then
    patternstr ← after_colon buf;
    ReRuleMatcher <$> re_compile (strip patternstr)
  else None.

(** [FilenameMatcher.parse] *)
Definition FilenameMatcher_parse (buf : string) : option Matcher :=
  if startswith buf "filename:" then
    group ← after_colon buf; Some (FilenameMatcher (strip group))
  else None.

(** [GroupMatcher.parse] *)
Definition GroupMatcher_parse (buf : string) : option Matcher :=
  let prefixed :=
    if startswith buf "group:" then
      group ← after_colon buf; Some (GroupMatcher (strip group))
    else None in
  match prefixed with
  | Some m => Some m
  | None =>
      if endswith buf ".rules" then Some (GroupMatcher (strip buf)) else None
  end.

(** [parse_rule_match]: the first parser that accepts the expression. *)
Definition parse_rule_match (buf : string) : option Matcher :=
  match AllRuleMatcher_parse buf with
  | Some m => Some m
  | None =>
      match IdRuleMatcher_parse buf with
      | Some m => Some m
      | None =>
          match ReRuleMatcher_parse buf with
          | Some m => Some m
          | None =>
              match FilenameMatcher_parse buf with
              | Some m => Some m
              | None => GroupMatcher_parse buf
              end
          end
      end
  end.

End Matchers.

End matchers.

Import Py rule matchers.

(** * Notions the properties are stated with *)

(** The names of the options that the loop of [parse] meets in an options
    clause, in order, up to the first option it cannot delimit. *)
Fixpoint option_names (fuel : nat) (options : string) : list string :=
  if String.eqb options "" then []
  else
    match fuel with
    | O => []
    | S fuel' =>
        match next_option options with
        | Ok (name, _, options') => name :: option_names fuel' options'
        | Raise _ => []
        end
    end.

(** The options that the loop of [parse] meets in an options clause, each
    with its name and its value, in order, up to the first option it
    cannot delimit. *)
Fixpoint options_of (fuel : nat) (options : string)
  : list (string * option string) :=
  if String.eqb options "" then []
  else
    match fuel with
    | O => []
    | S fuel' =>
        match next_option options with
        | Ok (name, val, options') => (name, val) :: options_of fuel' options'
        | Raise _ => []
        end
    end.


(** The values of the options called [name], in order. *)
Fixpoint values_named (name : string) (opts : list (string * option string))
  : list (option string) :=
  match opts with
  | [] => []
  | (n, v) :: opts' =>
      if String.eqb n name then v :: values_named name opts'
      else values_named name opts'
  end.


(** The entries of a record that keep their kind of value through the
    options: [gid] and [rev] hold integers, [sid] holds [None] or an
    integer, [noalert] a boolean, [msg] holds [None] or a text. *)
Definition typed (d : gmap string value) : Prop :=
  (∃ z, d !! "gid" = Some (VInt z))
  ∧ (∃ z, d !! "rev" = Some (VInt z))
  ∧ (d !! "sid" = Some VNone ∨ ∃ z, d !! "sid" = Some (VInt z))
  ∧ (∃ b, d !! "noalert" = Some (VBool b))
  ∧ (d !! "msg" = Some VNone ∨ ∃ s, d !! "msg" = Some (VStr s))
  ∧ (∃ o, d !! "classtype" = Some (of_opt o))
  ∧ (d !! "priority" = Some (VInt 0) ∨ ∃ o, d !! "priority" = Some (of_opt o))
  ∧ ((∃ l, d !! "references" = Some (VList l))
     ∨ ∃ o, d !! "references" = Some (of_opt o)).

(** No value of the list is the address of an empty dictionary. *)
Definition all_truthy (h : list Rule) (vs : list (option nat)) : bool :=
  forallb (fun v => match v with
                    | Some a => match h !! a with
                                | Some r => rule_truthy r
                                | None => true
                                end
                    | None => true
                    end) vs.

(** The call returned or raised a Python exception: the model did not
    run out of fuel. *)
Definition terminated {A : Type} (o : outcome A) : Prop :=
  match o with
  | Raise Diverged => False
  | _ => True
  end.

(** The number that a run of decimal digits writes, read from the left
    and starting from [acc]. *)
Fixpoint digits_value (d : Decimal.uint) (acc : Z) : Z :=
  match d with
  | Decimal.Nil => acc
  | Decimal.D0 d' => digits_value d' (10 * acc)
  | Decimal.D1 d' => digits_value d' (10 * acc + 1)
  | Decimal.D2 d' => digits_value d' (10 * acc + 2)
  | Decimal.D3 d' => digits_value d' (10 * acc + 3)
  | Decimal.D4 d' => digits_value d' (10 * acc + 4)
  | Decimal.D5 d' => digits_value d' (10 * acc + 5)
  | Decimal.D6 d' => digits_value d' (10 * acc + 6)
  | Decimal.D7 d' => digits_value d' (10 * acc + 7)
  | Decimal.D8 d' => digits_value d' (10 * acc + 8)
  | Decimal.D9 d' => digits_value d' (10 * acc + 9)
  end.

(** The characters of a printed integer, and those of a printed
    identifier, which has a colon as well. *)
Definition numeric (c : ascii) : bool := isdigit c || ascii_eqb c "-"%char.
Definition idchar (c : ascii) : bool := numeric c || ascii_eqb c ":"%char.

(** Every character of the text is in the class. *)
Fixpoint string_forall (p : ascii -> bool) (s : string) : bool :=
  match s with
  | EmptyString => true
  | String c s' => p c && string_forall p s'
  end.

(** The value is a text. *)
Definition is_text (v : value) : bool :=
  match v with
  | VStr _ => true
  | _ => false
  end.

(** The value is a list of texts. *)
Definition texts (v : value) : bool :=
  match v with
  | VList l => forallb (fun o => is_text (of_opt o)) l
  | _ => false
  end.

(** The names of the options of a line of text that [rule_pattern]
    matches. *)
Definition line_option_names (buf : string) : list string :=
  match rule_pattern_match (strip buf) with
  | Some m => option_names (String.length (g_options m)) (g_options m)
  | None => []
  end.

(** The rule at [a] is disabled: [not rule.enabled] holds. *)
Definition disabled_in (h : heap) (a : addr) : Prop :=
  ∃ r e, h !! a = Some r ∧ getattr r "enabled" = Ok e ∧ truthy e = false.

(** The rule at [a] is enabled: [rule and rule.enabled] holds. *)
Definition enabled_in (h : heap) (a : addr) : Prop :=
  ∃ r e, h !! a = Some r ∧ rule_truthy r = true
         ∧ getattr r "enabled" = Ok e ∧ truthy e = true.

(** The rule at [a] carries a flowbits option whose verb is one of [verbs]
    and whose flowbit name is [name]. *)
Definition carries (h : heap) (a : addr) (verbs : list string)
    (name : option string) : Prop :=
  ∃ r items fb verb,
    h !! a = Some r ∧ flowbits_of r = Ok items ∧ fb ∈ items
    ∧ parse_flowbit fb = Ok (verb, name) ∧ verb ∈ verbs.

(** No disabled rule of the map sets a flowbit that an enabled rule of the
    map requires. *)
Definition fixed_point (h : heap) (rules : rulemap) : Prop :=
  ∀ a b name,
    Some a ∈ values rules → Some b ∈ values rules →
    disabled_in h a → carries h a setters name →
    enabled_in h b → carries h b getters name → False.

(** The enabled flag of the rule at [a] was false in [h] and is [True] in
    [h']. *)
Definition flipped (h h' : heap) (a : addr) : Prop :=
  disabled_in h a
  ∧ ∃ r', h' !! a = Some r' ∧ getattr r' "enabled" = Ok (VBool true).

(** The rule that [parse] returns for a line that yields one (a blank
    rule for any other line), to name the rules of the examples. *)
Definition parsed (buf : string) (group : value) : Rule :=
  match parse buf group with
  | Ok (Some r) => r
  | _ => Rule_init VNone VNone VNone
  end.

(** A heap of two rules, the first disabled and setting the flowbit that
    the second, enabled, tests; and the map that holds both. *)
Definition example_heap : heap :=
  [parsed "# alert tcp any any -> any any (msg:a; flowbits:set,foo; sid:1;)"
     VNone;
   parsed "alert tcp any any -> any any (msg:b; flowbits:isset,foo; sid:2;)"
     VNone].

Definition example_rules : rulemap :=
  [((1, 1), Some 0%nat); ((1, 2), Some 1%nat)].

(** The same, where the first rule has two options that set the flowbit. *)
Definition example_heap_two_setters : heap :=
  [parsed "# alert tcp any any -> any any (msg:a; flowbits:set,foo; flowbits:unset,foo; sid:1;)"
     VNone;
   parsed "alert tcp any any -> any any (msg:b; flowbits:isset,foo; sid:2;)"
     VNone].

(** No flowbit option of [items] is a setter of a flowbit of [req]. *)
Definition no_setter (req : gset (option string))
    (items : list (option string)) : Prop :=
  ∀ fb verb name,
    fb ∈ items → parse_flowbit fb = Ok (verb, name) →
    verb ∈ setters → name ∉ req.

(** No rule of [rs] in the heap [h] has a setter of a flowbit of [req]. *)
Definition no_setters (req : gset (option string)) (h : heap)
    (rs : list (option addr)) : Prop :=
  ∀ a r items,
    Some a ∈ rs → h !! a = Some r → flowbits_of r = Ok items →
    no_setter req items.

(** The rule after [rule.enabled = True]. *)
Definition set_enabled (r : Rule) : Rule := setattr r "enabled" (VBool true).

(** Two lookups of a key agree: the key is absent on both sides, or it
    holds values that [==] finds equal. *)
Definition agree (o1 o2 : option value) : Prop :=
  match o1, o2 with
  | Some a, Some b => value_eqb a b = true
  | None, None => True
  | _, _ => False
  end.

(** * Properties of the Python builtins *)

#[local] Arguments String.append !_ _ / : simpl nomatch.

(** A string literal is none of the string literals of a list. *)
Ltac notin :=
  repeat (apply not_elem_of_cons; split; [discriminate|]);
  apply not_elem_of_nil.

Section Strings.

Lemma lstrip_idem s : lstrip (lstrip s) = lstrip s.
Proof.
  induction s as [|c s IH]; simpl; [done|].
  destruct (isspace c) eqn:E; [done|]. simpl. by rewrite E.
Qed.

Lemma lstrip_not_space c s : isspace c = false → lstrip (String c s) = String c s.
Proof. intros H. simpl. by rewrite H. Qed.

Lemma lstrip_first s c t : lstrip s = String c t → isspace c = false.
Proof.
  induction s as [|d s IH]; simpl; [done|].
  destruct (isspace d) eqn:E; [done|]. by intros [= <- _].
Qed.

Lemma lstrip_length s : (String.length (lstrip s) <= String.length s)%nat.
Proof.
  induction s as [|c s IH]; simpl; [lia|].
  destruct (isspace c); simpl; lia.
Qed.

Lemma rstrip_length s : (String.length (rstrip s) <= String.length s)%nat.
Proof.
  induction s as [|c s IH]; simpl; [lia|].
  destruct (rstrip s); [destruct (isspace c)|]; simpl in *; lia.
Qed.

Lemma strip_length s : (String.length (strip s) <= String.length s)%nat.
Proof.
  unfold strip. pose proof (lstrip_length (rstrip s)).
  pose proof (rstrip_length s). lia.
Qed.

Lemma rstrip_idem s : rstrip (rstrip s) = rstrip s.
Proof.
  induction s as [|c s IH]; simpl; [done|].
  destruct (rstrip s) as [|d r] eqn:E.
  - destruct (isspace c) eqn:Ec; simpl; [done|]. by rewrite Ec.
  - simpl in *. by rewrite IH.
Qed.

Lemma rstrip_lstrip s : rstrip (lstrip s) = lstrip (rstrip s).
Proof.
  induction s as [|c s IH]; simpl; [done|].
  destruct (isspace c) eqn:Ec.
  - rewrite IH. destruct (rstrip s); rewrite ?Ec; simpl; by rewrite ?Ec.
  - simpl. destruct (rstrip s); simpl; by rewrite ?Ec.
Qed.

Lemma strip_idem s : strip (strip s) = strip s.
Proof.
  unfold strip. by rewrite rstrip_lstrip, rstrip_idem, lstrip_idem.
Qed.

Lemma rstrip_app_space s c :
  isspace c = true → rstrip (s +:+ String c "") = rstrip s.
Proof.
  intros Hc. induction s as [|d s IH]; simpl.
  - by rewrite Hc.
  - by rewrite IH.
Qed.

Lemma strip_app_space s c :
  isspace c = true → strip (s +:+ String c "") = strip s.
Proof. intros Hc. unfold strip. by rewrite rstrip_app_space. Qed.

Lemma span_app p s a b : span p s = (a, b) → s = a +:+ b.
Proof.
  revert a b. induction s as [|c s IH]; simpl; intros a b.
  - by intros [= <- <-].
  - destruct (p c).
    + destruct (span p s) as [a' b'] eqn:E. intros [= <- <-].
      simpl. f_equal. by apply IH.
    + by intros [= <- <-].
Qed.

Lemma span_nil_head p c s : p c = false → span p (String c s) = ("", String c s).
Proof. intros H. simpl. by rewrite H. Qed.

Lemma unsnoc_app s i l : unsnoc s = Some (i, l) → s = i +:+ String l "".
Proof.
  revert i l. induction s as [|c s IH]; simpl; intros i l; [done|].
  destruct (unsnoc s) as [[i' l']|] eqn:E.
  - intros [= <- <-]. simpl. f_equal. by apply IH.
  - intros [= <- <-]. destruct s; [done|]. simpl in E.
    destruct (unsnoc s) as [[??]|]; done.
Qed.

Lemma append_assoc (a b c : string) : (a +:+ b) +:+ c = a +:+ (b +:+ c).
Proof. induction a as [|x a IH]; simpl; [done|]. by rewrite IH. Qed.

Lemma find_lower sub s : -1 <= find sub s.
Proof.
  induction s as [|c s IH]; cbn [find]; repeat case_match; lia.
Qed.

Lemma index_range s i c : index s i = Ok c → - len s <= i < len s.
Proof.
  unfold index. destruct (i <? 0) eqn:E;
    destruct (_ && _) eqn:B; try done; intros _; lia.
Qed.

Lemma substring_length n m s :
  (String.length (String.substring n m s) <= String.length s - n)%nat.
Proof.
  revert n m. induction s as [|c s IH]; intros [|n] [|m]; simpl; try lia.
  - specialize (IH 0%nat m). lia.
  - specialize (IH n 0%nat). lia.
  - specialize (IH n (S m)). lia.
Qed.

Lemma slice_from_length s k :
  0 <= k →
  (String.length (slice s (Some k) None) <= String.length s - Z.to_nat k)%nat
  ∨ (String.length (slice s (Some k) None) = 0)%nat.
Proof.
  intros Hk. unfold slice, clamp. destruct (k <? 0) eqn:E; [lia|].
  destruct (Z.min_spec k (len s)) as [[? ->]|[? ->]].
  - left. apply substring_length.
  - right. pose proof (substring_length (Z.to_nat (len s)) (Z.to_nat (len s - len s)) s).
    unfold len in *. lia.
Qed.

End Strings.

(** * Termination of the loops of the parser *)

Section Termination.

Lemma find_opt_end_loop_terminates options fuel offset :
  (1 <= fuel)%nat → len options + 4 - offset <= 2 * Z.of_nat fuel →
  find_opt_end_loop fuel options offset ≠ Raise Diverged.
Proof.
  revert offset. induction fuel as [|fuel IH]; intros offset Hf Hb; [lia|].
  simpl. destruct (index options _) as [c|e] eqn:Ei; simpl.
  - destruct (ascii_eqb c "\"%char); [|done].
    apply index_range in Ei.
    pose proof (find_lower ";" (slice options (Some offset) None)).
    apply IH; lia.
  - unfold index in Ei.
    destruct (_ && _); [destruct (String.get _ _)|]; by inversion Ei.
Qed.

(** [find_opt_end] always returns or raises a Python exception. *)
Lemma find_opt_end_terminates options : find_opt_end options ≠ Raise Diverged.
Proof.
  unfold find_opt_end. apply find_opt_end_loop_terminates; unfold len; lia.
Qed.

Lemma next_option_shorter options name val options' :
  options ≠ "" → next_option options = Ok (name, val, options') →
  (String.length options' < String.length options)%nat.
Proof.
  intros Hne. unfold next_option.
  destruct (find_opt_end options) as [idx|] eqn:E; simpl; [|done].
  destruct (idx <? 0) eqn:Ei; [done|].
  assert (L : (String.length (strip (slice options (Some (idx + 1)%Z) None))
               < String.length options)%nat).
  { pose proof (strip_length (slice options (Some (idx + 1)) None)).
    destruct (slice_from_length options (idx + 1)) as [H1|H1]; [lia| |];
      destruct options; try done; simpl in *; lia. }
  destruct (find ":" _ >? -1).
  - destruct (map strip _) as [|? [|? [|]]]; try done. by intros [= _ _ <-].
  - by intros [= _ _ <-].
Qed.

Lemma next_option_terminates options : next_option options ≠ Raise Diverged.
Proof.
  unfold next_option. pose proof (find_opt_end_terminates options).
  destruct (find_opt_end options) as [idx|e]; simpl; [|congruence].
  destruct (idx <? 0); [done|]. destruct (find ":" _ >? -1); [|done].
  by destruct (map strip _) as [|? [|? [|]]].
Qed.

End Termination.

(** * The option loop of the parser *)

Section Options.

Implicit Types rule : gmap string value.

Lemma append_to_shape rule key x rule' :
  append_to rule key x = Ok rule' →
  ∃ l, rule !! key = Some (VList l) ∧ rule' = <[key := VList (l ++ [x])]> rule.
Proof.
  unfold append_to, getitem. intros H.
  destruct (rule !! key) as [[]|]; simplify_eq/=. eauto.
Qed.

Lemma store_option_shape rule name val rule' :
  store_option rule name val = Ok rule' →
  ∃ v, (rule' = <[name := v]> rule
        ∨ rule' = <["noalert" := VBool true]> (<[name := v]> rule)
        ∨ (name = "reference" ∧ rule' = <["references" := v]> rule))
       ∧ (name = "sid" → ∃ z, v = VInt z).
Proof.
  unfold store_option. intros H.
  unfold mbind, outcome_bind in H.
  repeat case_match; simplify_eq/=.
  all: repeat match goal with
       | H : String.eqb _ _ = true |- _ => apply String.eqb_eq in H; subst
       | H : append_to _ _ _ = Ok _ |- _ =>
           apply append_to_shape in H as (? & ? & ->)
       end.
  all: try (eexists; split; [eauto|]; try done; eauto).
  - left. apply insert_insert_eq.
  - intros ->. match goal with H : bool_decide _ = false |- _ =>
      apply bool_decide_eq_false in H; set_solver end.
Qed.

Lemma set_option_shape rule name val rule' :
  set_option rule name val = Ok rule' →
  ∃ rule1, store_option rule name val = Ok rule1
    ∧ (rule' = rule1 ∨ ∃ v, rule' = <["features" := v]> rule1).
Proof.
  unfold set_option. intros H.
  destruct (store_option rule name val) as [rule1|]; simplify_eq/=.
  exists rule1. split; [done|].
  destruct (startswith name "ja3"); simplify_eq/=; [|by left].
  apply append_to_shape in H as (? & ? & ->). eauto.
Qed.

(** An option changes the entry of its own name, and the lists and the
    flag that the special names feed; every other entry is left alone. *)
Lemma set_option_frame rule name val rule' k :
  set_option rule name val = Ok rule' →
  k ≠ name → k ≠ "noalert" → k ≠ "references" → k ≠ "features" →
  rule' !! k = rule !! k.
Proof.
  intros (rule1 & H1 & H2)%set_option_shape Hn Hna Hr Hf.
  apply store_option_shape in H1 as (v & H1 & _).
  destruct H2 as [->|[w ->]]; rewrite ?lookup_insert_ne by done;
    destruct H1 as [->|[->|[_ ->]]]; by rewrite ?lookup_insert_ne by done.
Qed.

(** No option removes an entry. *)
Lemma set_option_is_Some rule name val rule' k :
  set_option rule name val = Ok rule' →
  is_Some (rule !! k) → is_Some (rule' !! k).
Proof.
  intros (rule1 & H1 & H2)%set_option_shape Hk.
  apply store_option_shape in H1 as (v & H1 & _).
  assert (is_Some (rule1 !! k)).
  { destruct H1 as [->|[->|[_ ->]]]; rewrite ?lookup_insert;
      repeat case_decide; by eauto. }
  destruct H2 as [->|[w ->]]; [done|].
  rewrite lookup_insert. case_decide; by eauto.
Qed.

(** The entry [sid] holds [None] or an integer, whatever the options. *)
Lemma set_option_sid rule name val rule' :
  set_option rule name val = Ok rule' →
  (rule !! "sid" = Some VNone ∨ ∃ z, rule !! "sid" = Some (VInt z)) →
  (rule' !! "sid" = Some VNone ∨ ∃ z, rule' !! "sid" = Some (VInt z)).
Proof.
  intros H Hs. destruct (decide (name = "sid")) as [->|Hn].
  - apply set_option_shape in H as (rule1 & H1 & H2).
    apply store_option_shape in H1 as (v & H1 & Hz).
    destruct (Hz eq_refl) as [z ->]. right. exists z.
    destruct H2 as [->|[w ->]]; rewrite ?lookup_insert_ne by done;
      destruct H1 as [->|[->|[? ->]]]; try done;
      rewrite ?lookup_insert_ne by done; by rewrite lookup_insert_eq.
  - by rewrite (set_option_frame _ _ _ _ "sid" H).
Qed.

Lemma store_option_terminates rule name val :
  store_option rule name val ≠ Raise Diverged.
Proof.
  unfold store_option, append_to, getitem, int, int_of_str.
  unfold mbind, outcome_bind. repeat case_match; congruence.
Qed.

Lemma set_option_terminates rule name val :
  set_option rule name val ≠ Raise Diverged.
Proof.
  unfold set_option. pose proof (store_option_terminates rule name val).
  destruct (store_option rule name val); simpl; [|congruence].
  unfold append_to, getitem, mbind, outcome_bind. repeat case_match; congruence.
Qed.

Lemma parse_options_terminates fuel rule options :
  (String.length options <= fuel)%nat →
  parse_options fuel rule options ≠ Raise Diverged.
Proof.
  revert rule options. induction fuel as [|fuel IH]; intros rule options Hf.
  - destruct options; [done|simpl in Hf; lia].
  - simpl. destruct (String.eqb options "") eqn:E; [done|].
    apply String.eqb_neq in E.
    pose proof (next_option_terminates options).
    destruct (next_option options) as [[[name val] options']|] eqn:En;
      simpl; [|congruence].
    pose proof (set_option_terminates rule name val).
    destruct (set_option rule name val) as [rule'|]; simpl; [|congruence].
    apply IH. apply next_option_shorter in En; [lia|done].
Qed.

(** Entries that no option of the clause names, and that no special name
    feeds, come out of the loop as they went in. *)
Lemma parse_options_frame fuel rule options rule' k :
  parse_options fuel rule options = Ok rule' →
  k ∉ option_names fuel options →
  k ≠ "noalert" → k ≠ "references" → k ≠ "features" →
  rule' !! k = rule !! k.
Proof.
  revert rule options. induction fuel as [|fuel IH]; intros rule options;
    simpl; destruct (String.eqb options ""); try by intros [= ->].
  destruct (next_option options) as [[[name val] options']|]; simpl; [|done].
  destruct (set_option rule name val) as [rule1|] eqn:E1; simpl; [|done].
  intros H Hk ???. apply not_elem_of_cons in Hk as [Hk1 Hk2].
    rewrite (IH _ _ H) by done. by apply (set_option_frame _ _ _ _ k E1).
Qed.

Lemma parse_options_is_Some fuel rule options rule' k :
  parse_options fuel rule options = Ok rule' →
  is_Some (rule !! k) → is_Some (rule' !! k).
Proof.
  revert rule options. induction fuel as [|fuel IH]; intros rule options;
    simpl; destruct (String.eqb options ""); try by intros [= ->].
  destruct (next_option options) as [[[name val] options']|]; simpl; [|done].
  destruct (set_option rule name val) as [rule1|] eqn:E1; simpl; [|done].
  intros H Hk. apply (IH _ _ H). by apply (set_option_is_Some _ _ _ _ k E1).
Qed.

Lemma parse_options_sid fuel rule options rule' :
  parse_options fuel rule options = Ok rule' →
  (rule !! "sid" = Some VNone ∨ ∃ z, rule !! "sid" = Some (VInt z)) →
  (rule' !! "sid" = Some VNone ∨ ∃ z, rule' !! "sid" = Some (VInt z)).
Proof.
  revert rule options. induction fuel as [|fuel IH]; intros rule options;
    simpl; destruct (String.eqb options ""); try by intros [= ->].
  destruct (next_option options) as [[[name val] options']|]; simpl; [|done].
  destruct (set_option rule name val) as [rule1|] eqn:E1; simpl; [|done].
  intros H Hk. apply (IH _ _ H). by apply (set_option_sid _ _ _ _ E1).
Qed.

End Options.

(** * The parser *)

Section Parser.

Implicit Types rule d : gmap string value.

Lemma Rule_init_group enabled action group :
  fields (Rule_init enabled action group) !! "group" = Some group.
Proof. reflexivity. Qed.

Lemma Rule_init_sid enabled action group :
  fields (Rule_init enabled action group) !! "sid" = Some VNone.
Proof. reflexivity. Qed.

Lemma Rule_init_msg enabled action group :
  fields (Rule_init enabled action group) !! "msg" = Some VNone.
Proof. reflexivity. Qed.

(** The walk over the header assigns the five header entries only. *)
Lemma walk_states_frame sts rem rule action direction rule' action' direction' k :
  walk_states sts rem rule action direction = Some (rule', action', direction') →
  k ∉ ["proto"; "source_addr"; "source_port"; "dest_addr"; "dest_port"] →
  rule' !! k = rule !! k.
Proof.
  intros H Hk. revert rem rule action direction H.
  induction sts as [|st sts IH]; intros rem rule action direction; simpl.
  - by intros [= -> _ _].
  - destruct (next_token rem) as [[token rem']|]; simpl; [|done].
    repeat case_match; intros W%IH; rewrite W, ?lookup_insert_ne; try done;
      intros <-; set_solver.
Qed.

(** The stages of [parse] on a line that yields a rule. *)
Lemma parse_Some buf group r :
  parse buf group = Ok (Some r) →
  ∃ m d, rule_pattern_match (strip buf) = Some m
         ∧ parse_matched m group = Ok (Some d) ∧ finish m d = Ok r.
Proof.
  unfold parse. destruct (rule_pattern_match (strip buf)) as [m|]; [|done].
  destruct (parse_matched m group) as [[d|]|] eqn:E; simpl; try done.
  destruct (finish m d) as [r'|] eqn:F; simpl; [|done].
  intros [= <-]. eauto.
Qed.

Lemma parse_matched_stages m group d :
  parse_matched m group = Ok (Some d) →
  ∃ d0, parse_options (String.length (g_options m)) d0 (g_options m) = Ok d
    ∧ ∀ k, k ∉ ["proto"; "source_addr"; "source_port"; "dest_addr";
                "dest_port"; "action"; "direction"; "header"] →
        d0 !! k = fields (Rule_init (VBool (negb (bool_decide
                    (g_enabled m = Some "#")))) VNone group) !! k.
Proof.
  unfold parse_matched.
  set (init := fields (Rule_init _ VNone group)).
  destruct (if bool_decide _ then _ else _) as [[[d1 action] direction]|] eqn:W;
    [|done].
  destruct (bool_decide (action ∈ actions)); simpl; [|done].
  destruct (parse_options _ _ _) as [d'|] eqn:P; simpl; [|done].
  intros [= <-]. eexists. split; [exact P|].
  intros k Hk. repeat (apply not_elem_of_cons in Hk as [? Hk]).
  do 3 (rewrite lookup_insert_ne by done).
  destruct (bool_decide (length _ = 1%nat)).
  - by simplify_eq.
  - apply (walk_states_frame _ _ _ _ _ _ _ _ k) in W; [done|].
    repeat (apply not_elem_of_cons; split; [done|]). apply not_elem_of_nil.
Qed.

Lemma finish_fields m d r :
  finish m d = Ok r →
  attrs r = ∅
  ∧ fields r !! "raw" = Some (VStr (strip (g_raw m)))
  ∧ ∀ k, k ≠ "raw" → k ≠ "msg" → fields r !! k = d !! k.
Proof.
  unfold finish, getitem. destruct (d !! "msg") as [msg|]; simpl; [|done].
  destruct (_ !! "sid") as [sid|]; simpl; [|done].
  destruct (negb (truthy sid)); [done|]. intros [= <-]. simpl.
  split; [done|]. split; [by rewrite lookup_insert_eq|].
  intros k ??. rewrite lookup_insert_ne by done.
  destruct msg; by rewrite ?lookup_insert_ne by done.
Qed.

(** After the options loop [sid] holds [None] or an integer, and [msg] is
    present. *)
Lemma parse_matched_sid_msg m group d :
  parse_matched m group = Ok (Some d) →
  is_Some (d !! "msg")
  ∧ (d !! "sid" = Some VNone ∨ ∃ z, d !! "sid" = Some (VInt z)).
Proof.
  intros (d0 & P & F)%parse_matched_stages. split.
  - apply (parse_options_is_Some _ _ _ _ _ P).
    rewrite F by notin. by eexists.
  - apply (parse_options_sid _ _ _ _ P). left.
    rewrite F by notin. done.
Qed.

(** [finish] raises the bad-sid error exactly on a null or zero [sid],
    and a record it returns has a non-zero integer [sid]. *)
Lemma finish_sid m d :
  is_Some (d !! "msg") →
  (d !! "sid" = Some VNone ∨ ∃ z, d !! "sid" = Some (VInt z)) →
  (finish m d = Raise BadSidError
   ↔ d !! "sid" = Some VNone ∨ d !! "sid" = Some (VInt 0))
  ∧ (∀ r, finish m d = Ok r → ∃ z, fields r !! "sid" = Some (VInt z) ∧ z ≠ 0).
Proof.
  intros [msg Hm] Hs. unfold finish, getitem. rewrite Hm. simpl.
  assert (E : (match msg with
               | VNone => <["msg" := VStr ""]> d
               | _ => d
               end) !! "sid" = d !! "sid").
  { destruct msg; by rewrite ?lookup_insert_ne by done. }
  rewrite E. destruct Hs as [Hs|[z Hs]]; rewrite Hs; simpl.
  - split; [split; [by left|done]|done].
  - destruct (Z.eqb_spec z 0) as [->|Hz]; simpl.
    + split; [split; [by right|done]|done].
    + split.
      * split; [done|]. intros [?|?]; simplify_eq.
      * intros r [= <-]. simpl. exists z.
        by rewrite lookup_insert_ne, E, Hs by done.
Qed.

End Parser.

(** * The signature id of a parsed rule *)

Section Sid.

(** C6, as the code has it.  For a line that the pattern accepts, whose
    action is recognized and whose options are all parsed, [parse] raises
    the bad-sid error exactly when the options leave [sid] null or zero;
    every record that [parse] returns has an integer [sid] other than zero
    (it may be negative). *)
Theorem parse_sid_nonzero buf group m d :
  rule_pattern_match (strip buf) = Some m →
  parse_matched m group = Ok (Some d) →
  (parse buf group = Raise BadSidError
   ↔ d !! "sid" = Some VNone ∨ d !! "sid" = Some (VInt 0))
  ∧ (∀ r, parse buf group = Ok (Some r) →
          ∃ z, fields r !! "sid" = Some (VInt z) ∧ z ≠ 0).
Proof.
  intros Hm Hd. destruct (parse_matched_sid_msg _ _ _ Hd) as [Hmsg Hsid].
  destruct (finish_sid m d Hmsg Hsid) as [Hbad Hok].
  unfold parse. rewrite Hm, Hd. simpl. split.
  - rewrite <- Hbad. destruct (finish m d); simpl; split; congruence.
  - intros r Hr. apply Hok. destruct (finish m d); simpl in Hr; congruence.
Qed.

Lemma parse_sid_nonzero_witness :
  parse "alert (gid:1; sid:0;)" VNone = Raise BadSidError
  ∧ ∀ r, parse "alert (gid:1; sid:0;)" VNone = Ok (Some r) →
         ∃ z, fields r !! "sid" = Some (VInt z) ∧ z ≠ 0.
Proof.
  pose (m := {| g_enabled := None; g_raw := "alert (gid:1; sid:0;)";
                g_header := "alert "; g_options := "gid:1; sid:0;" |}).
  pose (d := match parse_matched m VNone with
             | Ok (Some d) => d
             | _ => ∅
             end).
  destruct (parse_sid_nonzero "alert (gid:1; sid:0;)" VNone m d) as [H1 H2].
  - reflexivity.
  - reflexivity.
  - split; [|exact H2]. apply H1. right. reflexivity.
Defined.

(** C6 as stated fails: a negative [sid] is accepted, and the record that
    [parse] returns then has a [sid] that is not positive. *)
Lemma parse_negative_sid :
  ∃ r, parse "alert tcp any any -> any any (msg:x; sid:-5;)" VNone = Ok (Some r)
       ∧ fields r !! "sid" = Some (VInt (-5))
       ∧ ¬ (0 < -5).
Proof.
  exists (parsed "alert tcp any any -> any any (msg:x; sid:-5;)" VNone).
  split; [reflexivity|]. split; [reflexivity|lia].
Qed.

End Sid.

(** * The group of a rule turned into a drop rule *)

Section DropGroup.

Variable fnmatch : string → string → bool.
Variable basename : string → string.
Variable splitext_root : string → string.

(** A rule parsed without a group has a null group, unless an option of
    the text is itself named group. *)
Lemma parse_group_None buf r :
  parse buf VNone = Ok (Some r) →
  "group" ∉ line_option_names buf →
  attrs r = ∅ ∧ fields r !! "group" = Some VNone.
Proof.
  intros (m & d & Hm & Hd & Hf)%parse_Some Hn.
  unfold line_option_names in Hn. rewrite Hm in Hn.
  apply parse_matched_stages in Hd as (d0 & P & F).
  apply finish_fields in Hf as (Ha & _ & Hk). split; [done|].
  rewrite Hk by done.
  rewrite (parse_options_frame _ _ _ _ "group" P) by done.
  by rewrite F by notin.
Qed.

(** C10, as the code has it.  When [DropRuleFilter.run] returns a record
    and no option of the text it parses is named group, the record's group
    is null whatever the group of the rule it was given, and every
    filename and group matcher fails on the record. *)
Theorem drop_rule_group_null f rule s r' :
  getattr rule "raw" = Ok (VStr s) →
  DropRuleFilter_run f rule = Ok r' →
  "group" ∉ line_option_names (sub_drop s) →
  getattr r' "group" = Ok VNone
  ∧ ∀ pattern,
      matcher_match fnmatch basename splitext_root (FilenameMatcher pattern) r'
        = Ok false
      ∧ matcher_match fnmatch basename splitext_root (GroupMatcher pattern) r'
        = Ok false.
Proof.
  intros Hraw Hrun Hn. unfold DropRuleFilter_run in Hrun.
  rewrite Hraw in Hrun. simpl in Hrun.
  destruct (parse (sub_drop s) VNone) as [[r|]|] eqn:P; simpl in Hrun;
    try done; destruct (getattr rule "enabled") as [e|]; simplify_eq/=.
  destruct (parse_group_None _ _ P Hn) as [Ha Hg].
  assert (G : getattr (setattr r "enabled" e) "group" = Ok VNone).
  { unfold getattr, setattr, getitem. simpl.
    by rewrite Ha, lookup_insert_ne, lookup_empty, Hg. }
  split; [done|]. intros pattern. simpl. by rewrite G.
Qed.

End DropGroup.

Lemma drop_rule_group_null_witness :
  getattr (parsed "alert tcp any any -> any any (msg:x; sid:1;)"
             (VStr "a.rules")) "group" = Ok (VStr "a.rules")
  ∧ ∃ r',
      DropRuleFilter_run {| drop_matcher := AllRuleMatcher |}
        (parsed "alert tcp any any -> any any (msg:x; sid:1;)" (VStr "a.rules"))
      = Ok r'
      ∧ getattr r' "group" = Ok VNone.
Proof.
  split; [reflexivity|].
  exists (setattr (parsed "drop tcp any any -> any any (msg:x; sid:1;)" VNone)
            "enabled" (VBool true)).
  split; [reflexivity|].
  refine (proj1 (drop_rule_group_null (fun _ _ => true) id id
            {| drop_matcher := AllRuleMatcher |}
            (parsed "alert tcp any any -> any any (msg:x; sid:1;)"
               (VStr "a.rules"))
            "alert tcp any any -> any any (msg:x; sid:1;)" _ _ _ _)).
  - reflexivity.
  - reflexivity.
  - change (line_option_names _) with ["msg"; "sid"]. notin.
Defined.

(** C10 as stated fails: an option named group in the text of the rule
    sets the group of the record that [DropRuleFilter.run] returns, and a
    filename matcher then succeeds on it. *)
Lemma drop_rule_group_from_option :
  ∃ r',
    DropRuleFilter_run {| drop_matcher := AllRuleMatcher |}
      (parsed "alert tcp any any -> any any (msg:x; sid:1; group:b.rules;)"
         (VStr "a.rules")) = Ok r'
    ∧ getattr r' "group" = Ok (VStr "b.rules")
    ∧ matcher_match String.eqb id id (FilenameMatcher "b.rules") r' = Ok true.
Proof.
  exists (setattr
            (parsed "drop tcp any any -> any any (msg:x; sid:1; group:b.rules;)"
               VNone) "enabled" (VBool true)).
  split; [reflexivity|]. split; reflexivity.
Qed.

(** * Formatting a parsed rule *)

Section RoundTrip.

Lemma span_head_false p c s a b :
  span p (String c s) = (a, b) → a = "" → p c = false.
Proof.
  simpl. destruct (p c); [|done].
  destruct (span p s). by intros [= <- _].
Qed.

Lemma span_head_true p s c a b :
  span p s = (String c a, b) → p c = true.
Proof.
  destruct s as [|d s]; simpl; [done|].
  destruct (p d) eqn:E; [|done].
  destruct (span p s). by intros [= <- _ _].
Qed.

Lemma match_options_tail rest options tail :
  match_options rest = Some (options, tail) →
  rest = tail ∨ rest = tail +:+ String "010"%char "".
Proof.
  unfold match_options. destruct rest as [|c tail0]; [done|].
  repeat case_match; try done; subst; intros [= <- <-];
    repeat match goal with
    | H : unsnoc _ = Some _ |- _ => apply unsnoc_app in H; subst
    end.
  - by left.
  - right; simpl; f_equal; by rewrite ?append_assoc.
Qed.

Lemma strip_header_tail header rest options tail :
  match_options rest = Some (options, tail) →
  strip (header +:+ tail) = strip (header +:+ rest).
Proof.
  intros [->| ->]%match_options_tail; [done|].
  by rewrite <- append_assoc, strip_app_space.
Qed.

Lemma lstrip_fixed_head c s : lstrip (String c s) = String c s → isspace c = false.
Proof. apply lstrip_first. Qed.

(** When the pattern matches a text that starts with no whitespace and no
    comment marker is captured, the raw group is the text up to the
    whitespace that ends it. *)
Lemma rule_pattern_match_raw buf m :
  rule_pattern_match buf = Some m → g_enabled m = None → lstrip buf = buf →
  strip (g_raw m) = strip buf.
Proof.
  unfold rule_pattern_match.
  destruct (span is_hash buf) as [hashes r1] eqn:E1.
  destruct (span is_space_or_hash r1) as [junk r2] eqn:E2.
  destruct (span not_paren r2) as [header rest] eqn:E3.
  pose proof (span_app _ _ _ _ E1) as A1.
  pose proof (span_app _ _ _ _ E2) as A2.
  pose proof (span_app _ _ _ _ E3) as A3.
  intros Hm He Hl.
  assert (J : hashes = "" → junk = "").
  { intros ->. simpl in A1. subst buf. destruct junk as [|c junk]; [done|].
    pose proof (span_head_true _ _ _ _ _ E2) as Hc.
    simpl in A2. rewrite A2 in Hl, E1.
    apply lstrip_fixed_head in Hl.
    pose proof (span_head_false _ _ _ _ _ E1 eq_refl) as Hh.
    unfold is_space_or_hash in Hc. rewrite Hl, Hh in Hc. done. }
  destruct header as [|h header].
  - destruct (unsnoc junk) as [[i c]|] eqn:U.
    + destruct (match_options rest) as [[options tail]|] eqn:O;
        simplify_eq/=.
      destruct (String.eqb hashes "") eqn:Eh; simpl in He; [|done].
      apply String.eqb_eq in Eh. rewrite (J Eh) in U. done.
    + destruct hashes as [|x hs]; [done|].
      pose proof (span_head_true _ _ _ _ _ E1) as Hx.
      apply Ascii.eqb_eq in Hx. subst x. clear E1 J.
      destruct (match_options rest) as [[options tail]|] eqn:O;
        simplify_eq/=.
      destruct (String.eqb hs "") eqn:Eh; simpl in He; [|done].
      apply String.eqb_eq in Eh. subst hs.
      destruct junk as [|a junk];
        [|simpl in U; by destruct (unsnoc junk) as [[??]|]].
      simpl. by apply (strip_header_tail "#" _ options).
  - destruct (match_options rest) as [[options tail]|] eqn:O;
      simplify_eq/=.
    destruct (String.eqb hashes "") eqn:Eh; simpl in He; [|done].
    apply String.eqb_eq in Eh. rewrite (J Eh). subst hashes. simpl.
    by apply (strip_header_tail (String h header) _ options).
Qed.

Lemma lstrip_strip s : lstrip (strip s) = strip s.
Proof. unfold strip. apply lstrip_idem. Qed.

(** C5, as the code has it.  When a line parses to an enabled record with
    no pending noalert injection, [format] leaves the record as it is and
    returns its raw text; when the pattern captured no comment marker
    that text is the line without the whitespace around it. *)
Theorem format_parse_stripped line group r e n :
  parse line group = Ok (Some r) →
  getattr r "enabled" = Ok e → truthy e = true →
  getattr r "noalert" = Ok n →
  (truthy n = false
   ∨ ∃ raw, getattr r "raw" = Ok (VStr raw) ∧ contains "noalert;" raw = true) →
  ∃ m, rule_pattern_match (strip line) = Some m
       ∧ format r = (r, Ok (strip (g_raw m)))
       ∧ (g_enabled m = None → strip (g_raw m) = strip line).
Proof.
  intros (m & d & Hm & Hd & Hf)%parse_Some He Hte Hn Hno.
  exists m. split; [done|]. split.
  - apply finish_fields in Hf as (Ha & Hraw & _).
    assert (R : getattr r "raw" = Ok (VStr (strip (g_raw m)))).
    { unfold getattr, getitem. by rewrite Ha, lookup_empty, Hraw. }
    unfold format. rewrite Hn. simpl.
    destruct (truthy n) eqn:Tn.
    + destruct Hno as [?|(raw & Hr & Hc)]; [done|].
      rewrite Hr. simpl. rewrite Hc. rewrite He. simpl. rewrite R. simpl.
      by rewrite Hte.
    + rewrite He. simpl. rewrite R. simpl. by rewrite Hte.
  - intros Hg. rewrite (rule_pattern_match_raw _ _ Hm Hg (lstrip_strip line)).
    apply strip_idem.
Qed.

Lemma format_parse_stripped_witness :
  format (parsed "  alert tcp any any -> any any (msg:x; sid:1;)" VNone)
  = (parsed "  alert tcp any any -> any any (msg:x; sid:1;)" VNone,
     Ok "alert tcp any any -> any any (msg:x; sid:1;)").
Proof.
  destruct (format_parse_stripped
              "  alert tcp any any -> any any (msg:x; sid:1;)" VNone
              (parsed "  alert tcp any any -> any any (msg:x; sid:1;)" VNone)
              (VBool true) (VBool false)) as (m & Hm & Hf & Hl).
  - reflexivity.
  - reflexivity.
  - reflexivity.
  - reflexivity.
  - by left.
  - rewrite Hf. vm_compute in Hm. injection Hm as <-. reflexivity.
Defined.

(** C5 as stated fails on a line with whitespace around the rule: the
    record is enabled and needs no noalert, and the text that [format]
    returns is not the line. *)
Lemma format_parse_indented :
  ∃ r text,
    parse "  alert tcp any any -> any any (msg:x; sid:1;)" VNone = Ok (Some r)
    ∧ getattr r "enabled" = Ok (VBool true)
    ∧ getattr r "noalert" = Ok (VBool false)
    ∧ format r = (r, Ok text)
    ∧ text ≠ "  alert tcp any any -> any any (msg:x; sid:1;)".
Proof.
  exists (parsed "  alert tcp any any -> any any (msg:x; sid:1;)" VNone),
    "alert tcp any any -> any any (msg:x; sid:1;)".
  split; [reflexivity|]. split; [reflexivity|]. split; [reflexivity|].
  split; [reflexivity|]. discriminate.
Qed.

End RoundTrip.

(** * The drop filter and noalert rules *)

Section DropMatch.

Variable fnmatch : string → string → bool.
Variable basename : string → string.
Variable splitext_root : string → string.

(** C9.  On a rule whose noalert flag is true [DropRuleFilter.match]
    returns false whatever the wrapped matcher answers; on a rule whose
    noalert flag is false it returns what the wrapped matcher returns. *)
Theorem drop_filter_match_noalert f rule v :
  fields rule !! "noalert" = Some v →
  (truthy v = true →
   DropRuleFilter_match fnmatch basename splitext_root f rule = Ok false)
  ∧ (truthy v = false →
     DropRuleFilter_match fnmatch basename splitext_root f rule
     = matcher_match fnmatch basename splitext_root (drop_matcher f) rule).
Proof.
  intros Hv. unfold DropRuleFilter_match, getitem. rewrite Hv. simpl.
  split; intros ->; done.
Qed.

End DropMatch.

Lemma drop_filter_match_noalert_witness :
  matcher_match String.eqb id id AllRuleMatcher
    (parsed "alert tcp any any -> any any (flowbits:noalert; sid:1;)" VNone)
  = Ok true
  ∧ DropRuleFilter_match String.eqb id id {| drop_matcher := AllRuleMatcher |}
      (parsed "alert tcp any any -> any any (flowbits:noalert; sid:1;)" VNone)
    = Ok false.
Proof.
  split; [reflexivity|].
  refine (proj1 (drop_filter_match_noalert String.eqb id id _ _ (VBool true) _) _);
    reflexivity.
Defined.

(** * Equality and hashing of rules *)

Section Identity.

Lemma dict_eqb_spec (d1 d2 : gmap string value) :
  dict_eqb d1 d2 = true ↔ ∀ k, agree (d1 !! k) (d2 !! k).
Proof.
  unfold dict_eqb. rewrite andb_true_iff, bool_decide_eq_true, forallb_forall.
  split.
  - intros [Hd Hf] k. unfold agree.
    destruct (d1 !! k) as [a|] eqn:E1.
    + specialize (Hf (k, a)). simpl in Hf.
      destruct (d2 !! k); [|discriminate Hf; by apply list_elem_of_In,
                              elem_of_map_to_list].
      apply Hf. by apply list_elem_of_In, elem_of_map_to_list.
    + apply not_elem_of_dom in E1. rewrite Hd in E1.
      apply not_elem_of_dom in E1. by rewrite E1.
  - intros H. split.
    + apply set_eq. intros k. rewrite !elem_of_dom. specialize (H k).
      unfold agree in H. destruct (d1 !! k), (d2 !! k); try done;
        split; intros [??]; by eauto.
    + intros [k a] Hin%list_elem_of_In%elem_of_map_to_list. simpl.
      specialize (H k). unfold agree in H. rewrite Hin in H.
      by destruct (d2 !! k).
Qed.

(** C7, as the code has it.  Two records with the same raw value have the
    same hash whatever their other fields.  Their equality is that of the
    dictionaries: they are equal exactly when they hold the same keys with
    equal values. *)
Theorem rule_hash_raw_eq_fields (hash : value → outcome Z) r1 r2 :
  fields r1 !! "raw" = fields r2 !! "raw" →
  Rule_hash hash r1 = Rule_hash hash r2
  ∧ (Rule_eq r1 r2 = true ↔ ∀ k, agree (fields r1 !! k) (fields r2 !! k)).
Proof.
  intros H. split.
  - unfold Rule_hash, getitem. by rewrite H.
  - apply dict_eqb_spec.
Qed.

Lemma rule_hash_raw_eq_fields_witness :
  Rule_hash (fun _ => Ok 0) (parsed "alert (sid:1;)" VNone)
  = Rule_hash (fun _ => Ok 0) (parsed "# alert (sid:1;)" VNone).
Proof.
  refine (proj1 (rule_hash_raw_eq_fields (fun _ => Ok 0) _ _ _)). reflexivity.
Defined.

(** C7 as stated fails for equality: an enabled and a disabled record with
    the same raw value are not equal. *)
Lemma rule_eq_not_by_raw :
  ∃ r1 r2,
    parse "alert (sid:1;)" VNone = Ok (Some r1)
    ∧ parse "# alert (sid:1;)" VNone = Ok (Some r2)
    ∧ fields r1 !! "raw" = fields r2 !! "raw"
    ∧ Rule_eq r1 r2 = false.
Proof.
  exists (parsed "alert (sid:1;)" VNone), (parsed "# alert (sid:1;)" VNone).
  split; [reflexivity|]. split; [reflexivity|].
  split; [reflexivity|]. vm_compute. reflexivity.
Qed.

End Identity.

(** * Flowbit options *)

Section Flowbits.

Lemma rev_string_app acc s : rev_string acc s = rev_string "" s +:+ acc.
Proof.
  revert acc. induction s as [|c s IH]; intros acc; simpl; [done|].
  rewrite (IH (String c acc)), (IH (String c "")).
  by rewrite append_assoc.
Qed.

Lemma append_nil_r (s : string) : s +:+ "" = s.
Proof. induction s as [|c s IH]; simpl; [done|]. by rewrite IH. Qed.

Lemma split1_aux_total sep acc s :
  (∃ a, split1_aux sep acc s = [a]) ∨ (∃ a b, split1_aux sep acc s = [a; b]).
Proof.
  revert acc. induction s as [|c s IH]; intros acc; simpl; [by eauto|].
  destruct (ascii_eqb c sep); by eauto.
Qed.

(** X1: The branch of [parse_flowbit] that raises is never taken: a string
    split once has one part or two. *)
Lemma parse_flowbit_never_raises s :
  ∃ verb value, parse_flowbit (Some s) = Ok (verb, value).
Proof.
  unfold parse_flowbit, split1.
  destruct (split1_aux_total ","%char "" s) as [[a ->]|(a & b & ->)]; eauto.
Qed.

Lemma rev_string_cons c acc s :
  rev_string "" (String c acc) +:+ s = rev_string "" acc +:+ String c s.
Proof.
  cbn [rev_string]. rewrite (rev_string_app (String c "")).
  by rewrite append_assoc.
Qed.

Lemma contains_cons sep c s :
  contains (String sep "") (String c s) = false →
  c ≠ sep ∧ contains (String sep "") s = false.
Proof.
  unfold contains. cbn [find String.prefix].
  destruct (Ascii.ascii_dec sep c) as [->|Hne].
  - by destruct s.
  - intros H. split; [done|].
    destruct (find (String sep "") s <? 0) eqn:E; [|lia].
    apply Z.ltb_lt in E. apply Z.leb_gt. lia.
Qed.

Lemma split1_aux_none sep acc s :
  contains (String sep "") s = false →
  split1_aux sep acc s = [rev_string "" acc +:+ s].
Proof.
  revert acc. induction s as [|c s IH]; intros acc H.
  - cbn [split1_aux]. by rewrite append_nil_r.
  - apply contains_cons in H as [Hc H]. cbn [split1_aux].
    unfold ascii_eqb. destruct (Ascii.eqb_spec c sep) as [->|_]; [done|].
    by rewrite IH, rev_string_cons.
Qed.

Lemma split1_aux_first sep acc a b :
  contains (String sep "") a = false →
  split1_aux sep acc (a +:+ String sep b) = [rev_string "" acc +:+ a; b].
Proof.
  revert acc. induction a as [|c a IH]; intros acc H.
  - cbn [split1_aux String.append]. unfold ascii_eqb.
    rewrite Ascii.eqb_refl. by rewrite append_nil_r.
  - apply contains_cons in H as [Hc H]. cbn [split1_aux String.append].
    unfold ascii_eqb. destruct (Ascii.eqb_spec c sep) as [->|_]; [done|].
    by rewrite IH, rev_string_cons.
Qed.

(** A flowbit option without a comma is a verb with a null value. *)
Lemma parse_flowbit_verb s :
  contains "," s = false → parse_flowbit (Some s) = Ok (s, None).
Proof.
  intros H. unfold parse_flowbit, split1. by rewrite split1_aux_none.
Qed.

(** A flowbit option with a comma is the verb before the first comma and
    the value after it. *)
Lemma parse_flowbit_verb_value verb value :
  contains "," verb = false →
  parse_flowbit (Some (verb +:+ "," +:+ value)) = Ok (verb, Some value).
Proof.
  intros H. unfold parse_flowbit, split1.
  change ("," +:+ value) with (String ","%char value).
  by rewrite (split1_aux_first ","%char "" verb value H).
Qed.

(** C3 at the input of the claim: the option has three segments and
    [parse_flowbit] returns, the value holding the last two. *)
Theorem parse_flowbit_three_segments :
  parse_flowbit (Some "set,foo,bar") = Ok ("set", Some "foo,bar").
Proof. reflexivity. Qed.

End Flowbits.

(** * The end of an option *)

Section OptionEnd.

Lemma find_opt_end_loop_unescaped fuel options offset idx :
  find_opt_end_loop fuel options offset = Ok idx →
  ∃ c, index options (idx - 1) = Ok c ∧ c ≠ "\"%char.
Proof.
  revert offset. induction fuel as [|fuel IH]; intros offset;
    cbn [find_opt_end_loop]; [done|].
  destruct (index options (offset + _ - 1)) as [c|] eqn:E;
    unfold mbind, outcome_bind; cbn beta iota; [|done].
  unfold ascii_eqb. destruct (Ascii.eqb_spec c "\"%char) as [->|Hc].
  - apply IH.
  - intros [= <-]. eauto.
Qed.

(** X2: The character before the place that [find_opt_end] returns, read as
    Python reads an index (the last character when the place is 0), is
    never a backslash: an escaped semicolon does not end an option. *)
Lemma find_opt_end_unescaped options idx :
  find_opt_end options = Ok idx →
  ∃ c, index options (idx - 1) = Ok c ∧ c ≠ "\"%char.
Proof. apply find_opt_end_loop_unescaped. Qed.

Lemma substring_all s : String.substring 0 (String.length s) s = s.
Proof. induction s as [|c s IH]; simpl; [done|]. by rewrite IH. Qed.

Lemma slice_from_0 s : slice s (Some 0) None = s.
Proof.
  unfold slice, clamp, len. simpl.
  rewrite Z.min_l by lia. simpl.
  replace (Z.to_nat (Z.of_nat (String.length s) - 0)) with (String.length s)
    by lia.
  apply substring_all.
Qed.

(** X3: Without a semicolon, and when the last character but one is not a
    backslash, the loop of [parse] raises the error for a missing end of
    option. *)
Lemma next_option_no_end options c :
  contains ";" options = false →
  index options (-2) = Ok c → c ≠ "\"%char →
  next_option options = Raise NoEndOfOptionError.
Proof.
  unfold contains. intros Hf Hi Hc. apply Z.leb_gt in Hf.
  pose proof (find_lower ";" options).
  assert (F : find ";" options = -1) by lia.
  unfold next_option, find_opt_end.
  replace (String.length options + 2)%nat with (S (String.length options + 1))
    by lia.
  cbn [find_opt_end_loop]. rewrite slice_from_0, F.
  change (0 + -1 - 1) with (-2). rewrite Hi.
  unfold mbind, outcome_bind, ascii_eqb. cbn beta iota.
  destruct (Ascii.eqb_spec c "\"%char); [done|]. reflexivity.
Qed.

(** C2 at a failing input: the last option has no semicolon, and [parse]
    raises an index error, not the error for a missing end of option. *)
Theorem parse_unterminated_one_char :
  parse "alert tcp any any -> any any (msg:x; sid:1; a)" VNone
  = Raise IndexError.
Proof. reflexivity. Qed.

(** A backslash before the last character makes the loop accept an
    option that no semicolon ends. *)
Lemma next_option_backslash_accepts :
  next_option "a\ " = Ok ("a", None, "").
Proof. vm_compute. reflexivity. Qed.

End OptionEnd.

(** * The modify filter *)

Section Modify.

(** When the modified text is not a rule ([parse] returns [None]),
    [ModifyRuleFilter.run] logs one error and returns the rule it was
    given. *)
Lemma modify_run_not_a_rule f rule rule1 text modified_rule group id :
  format rule = (rule1, Ok text) →
  modify_sub f text = Ok modified_rule →
  getattr rule1 "group" = Ok group →
  parse modified_rule group = Ok None →
  idstr rule1 = Ok id →
  ModifyRuleFilter_run f rule
  = (rule1, Ok (Original rule1,
                ["Modification of rule " +:+ id
                 +:+ " results in invalid rule: " +:+ modified_rule])).
Proof.
  intros Hf Hs Hg Hp Hi. unfold ModifyRuleFilter_run. rewrite Hf. simpl.
  rewrite Hs. simpl. rewrite Hg. simpl. rewrite Hp. simpl. by rewrite Hi.
Qed.

(** When [parse] raises on the modified text, [ModifyRuleFilter.run]
    raises the same exception. *)
Lemma modify_run_propagates f rule rule1 text modified_rule group e :
  format rule = (rule1, Ok text) →
  modify_sub f text = Ok modified_rule →
  getattr rule1 "group" = Ok group →
  parse modified_rule group = Raise e →
  ModifyRuleFilter_run f rule = (rule1, Raise e).
Proof.
  intros Hf Hs Hg Hp. unfold ModifyRuleFilter_run. rewrite Hf. simpl.
  rewrite Hs. simpl. rewrite Hg. simpl. by rewrite Hp.
Qed.

(** When the substitution itself raises, [ModifyRuleFilter.run] raises
    the same exception and [parse] is not reached. *)
Lemma modify_run_sub_raises f rule rule1 text e :
  format rule = (rule1, Ok text) →
  modify_sub f text = Raise e →
  ModifyRuleFilter_run f rule = (rule1, Raise e).
Proof.
  intros Hf Hs. unfold ModifyRuleFilter_run. rewrite Hf. simpl.
  by rewrite Hs.
Qed.

(** C4 at a failing input: the substitution removes the sid option, the
    text no longer parses, and [ModifyRuleFilter.run] raises the bad-sid
    error instead of returning the rule it was given. *)
Theorem modify_run_raises_bad_sid :
  ModifyRuleFilter_run
    {| modify_matcher := AllRuleMatcher;
       modify_sub := plain_sub " sid:1;" "" |}
    (parsed "alert tcp any any -> any any (msg:x; sid:1;)" VNone)
  = (parsed "alert tcp any any -> any any (msg:x; sid:1;)" VNone,
     Raise BadSidError).
Proof. reflexivity. Qed.

End Modify.

(** * The flowbit resolver *)

Section Resolver.

Implicit Types (h : heap) (a b x : addr) (rs vs : list (option addr)).
Implicit Types (req : gset (option string)) (new acc out : list addr).

(** ** List comprehensions *)

Lemma select_spec p vs sel :
  select p vs = Ok sel → ∀ v, v ∈ sel ↔ v ∈ vs ∧ p v = Ok true.
Proof.
  revert sel. induction vs as [|w vs IH]; intros sel; simpl.
  - intros [= <-] v. split; [by intros ?%elem_of_nil|].
    by intros [?%elem_of_nil _].
  - destruct (p w) as [bw|] eqn:Ew; simpl; [|done].
    destruct (select p vs) as [rest|]; simpl; [|done].
    intros [= <-] v. specialize (IH rest eq_refl v).
    destruct bw.
    + rewrite !elem_of_cons, IH. split.
      * intros [->|[? ?]]; [split; [by left|done]|split; [by right|done]].
      * intros [[->|?] ?]; [by left|by right].
    + rewrite elem_of_cons, IH. split.
      * intros [? ?]. split; [by right|done].
      * intros [[->|?] Hp]; [congruence|done].
Qed.

Lemma select_length p vs sel :
  select p vs = Ok sel → (length sel <= length vs)%nat.
Proof.
  revert sel. induction vs as [|w vs IH]; intros sel; simpl.
  - by intros [= <-].
  - destruct (p w) as [bw|]; simpl; [|done].
    destruct (select p vs) as [rest|]; simpl; [|done].
    intros [= <-]. specialize (IH rest eq_refl). destruct bw; simpl; lia.
Qed.

(** A predicate that holds less often selects less. *)
Lemma select_shrinks p q vs sel1 sel2 :
  select p vs = Ok sel1 → select q vs = Ok sel2 →
  (∀ v, v ∈ vs → q v = Ok true → p v = Ok true) →
  (length sel2 <= length sel1)%nat
  ∧ ((∃ v, v ∈ vs ∧ p v = Ok true ∧ q v = Ok false) →
     (length sel2 < length sel1)%nat).
Proof.
  revert sel1 sel2. induction vs as [|w vs IH]; intros sel1 sel2; simpl.
  - intros [= <-] [= <-] _. split; [done|].
    by intros (v & ?%elem_of_nil & _).
  - destruct (p w) as [pw|] eqn:Ep; simpl; [|done].
    destruct (select p vs) as [r1|]; simpl; [|done].
    destruct (q w) as [qw|] eqn:Eq; simpl; [|done].
    destruct (select q vs) as [r2|]; simpl; [|done].
    intros [= <-] [= <-] Hpq.
    destruct (IH r1 r2 eq_refl eq_refl) as [Hle Hlt].
    { intros v Hv. apply Hpq. by right. }
    assert (Hw : qw = true → pw = true).
    { intros ->. assert (w ∈ w :: vs) as Hin by left.
      specialize (Hpq w Hin Eq). congruence. }
    split.
    + destruct pw, qw; simpl; try lia; by specialize (Hw eq_refl).
    + intros (v & [->|Hv]%elem_of_cons & Hp & Hq).
      * rewrite Hp in Ep. rewrite Hq in Eq. simplify_eq. simpl. lia.
      * assert (length r2 < length r1)%nat by (apply Hlt; eauto).
        destruct pw, qw; simpl; try lia; by specialize (Hw eq_refl).
Qed.

(** ** The heap after rules were enabled *)

Lemma set_enabled_idem r : set_enabled (set_enabled r) = set_enabled r.
Proof.
  unfold set_enabled, setattr. simpl. f_equal. apply insert_insert_eq.
Qed.

Lemma set_enabled_getattr r : getattr (set_enabled r) "enabled" = Ok (VBool true).
Proof. unfold getattr, set_enabled, setattr. simpl. by rewrite lookup_insert_eq. Qed.

Lemma set_enabled_flowbits r : flowbits_of (set_enabled r) = flowbits_of r.
Proof.
  unfold flowbits_of, getattr, set_enabled, setattr. simpl.
  by rewrite lookup_insert_ne.
Qed.

Lemma enable_lookup h a b :
  enable h a !! b = (if decide (b = a) then set_enabled else id) <$> h !! b.
Proof.
  unfold enable. destruct (decide (b = a)) as [->|Hne].
  - by rewrite list_lookup_alter_eq.
  - rewrite list_lookup_alter_ne by done. by destruct (h !! b).
Qed.

Lemma enabled_lookup new h b :
  foldl enable h new !! b
  = (if decide (b ∈ new) then set_enabled else id) <$> h !! b.
Proof.
  revert h. induction new as [|a new IH]; intros h; cbn [foldl].
  - destruct (decide (b ∈ [])) as [?%elem_of_nil|_]; [done|].
    by destruct (h !! b).
  - rewrite IH, enable_lookup.
    destruct (h !! b) as [r|]; cbn [fmap option_fmap option_map]; [|done].
    destruct (decide (b = a)) as [->|Hne].
    + rewrite (decide_True (P := a ∈ a :: new)) by left.
      case_decide; simpl; by rewrite ?set_enabled_idem.
    + destruct (decide (b ∈ new)) as [Hin|Hnin].
      * by rewrite decide_True by (by right).
      * rewrite decide_False; [done|]. by intros [?|?]%elem_of_cons.
Qed.

(** A rule that is disabled after rules were enabled was disabled before,
    and is none of them. *)
Lemma disabled_after new h x :
  disabled_in (foldl enable h new) x → disabled_in h x ∧ x ∉ new.
Proof.
  intros (r & e & Hr & He & Ht). rewrite enabled_lookup in Hr.
  destruct (h !! x) as [r0|] eqn:E0; simplify_eq/=.
  case_decide.
  - rewrite set_enabled_getattr in He. by simplify_eq.
  - split; [|done]. by exists r0, e.
Qed.

Lemma is_disabled_spec h x :
  is_disabled h (Some x) = Ok true ↔ disabled_in h x.
Proof.
  unfold is_disabled, disabled_in, deref. split.
  - destruct (h !! x) as [r|]; simpl; [|done].
    destruct (getattr r "enabled") as [e|] eqn:E; simpl; [|done].
    intros [= Ht]. exists r, e. by rewrite negb_true_iff in Ht.
  - intros (r & e & -> & He & Ht). simpl. rewrite He. simpl. by rewrite Ht.
Qed.

Lemma is_enabled_spec h x :
  is_enabled h (Some x) = Ok true ↔ enabled_in h x.
Proof.
  unfold is_enabled, enabled_in, deref. split.
  - destruct (h !! x) as [r|]; simpl; [|done].
    destruct (rule_truthy r) eqn:T; [|done].
    destruct (getattr r "enabled") as [e|] eqn:E; simpl; [|done].
    intros [= Ht]. by exists r, e.
  - intros (r & e & -> & T & He & Ht). simpl. rewrite T, He. simpl.
    by rewrite Ht.
Qed.

(** ** One pass *)

Lemma enable_matching_spec req a items h acc h' out :
  enable_matching req a items h acc = (h', Ok out) →
  ∃ new, out = acc ++ new ∧ h' = foldl enable h new
         ∧ (∀ x, x ∈ new → x = a)
         ∧ (new = [] → no_setter req items).
Proof.
  unfold no_setter. revert h acc. induction items as [|fb items IH]; intros h acc; simpl.
  - intros [= <- <-]. exists []. rewrite app_nil_r.
    split; [done|]. split; [done|]. split.
    + by intros x ?%elem_of_nil.
    + by intros _ fb verb name ?%elem_of_nil.
  - destruct (parse_flowbit fb) as [[option value]|] eqn:Ep; [|done].
    destruct (bool_decide (option ∈ setters) && bool_decide (value ∈ req))
      eqn:Eb.
    + intros (new & -> & -> & Ha & _)%IH. exists (a :: new).
      rewrite <- app_assoc. repeat split; try done.
      intros x [->|?]%elem_of_cons; [done|by apply Ha].
    + intros (new & -> & -> & Ha & Hn)%IH. exists new.
      repeat split; try done. intros Hnil fb' verb name Hin Hp Hv.
      apply elem_of_cons in Hin as [->|Hin]; [|by eapply Hn].
      rewrite Ep in Hp. simplify_eq.
      apply andb_false_iff in Eb as [Eb|Eb];
        apply bool_decide_eq_false in Eb; done.
Qed.

Lemma set_required_loop_spec req rs h acc h' out :
  set_required_loop req rs h acc = (h', Ok out) →
  ∃ new, out = acc ++ new ∧ h' = foldl enable h new
         ∧ (∀ x, x ∈ new → Some x ∈ rs)
         ∧ (new = [] → no_setters req h rs).
Proof.
  unfold no_setters. revert h acc. induction rs as [|[a|] rs IH]; intros h acc; simpl.
  - intros [= <- <-]. exists []. rewrite app_nil_r.
    split; [done|]. split; [done|]. split.
    + by intros x ?%elem_of_nil.
    + by intros _ a r items ?%elem_of_nil.
  - unfold deref. destruct (h !! a) as [r|] eqn:Er; simpl; [|done].
    destruct (flowbits_of r) as [items|] eqn:Ei; [|done].
    destruct (enable_matching req a items h acc) as [h1 [out1|]] eqn:Em;
      [|done].
    apply enable_matching_spec in Em as (new1 & -> & -> & Ha1 & Hn1).
    intros (new2 & -> & -> & Ha2 & Hn2)%IH. exists (new1 ++ new2).
    rewrite foldl_app, app_assoc. repeat split; try done.
    + intros x [Hx|Hx]%elem_of_app.
      * rewrite (Ha1 x Hx). by left.
      * right. by apply Ha2.
    + intros [-> ->]%app_eq_nil a' r' items' Hin Hr' Hi'.
      apply elem_of_cons in Hin as [[= ->]|Hin].
      * rewrite Er in Hr'. simplify_eq. rewrite Ei in Hi'. simplify_eq.
        by apply Hn1.
      * by eapply (Hn2 eq_refl).
  - done.
Qed.

Lemma set_required_flowbits_spec h rules req h' out :
  set_required_flowbits h rules req = (h', Ok out) →
  ∃ dis, select (is_disabled h) (values rules) = Ok dis
         ∧ h' = foldl enable h out
         ∧ (∀ x, x ∈ out → Some x ∈ dis)
         ∧ (out = [] → no_setters req h dis).
Proof.
  unfold set_required_flowbits.
  destruct (select (is_disabled h) (values rules)) as [dis|]; [|done].
  intros (new & -> & -> & H1 & H2)%set_required_loop_spec.
  exists dis. by repeat split.
Qed.

Lemma add_getters_spec items req req' :
  add_getters items req = Ok req' →
  req ⊆ req'
  ∧ ∀ fb verb name, fb ∈ items → parse_flowbit fb = Ok (verb, name) →
                    verb ∈ getters → name ∈ req'.
Proof.
  revert req. induction items as [|fb items IH]; intros req; simpl.
  - intros [= <-]. split; [done|]. by intros ??? ?%elem_of_nil.
  - destruct (parse_flowbit fb) as [[option value]|] eqn:Ep; simpl; [|done].
    destruct (bool_decide (option ∈ getters)) eqn:Eb.
    + intros [Hs Hi]%IH. split; [set_solver|].
      intros fb' verb name [->|Hin]%elem_of_cons Hp Hv; [|by eapply Hi].
      rewrite Ep in Hp. simplify_eq. set_solver.
    + intros [Hs Hi]%IH. split; [done|].
      intros fb' verb name [->|Hin]%elem_of_cons Hp Hv; [|by eapply Hi].
      rewrite Ep in Hp. simplify_eq.
      by apply bool_decide_eq_false in Eb.
Qed.

Lemma get_required_loop_spec h rs req req' :
  get_required_loop h rs req = Ok req' →
  req ⊆ req'
  ∧ ∀ b r items fb verb name,
      Some b ∈ rs → h !! b = Some r → flowbits_of r = Ok items →
      fb ∈ items → parse_flowbit fb = Ok (verb, name) →
      verb ∈ getters → name ∈ req'.
Proof.
  revert req. induction rs as [|[a|] rs IH]; intros req; simpl.
  - intros [= <-]. split; [done|]. by intros ?????? ?%elem_of_nil.
  - unfold deref. destruct (h !! a) as [r|] eqn:Er; simpl; [|done].
    destruct (flowbits_of r) as [items|] eqn:Ei; simpl; [|done].
    destruct (add_getters items req) as [req1|] eqn:Ea; simpl; [|done].
    apply add_getters_spec in Ea as [Hs1 Hi1].
    intros [Hs Hi]%IH. split; [by etrans|].
    intros b r' items' fb verb name [[= ->]|Hin]%elem_of_cons Hr' Hi' Hfb Hp Hv.
    + rewrite Er in Hr'. simplify_eq. rewrite Ei in Hi'. simplify_eq.
      apply Hs. by eapply Hi1.
    + by eapply Hi.
  - intros [Hs Hi]%IH. split; [done|].
    intros b r' items' fb verb name [[=]|Hin]%elem_of_cons; by eapply Hi.
Qed.

(** What [get_required_flowbits] returns holds every flowbit that an
    enabled rule of the map tests with a getter. *)
Lemma get_required_flowbits_spec h rules req b name :
  get_required_flowbits h rules = Ok req →
  Some b ∈ values rules → enabled_in h b → carries h b getters name →
  name ∈ req.
Proof.
  unfold get_required_flowbits.
  destruct (select (is_enabled h) (values rules)) as [en|] eqn:Es; simpl;
    [|done].
  intros [_ Hi]%get_required_loop_spec Hb He (r & items & fb & verb & Hc).
  destruct Hc as (Hr & Hit & Hfb & Hp & Hv).
  eapply Hi; try done.
  apply (select_spec _ _ _ Es). split; [done|]. by apply is_enabled_spec.
Qed.

(** A pass that enables nothing leaves the heap at a fixed point. *)
Lemma quiet_pass_fixed_point h rules req :
  get_required_flowbits h rules = Ok req →
  set_required_flowbits h rules req = (h, Ok []) →
  fixed_point h rules.
Proof.
  intros Hg (dis & Hs & _ & _ & Hn)%set_required_flowbits_spec.
  intros a b name Ha Hb Hd (r & items & fb & verb & Hc) He Hcb.
  destruct Hc as (Hr & Hit & Hfb & Hp & Hv).
  assert (Hin : Some a ∈ dis).
  { apply (select_spec _ _ _ Hs). split; [done|]. by apply is_disabled_spec. }
  apply (Hn eq_refl a r items Hin Hr Hit fb verb name Hfb Hp Hv).
  by eapply get_required_flowbits_spec.
Qed.

(** ** The whole resolution *)

Lemma resolve_loop_spec fuel self rules h h' self' res :
  resolve_loop fuel self rules h = (h', self', Ok res) →
  ∃ new, res = enabled self ++ new ∧ self' = {| enabled := res |}
         ∧ h' = foldl enable h new
         ∧ (∀ x, x ∈ new → Some x ∈ values rules ∧ disabled_in h x)
         ∧ ∃ req, get_required_flowbits h' rules = Ok req
                  ∧ set_required_flowbits h' rules req = (h', Ok []).
Proof.
  revert self h. induction fuel as [|fuel IH]; intros self h; simpl; [done|].
  destruct (get_required_flowbits h rules) as [req|] eqn:Eg; [|done].
  destruct (set_required_flowbits h rules req) as [h1 [out|]] eqn:Es; [|done].
  pose proof Es as (dis & Hs & -> & Hin & _)%set_required_flowbits_spec.
  destruct out as [|x out].
  - intros [= <- <- <-]. exists []. rewrite app_nil_r.
    split; [done|]. split; [by destruct self|]. split; [done|]. split.
    + by intros y ?%elem_of_nil.
    + by exists req.
  - intros (new & -> & -> & -> & Hn & Hq)%IH. simpl in *.
    exists ((x :: out) ++ new). rewrite app_assoc.
    split; [done|]. split; [done|]. split; [by rewrite foldl_app|].
    split; [|done]. intros y [Hy|Hy]%elem_of_app.
    + apply Hin in Hy. apply (select_spec _ _ _ Hs) in Hy as [Hv Hd].
      split; [done|]. by apply is_disabled_spec.
    + destruct (Hn y Hy) as [Hv Hd]. split; [done|].
      by apply (disabled_after (x :: out)) in Hd as [Hd _].
Qed.

(** The rules that a call of [resolve] appends to the list are the rules
    whose enabled flag it turned from false to true. *)
Lemma resolve_new_flipped new h a :
  (∀ x, x ∈ new → disabled_in h x) →
  a ∈ new ↔ flipped h (foldl enable h new) a.
Proof.
  intros Hn. unfold flipped. split.
  - intros Ha. split; [by apply Hn|].
    destruct (Hn a Ha) as (r & e & Hr & _). exists (set_enabled r).
    rewrite enabled_lookup, Hr, decide_True by done.
    split; [done|]. apply set_enabled_getattr.
  - intros [(r & e & Hr & He & Ht) (r' & Hr' & He')].
    destruct (decide (a ∈ new)) as [|Hnot]; [done|].
    rewrite enabled_lookup, Hr, decide_False in Hr' by done.
    simplify_eq/=. rewrite He in He'. by simplify_eq.
Qed.

(** C1, as the code has it.  When [resolve] returns, on any resolver, no
    disabled rule of the map has a setter option for a flowbit that an
    enabled rule of the map requires with a getter option.  The list it
    returns is the list that the resolver held before the call followed
    by what the call appended, and a rule is among what was appended if
    and only if the call turned its enabled flag from false to true; the
    list may name such a rule more than once. *)
Theorem resolve_fixed_point self rules h h' self' res :
  resolve self rules h = (h', self', Ok res) →
  fixed_point h' rules
  ∧ ∃ new, res = enabled self ++ new ∧ ∀ a, a ∈ new ↔ flipped h h' a.
Proof.
  intros (new & -> & _ & -> & Hn & req & Hg & Hs)%resolve_loop_spec.
  split; [by eapply quiet_pass_fixed_point|].
  exists new. split; [done|]. intros a. apply resolve_new_flipped.
  intros x Hx. by destruct (Hn x Hx).
Qed.

(** X4: What [resolve] leaves in the resolver: [self.enabled] is the list
    it returns, the list held before followed by what the call appended;
    a rule is among what was appended if and only if the call turned its
    enabled flag from false to true, and it may be there more than
    once. *)
Lemma resolve_accumulates self rules h h' self' res :
  resolve self rules h = (h', self', Ok res) →
  ∃ new, res = enabled self ++ new ∧ enabled self' = res
         ∧ ∀ a, a ∈ new ↔ flipped h h' a.
Proof.
  intros (new & -> & -> & -> & Hn & req & Hg & Hs)%resolve_loop_spec.
  exists new. split; [done|]. split; [done|].
  intros a. apply resolve_new_flipped.
  intros x Hx. by destruct (Hn x Hx).
Qed.

(** After [enable_flowbit_dependencies] has returned for a rule map, a
    second call on the same map enables no rule: it leaves every rule as
    it is and returns the empty list. *)
Lemma enable_flowbit_dependencies_idempotent rules h h1 res :
  enable_flowbit_dependencies rules h = (h1, Ok res) →
  enable_flowbit_dependencies rules h1 = (h1, Ok []).
Proof.
  unfold enable_flowbit_dependencies.
  destruct (resolve FlowbitResolver_init rules h) as [[h' self'] o] eqn:E.
  intros [= -> ->].
  apply resolve_loop_spec in E as (_ & _ & _ & _ & _ & req & Hg & Hs).
  unfold resolve. cbn [resolve_loop]. by rewrite Hg, Hs.
Qed.

(** C8, as the code has it.  After a resolution of a rule map has
    returned, resolving the same map again enables no rule: every rule
    stays as it is.  What the second resolution returns depends on the
    resolver: [enable_flowbit_dependencies], which builds a new resolver
    for each call, returns the empty list; [resolve] on the resolver
    object of the first call returns the list of the first call once
    more, since [self.enabled] is never emptied. *)
Theorem resolve_idempotent self rules h h1 self1 res :
  resolve self rules h = (h1, self1, Ok res) →
  enable_flowbit_dependencies rules h1 = (h1, Ok [])
  ∧ resolve self1 rules h1 = (h1, self1, Ok res).
Proof.
  intros (new & -> & -> & _ & _ & req & Hg & Hs)%resolve_loop_spec.
  unfold enable_flowbit_dependencies, resolve. cbn [resolve_loop].
  by rewrite Hg, Hs.
Qed.

(** X5: A second call of [resolve] on the same resolver object changes no
    rule either, and returns the list of the first call once more. *)
Lemma resolve_again self rules h h1 self1 res :
  resolve self rules h = (h1, self1, Ok res) →
  resolve self1 rules h1 = (h1, self1, Ok res).
Proof.
  intros (new & -> & -> & _ & _ & req & Hg & Hs)%resolve_loop_spec.
  unfold resolve. cbn [resolve_loop]. by rewrite Hg, Hs.
Qed.

(** ** Termination *)

Lemma parse_flowbit_exn fb : parse_flowbit fb ≠ Raise Diverged.
Proof.
  destruct fb as [s|]; simpl; [|done].
  by destruct (split1 ","%char s) as [|? [|? [|]]].
Qed.

Lemma getattr_exn r k : getattr r k ≠ Raise Diverged.
Proof. unfold getattr, getitem. by repeat case_match. Qed.

Lemma flowbits_of_exn r : flowbits_of r ≠ Raise Diverged.
Proof.
  unfold flowbits_of. pose proof (getattr_exn r "flowbits").
  destruct (getattr r "flowbits") as [[]|]; simpl; congruence.
Qed.

Lemma is_disabled_exn h v : is_disabled h v ≠ Raise Diverged.
Proof.
  destruct v as [a|]; simpl; [|done]. unfold deref.
  destruct (h !! a) as [r|]; simpl; [|done].
  pose proof (getattr_exn r "enabled").
  destruct (getattr r "enabled"); simpl; congruence.
Qed.

Lemma is_enabled_exn h v : is_enabled h v ≠ Raise Diverged.
Proof.
  destruct v as [a|]; simpl; [|done]. unfold deref.
  destruct (h !! a) as [r|]; simpl; [|done].
  destruct (rule_truthy r); [|done].
  pose proof (getattr_exn r "enabled").
  destruct (getattr r "enabled"); simpl; congruence.
Qed.

Lemma select_exn p vs :
  (∀ v, p v ≠ Raise Diverged) → select p vs ≠ Raise Diverged.
Proof.
  intros Hp. induction vs as [|v vs IH]; simpl; [done|].
  specialize (Hp v). destruct (p v); simpl; [|congruence].
  destruct (select p vs); simpl; congruence.
Qed.

Lemma add_getters_exn items req : add_getters items req ≠ Raise Diverged.
Proof.
  revert req. induction items as [|fb items IH]; intros req; simpl; [done|].
  pose proof (parse_flowbit_exn fb).
  destruct (parse_flowbit fb) as [[??]|]; simpl; [|congruence].
  case_match; apply IH.
Qed.

Lemma get_required_loop_exn h rs req :
  get_required_loop h rs req ≠ Raise Diverged.
Proof.
  revert req. induction rs as [|[a|] rs IH]; intros req; simpl; try done.
  unfold deref. destruct (h !! a) as [r|]; simpl; [|done].
  pose proof (flowbits_of_exn r).
  destruct (flowbits_of r) as [items|]; simpl; [|congruence].
  pose proof (add_getters_exn items req).
  destruct (add_getters items req); simpl; [apply IH|congruence].
Qed.

Lemma get_required_flowbits_exn h rules :
  get_required_flowbits h rules ≠ Raise Diverged.
Proof.
  unfold get_required_flowbits.
  pose proof (select_exn _ (values rules) (is_enabled_exn h)).
  destruct (select (is_enabled h) (values rules)); simpl; [|congruence].
  apply get_required_loop_exn.
Qed.

Lemma enable_matching_exn req a items h acc :
  (enable_matching req a items h acc).2 ≠ Raise Diverged.
Proof.
  revert h acc. induction items as [|fb items IH]; intros h acc; simpl;
    [done|].
  pose proof (parse_flowbit_exn fb).
  destruct (parse_flowbit fb) as [[??]|]; simpl; [|congruence].
  case_match; apply IH.
Qed.

Lemma set_required_loop_exn req rs h acc :
  (set_required_loop req rs h acc).2 ≠ Raise Diverged.
Proof.
  revert h acc. induction rs as [|[a|] rs IH]; intros h acc; simpl; try done.
  unfold deref. destruct (h !! a) as [r|]; simpl; [|done].
  pose proof (flowbits_of_exn r).
  destruct (flowbits_of r) as [items|]; simpl; [|congruence].
  pose proof (enable_matching_exn req a items h acc).
  destruct (enable_matching req a items h acc) as [h1 [out|]]; simpl in *;
    [apply IH|congruence].
Qed.

Lemma set_required_flowbits_exn h rules req :
  (set_required_flowbits h rules req).2 ≠ Raise Diverged.
Proof.
  unfold set_required_flowbits.
  pose proof (select_exn _ (values rules) (is_disabled_exn h)).
  destruct (select (is_disabled h) (values rules)); simpl; [|congruence].
  apply set_required_loop_exn.
Qed.

(** A pass that enables a rule leaves fewer disabled rules in the map. *)
Lemma set_required_flowbits_progress h rules req h1 x out dis dis1 :
  set_required_flowbits h rules req = (h1, Ok (x :: out)) →
  select (is_disabled h) (values rules) = Ok dis →
  select (is_disabled h1) (values rules) = Ok dis1 →
  (length dis1 < length dis)%nat.
Proof.
  intros (dis' & Hs & -> & Hin & _)%set_required_flowbits_spec Hd Hd1.
  rewrite Hs in Hd. injection Hd as ->. rename Hs into Hd.
  destruct (select_shrinks _ _ _ _ _ Hd Hd1) as [_ Hlt].
  - intros [y|] _; [|done]. rewrite !is_disabled_spec.
    by intros [? _]%disabled_after.
  - apply Hlt. exists (Some x).
    assert (Hx : Some x ∈ dis) by (apply Hin; by left).
    apply (select_spec _ _ _ Hd) in Hx as [Hv Hp]. split; [done|].
    split; [done|]. apply is_disabled_spec in Hp as (r & e & Hr & _).
    unfold is_disabled, deref.
    rewrite enabled_lookup, Hr, decide_True by (by left). simpl.
    by rewrite set_enabled_getattr.
Qed.

Lemma resolve_loop_terminates fuel self rules h :
  (1 <= fuel)%nat →
  (∀ dis, select (is_disabled h) (values rules) = Ok dis →
          (length dis < fuel)%nat) →
  (resolve_loop fuel self rules h).2 ≠ Raise Diverged.
Proof.
  revert self h. induction fuel as [|fuel IH]; intros self h Hf Hd; [lia|].
  simpl. pose proof (get_required_flowbits_exn h rules).
  destruct (get_required_flowbits h rules) as [req|]; simpl; [|congruence].
  pose proof (set_required_flowbits_exn h rules req).
  destruct (set_required_flowbits h rules req) as [h1 [[|x out]|]] eqn:Es;
    simpl in *; [done| |congruence].
  pose proof Es as (dis & Hs & _ & Hin & _)%set_required_flowbits_spec.
  assert (Hx : Some x ∈ dis) by (apply Hin; by left).
  assert (1 <= length dis)%nat by (destruct dis; [by apply elem_of_nil in Hx|simpl; lia]).
  specialize (Hd dis Hs). apply IH; [lia|].
  intros dis1 Hd1.
  pose proof (set_required_flowbits_progress _ _ _ _ _ _ _ _ Es Hs Hd1). lia.
Qed.

(** [resolve] always returns or raises a Python exception: the passes it
    makes are at most one more than the rules of the map. *)
Lemma resolve_terminates self rules h :
  (resolve self rules h).2 ≠ Raise Diverged.
Proof.
  unfold resolve. apply resolve_loop_terminates; [lia|].
  intros dis Hd%select_length. unfold values in Hd.
  rewrite length_map in Hd. lia.
Qed.

End Resolver.

Lemma resolve_fixed_point_witness :
  fixed_point (enable example_heap 0) example_rules
  ∧ ∃ new, [1%nat; 0%nat] = enabled {| enabled := [1%nat] |} ++ new
           ∧ ∀ a, a ∈ new ↔ flipped example_heap (enable example_heap 0) a.
Proof.
  apply (resolve_fixed_point {| enabled := [1%nat] |} example_rules
           example_heap (enable example_heap 0)
           {| enabled := [1%nat; 0%nat] |} [1%nat; 0%nat]).
  reflexivity.
Defined.

(** C1 as the claim states it fails in two ways.  A resolver that was used
    before returns the rule of its first call again, and that rule is not
    one whose flag the second call turned; and a rule with two options
    that set a required flowbit is listed twice. *)
Lemma resolve_list_not_the_flipped :
  (resolve {| enabled := [0%nat] |} example_rules (enable example_heap 0)
   = (enable example_heap 0, {| enabled := [0%nat] |}, Ok [0%nat])
   ∧ ¬ flipped (enable example_heap 0) (enable example_heap 0) 0)
  ∧ resolve FlowbitResolver_init example_rules example_heap_two_setters
    = (foldl enable example_heap_two_setters [0%nat; 0%nat],
       {| enabled := [0%nat; 0%nat] |}, Ok [0%nat; 0%nat]).
Proof.
  split; [split|]; [reflexivity| |reflexivity].
  intros [(r & e & Hr & He & Ht) _].
  rewrite enable_lookup, decide_True in Hr by done.
  destruct (example_heap !! 0%nat) as [r0|]; [|discriminate Hr].
  injection Hr as <-. rewrite set_enabled_getattr in He.
  injection He as <-. discriminate Ht.
Qed.

Lemma resolve_idempotent_witness :
  enable_flowbit_dependencies example_rules (enable example_heap 0)
  = (enable example_heap 0, Ok [])
  ∧ resolve {| enabled := [0%nat] |} example_rules (enable example_heap 0)
    = (enable example_heap 0, {| enabled := [0%nat] |}, Ok [0%nat]).
Proof.
  apply (resolve_idempotent FlowbitResolver_init example_rules example_heap).
  reflexivity.
Defined.

(** C8 as the claim states it fails for [resolve]: the second call on the
    resolver of the first call returns the rule of the first call, not the
    empty list. *)
Lemma resolve_second_call_not_empty :
  resolve FlowbitResolver_init example_rules example_heap
  = (enable example_heap 0, {| enabled := [0%nat] |}, Ok [0%nat])
  ∧ resolve {| enabled := [0%nat] |} example_rules (enable example_heap 0)
    = (enable example_heap 0, {| enabled := [0%nat] |}, Ok [0%nat]).
Proof. split; reflexivity. Qed.

(** * Termination of the parser *)

Section ParserTermination.

Lemma finish_exn m d : finish m d ≠ Raise Diverged.
Proof.
  unfold finish, getitem. destruct (d !! "msg"); simpl; [|done].
  destruct (_ !! "sid"); simpl; [|done]. by case_match.
Qed.

(** [parse] always returns or raises a Python exception. *)
Lemma parse_terminates buf group : parse buf group ≠ Raise Diverged.
Proof.
  unfold parse. destruct (rule_pattern_match (strip buf)) as [m|]; [|done].
  assert (parse_matched m group ≠ Raise Diverged) as Hm.
  { unfold parse_matched.
    destruct (if bool_decide _ then _ else _) as [[[d1 action] direction]|];
      [|done].
    destruct (negb _); [done|].
    match goal with
    | |- context [parse_options ?n ?r ?o] =>
        pose proof (parse_options_terminates n r o (le_n _)) as Hp;
        destruct (parse_options n r o)
    end; simpl; congruence. }
  destruct (parse_matched m group) as [[d|]|]; simpl; [|done|congruence].
  pose proof (finish_exn m d). destruct (finish m d); simpl; congruence.
Qed.

End ParserTermination.

(** * Further properties of the code *)

Section Witnesses.

Lemma find_opt_end_unescaped_witness :
  ∃ c, index "a\;b;" (4 - 1) = Ok c ∧ c ≠ "\"%char.
Proof. apply (find_opt_end_unescaped "a\;b;" 4). reflexivity. Defined.

Lemma next_option_no_end_witness :
  next_option "msg:x" = Raise NoEndOfOptionError.
Proof.
  apply (next_option_no_end "msg:x" ":"%char); [reflexivity|reflexivity|].
  discriminate.
Defined.

(** X6: [parse_flowbit] cuts a flowbit option at its first comma: a text
    without comma is the verb alone, and the verb followed by a comma and
    any text gives that text as the value, commas included. *)
Lemma parse_flowbit_first_comma verb :
  contains "," verb = false →
  parse_flowbit (Some verb) = Ok (verb, None)
  ∧ ∀ value, parse_flowbit (Some (verb +:+ "," +:+ value))
             = Ok (verb, Some value).
Proof.
  intros H. split; [by apply parse_flowbit_verb|].
  intros value. by apply parse_flowbit_verb_value.
Qed.

Lemma parse_flowbit_first_comma_witness :
  parse_flowbit (Some "isset") = Ok ("isset", None)
  ∧ ∀ value, parse_flowbit (Some ("isset" +:+ "," +:+ value))
             = Ok ("isset", Some value).
Proof. apply (parse_flowbit_first_comma "isset"). reflexivity. Defined.

Lemma resolve_accumulates_witness :
  ∃ new, [7%nat; 0%nat] = enabled {| enabled := [7%nat] |} ++ new
         ∧ enabled {| enabled := [7%nat; 0%nat] |} = [7%nat; 0%nat]
         ∧ ∀ a, a ∈ new ↔ flipped example_heap (enable example_heap 0) a.
Proof.
  apply (resolve_accumulates {| enabled := [7%nat] |} example_rules
           example_heap (enable example_heap 0)
           {| enabled := [7%nat; 0%nat] |} [7%nat; 0%nat]).
  reflexivity.
Defined.

Lemma resolve_again_witness :
  resolve {| enabled := [0%nat] |} example_rules (enable example_heap 0)
  = (enable example_heap 0, {| enabled := [0%nat] |}, Ok [0%nat]).
Proof.
  apply (resolve_again FlowbitResolver_init example_rules example_heap).
  reflexivity.
Defined.

End Witnesses.

(** * Parsing what [format] returns *)

Section FormatParse.

Lemma span_rest_head p s a c b : span p s = (a, String c b) → p c = false.
Proof.
  revert a. induction s as [|d s IH]; intros a; simpl; [done|].
  destruct (p d) eqn:E.
  - destruct (span p s) as [a' b'] eqn:Es. intros [= <- ->]. by eapply IH.
  - by intros [= <- <- <-].
Qed.

Lemma span_all_head p s c a b : span p s = (String c a, b) → p c = true.
Proof. apply span_head_true. Qed.

Lemma span_swap_rest p s a x y y' :
  span p s = (a, String x y) →
  span p (a +:+ String x y') = (a, String x y').
Proof.
  revert a. induction s as [|d s IH]; intros a; simpl; [done|].
  destruct (p d) eqn:E.
  - destruct (span p s) as [a' b'] eqn:Es. intros [= <- ->]. simpl.
    by rewrite E, (IH a' eq_refl).
  - intros [= <- <- <-]. simpl. by rewrite E.
Qed.

Lemma unsnoc_snoc s c : unsnoc (s +:+ String c "") = Some (s, c).
Proof.
  induction s as [|d s IH]; simpl; [done|]. by rewrite IH.
Qed.

Lemma match_options_shape rest options tail :
  match_options rest = Some (options, tail) →
  (∃ tail0, rest = String "("%char tail0)
  ∧ tail = String "("%char (options +:+ ")")
  ∧ no_newline options = true.
Proof.
  unfold match_options. destruct rest as [|c tail0]; [done|].
  repeat case_match; try done; subst; intros [= <- <-]; eauto.
Qed.

Lemma match_options_again options :
  no_newline options = true →
  match_options (String "("%char (options +:+ ")"))
  = Some (options, String "("%char (options +:+ ")")).
Proof.
  intros H. unfold match_options.
  change (options +:+ ")") with (options +:+ String ")"%char "").
  rewrite unsnoc_snoc. by rewrite H.
Qed.

Lemma rstrip_snoc s c :
  isspace c = false → rstrip (s +:+ String c "") = s +:+ String c "".
Proof.
  intros Hc. induction s as [|d s IH]; simpl.
  - by rewrite Hc.
  - rewrite IH. by destruct s.
Qed.

Lemma parse_matched_unknown_action m group :
  strip (g_header m) = "" ∨ strip (g_header m) = "#" →
  parse_matched m group = Ok None.
Proof.
  intros H. unfold parse_matched. cbv zeta.
  destruct H as [-> | ->].
  - destruct (bool_decide (length (split " "%char "") = 1%nat)) eqn:E;
      [|by compute in E].
    destruct (bool_decide ("" ∈ actions)) eqn:E2; [|done].
    apply bool_decide_eq_true in E2. exfalso. revert E2. unfold actions. notin.
  - destruct (bool_decide (length (split " "%char "#") = 1%nat)) eqn:E;
      [|by compute in E].
    destruct (bool_decide ("#" ∈ actions)) eqn:E2; [|done].
    apply bool_decide_eq_true in E2. exfalso. revert E2. unfold actions. notin.
Qed.

(** A line that [parse] turns into a rule has a header that starts with
    no whitespace and no comment marker; the raw text is the header and
    the options in their parentheses. *)
Lemma parse_matched_shape buf m group d :
  rule_pattern_match buf = Some m →
  parse_matched m group = Ok (Some d) →
  (∃ c h, g_header m = String c h ∧ is_space_or_hash c = false)
  ∧ g_raw m = g_header m +:+ String "("%char (g_options m +:+ ")")
  ∧ span not_paren (g_raw m)
    = (g_header m, String "("%char (g_options m +:+ ")"))
  ∧ no_newline (g_options m) = true
  ∧ (g_enabled m = None ∨ g_enabled m = Some "#").
Proof.
  unfold rule_pattern_match.
  destruct (span is_hash buf) as [hashes r1] eqn:E1.
  destruct (span is_space_or_hash r1) as [junk r2] eqn:E2.
  destruct (span not_paren r2) as [header rest] eqn:E3.
  destruct header as [|c header].
  - (* the header took back one character: no action is recognized *)
    assert (B : ∀ x enabled raw options,
              is_space_or_hash x = true →
              parse_matched {| g_enabled := enabled; g_raw := raw;
                               g_header := String x "";
                               g_options := options |} group
              ≠ Ok (Some d)).
    { intros x enabled raw options Hx.
      rewrite parse_matched_unknown_action; [done|].
      cbn [g_header]. unfold is_space_or_hash in Hx. unfold strip.
      cbn [rstrip]. destruct (isspace x) eqn:Es; [by left|].
      cbn [lstrip]. rewrite Es. right.
      unfold is_hash, ascii_eqb in Hx. simpl in Hx.
      apply Ascii.eqb_eq in Hx. by subst x. }
    destruct (unsnoc junk) as [[i x]|] eqn:U.
    + destruct (match_options rest) as [[options tail]|]; simpl; [|done].
      intros [= <-] Hd. exfalso. eapply B; [|exact Hd].
      apply unsnoc_app in U. subst junk. clear -E2.
      revert r1 E2. induction i as [|y i IH]; intros r1 E2.
      * by apply span_head_true in E2.
      * destruct r1 as [|z r1]; [done|]. simpl in E2.
        destruct (is_space_or_hash z); [|done].
        destruct (span is_space_or_hash r1) as [a b] eqn:Er.
        injection E2 as _ -> ->. by eapply IH.
    + destruct hashes as [|x hs]; [done|].
      destruct (match_options rest) as [[options tail]|]; simpl; [|done].
      intros [= <-] Hd. exfalso. by eapply (B "#"%char); [|exact Hd].
  - destruct (match_options rest) as [[options tail]|] eqn:O; simpl; [|done].
    intros [= <-] Hd. simpl.
    apply match_options_shape in O as ([tail0 ->] & -> & Hn).
    split; [|split; [done|split; [|split; [done|]]]].
    + exists c, header. split; [done|].
      pose proof (span_app _ _ _ _ E3) as A3. rewrite A3 in E2.
      by apply span_rest_head in E2.
    + by apply (span_swap_rest _ _ _ _ _ _ E3).
    + destruct (String.eqb hashes ""); simpl; eauto.
Qed.

(** The pattern matches the raw text of such a line, alone or after a
    comment marker and a space, with the same groups. *)
Lemma rule_pattern_match_raw_again m c h (commented : bool) :
  g_header m = String c h → is_space_or_hash c = false →
  g_raw m = g_header m +:+ String "("%char (g_options m +:+ ")") →
  span not_paren (g_raw m) = (g_header m, String "("%char (g_options m +:+ ")")) →
  no_newline (g_options m) = true →
  rule_pattern_match ((if commented then "# " else "") +:+ g_raw m)
  = Some {| g_enabled := if commented then Some "#" else None;
            g_raw := g_raw m; g_header := g_header m;
            g_options := g_options m |}.
Proof.
  intros Hh Hc Hr Hs Hn.
  assert (Hraw : g_raw m = String c (h +:+ String "("%char (g_options m +:+ ")"))).
  { by rewrite Hr, Hh. }
  unfold is_space_or_hash in Hc. apply orb_false_iff in Hc as [Hc1 Hc2].
  assert (S1 : span is_hash (g_raw m) = ("", g_raw m)).
  { rewrite Hraw. cbn [span]. by rewrite Hc2. }
  assert (S2 : span is_space_or_hash (g_raw m) = ("", g_raw m)).
  { rewrite Hraw. cbn [span]. unfold is_space_or_hash. by rewrite Hc1, Hc2. }
  assert (T1 : span is_hash ("# " +:+ g_raw m) = ("#", " " +:+ g_raw m))
    by reflexivity.
  assert (T2 : span is_space_or_hash (" " +:+ g_raw m) = (" ", g_raw m)).
  { change (" " +:+ g_raw m) with (String " "%char (g_raw m)).
    cbn [span]. rewrite S2. reflexivity. }
  unfold rule_pattern_match. destruct commented.
  - change ((if true then "# " else "") +:+ g_raw m) with ("# " +:+ g_raw m).
    rewrite T1, T2, Hs, Hh. cbv beta iota zeta.
    rewrite match_options_again by done. cbn. by rewrite Hr, Hh.
  - cbv beta iota. unfold String.append at 1.
    rewrite S1, S2, Hs, Hh. cbv beta iota zeta.
    rewrite match_options_again by done. cbn. by rewrite Hr, Hh.
Qed.

Lemma strip_raw_again m c h (commented : bool) :
  g_header m = String c h → is_space_or_hash c = false →
  g_raw m = g_header m +:+ String "("%char (g_options m +:+ ")") →
  strip ((if commented then "# " else "") +:+ g_raw m)
  = (if commented then "# " else "") +:+ g_raw m.
Proof.
  intros Hh Hc Hr. unfold is_space_or_hash in Hc.
  apply orb_false_iff in Hc as [Hc1 _].
  assert (E : ∃ s, (if commented then "# " else "") +:+ g_raw m
                   = s +:+ String ")"%char "").
  { rewrite Hr.
    exists ((if commented then "# " else "") +:+ g_header m
            +:+ String "("%char (g_options m)).
    rewrite !append_assoc. simpl. by rewrite ?append_assoc. }
  destruct E as [s E]. unfold strip. rewrite E, rstrip_snoc by done.
  rewrite <- E. destruct commented; simpl; [done|].
  rewrite Hr, Hh. simpl. by rewrite Hc1.
Qed.

(** X7: Parsing what [format] returns gives the record back.  For a line that
    parses to a record with no pending noalert injection and no option
    named enabled, [format] returns a text that [parse] turns into the
    same record, for an enabled rule as for a rule that is commented
    out. *)
Theorem parse_format_roundtrip line group r n :
  parse line group = Ok (Some r) →
  "enabled" ∉ line_option_names line →
  getattr r "noalert" = Ok n →
  (truthy n = false
   ∨ ∃ raw, getattr r "raw" = Ok (VStr raw) ∧ contains "noalert;" raw = true) →
  ∃ text, format r = (r, Ok text) ∧ parse text group = Ok (Some r).
Proof.
  intros Hp Hen Hn Hno.
  pose proof Hp as (m & d & Hm & Hd & Hf)%parse_Some.
  destruct (parse_matched_shape _ _ _ _ Hm Hd)
    as ((c & h & Hh & Hc) & Hr & Hs & Hnl & Hg).
  unfold line_option_names in Hen. rewrite Hm in Hen.
  pose proof Hd as (d0 & P & F)%parse_matched_stages.
  pose proof Hf as (Ha & Hraw & Hk)%finish_fields.
  assert (He : getattr r "enabled"
               = Ok (VBool (negb (bool_decide (g_enabled m = Some "#"))))).
  { unfold getattr, getitem. rewrite Ha, lookup_empty, Hk by done.
    rewrite (parse_options_frame _ _ _ _ "enabled" P) by done.
    by rewrite F by notin. }
  assert (R : getattr r "raw" = Ok (VStr (g_raw m))).
  { unfold getattr, getitem. rewrite Ha, lookup_empty, Hraw.
    assert (Hst : strip (g_raw m) = g_raw m)
      by exact (strip_raw_again m c h false Hh Hc Hr).
    by rewrite Hst. }
  set (commented := bool_decide (g_enabled m = Some "#")) in *.
  exists ((if commented then "# " else "") +:+ g_raw m). split.
  - unfold format. rewrite Hn. simpl.
    destruct (truthy n) eqn:Tn.
    + destruct Hno as [?|(raw & Hr' & Hc')]; [done|].
      rewrite Hr'. simpl. rewrite Hc', He. simpl. rewrite R. simpl.
      by destruct commented.
    + rewrite He. simpl. rewrite R. simpl. by destruct commented.
  - unfold parse.
    rewrite (strip_raw_again m c h commented Hh Hc Hr).
    rewrite (rule_pattern_match_raw_again m c h commented Hh Hc Hr Hs Hnl).
    assert (M : {| g_enabled := if commented then Some "#" else None;
                   g_raw := g_raw m; g_header := g_header m;
                   g_options := g_options m |} = m).
    { subst commented. clear -Hg. destruct m as [e ? ? ?].
      cbn [g_enabled g_raw g_header g_options] in *. f_equal.
      by destruct Hg as [->| ->]. }
    rewrite M, Hd. simpl. by rewrite Hf.
Qed.

Lemma parse_format_roundtrip_witness :
  ∃ text,
    format (parsed "## alert tcp any any -> any any (msg:x; sid:1;)  " VNone)
    = (parsed "## alert tcp any any -> any any (msg:x; sid:1;)  " VNone, Ok text)
    ∧ parse text VNone
      = Ok (Some (parsed "## alert tcp any any -> any any (msg:x; sid:1;)  "
                    VNone)).
Proof.
  apply (parse_format_roundtrip
           "## alert tcp any any -> any any (msg:x; sid:1;)  " VNone
           _ (VBool false)).
  - reflexivity.
  - change (line_option_names _) with ["msg"; "sid"]. notin.
  - reflexivity.
  - by left.
Defined.

End FormatParse.

(** * What the options leave in the record *)

Section OptionFields.

Implicit Types rule d : gmap string value.

Lemma option_names_options_of fuel options :
  option_names fuel options = map fst (options_of fuel options).
Proof.
  revert options. induction fuel as [|fuel IH]; intros options; simpl;
    destruct (String.eqb options ""); try done.
  destruct (next_option options) as [[[name val] options']|]; [|done].
  simpl. by rewrite IH.
Qed.



Lemma values_named_cons name n v opts :
  values_named name ((n, v) :: opts)
  = values_named name [(n, v)] ++ values_named name opts.
Proof. simpl. by destruct (String.eqb n name). Qed.




End OptionFields.

(** * The kinds of values in a parsed rule *)

Section Typed.

Implicit Types rule d : gmap string value.

(** The seven branches of the chain of tests on an option name. *)
Lemma store_option_cases rule name val rule' :
  store_option rule name val = Ok rule' →
  (name ∈ ["gid"; "sid"; "rev"] ∧ ∃ z, rule' = <[name := VInt z]> rule)
  ∨ (name = "metadata" ∧ ∃ l, rule' = <["metadata" := VList l]> rule)
  ∨ (name = "flowbits"
     ∧ ∃ l, rule' = <["flowbits" := VList l]> rule
            ∨ rule' = <["noalert" := VBool true]> (<["flowbits" := VList l]> rule))
  ∨ (name = "noalert" ∧ rule' = <["noalert" := VBool true]> rule)
  ∨ (name = "reference" ∧ ∃ l, rule' = <["references" := VList l]> rule)
  ∨ (name = "msg"
     ∧ (rule' = <["msg" := VNone]> rule ∨ ∃ s, rule' = <["msg" := VStr s]> rule))
  ∨ (name ∉ ["gid"; "sid"; "rev"; "noalert"; "msg"]
     ∧ rule' = <[name := of_opt val]> rule).
Proof.
  unfold store_option. intros H.
  destruct (bool_decide (name ∈ ["gid"; "sid"; "rev"])) eqn:E1.
  { apply bool_decide_eq_true in E1. left. split; [done|].
    unfold mbind, outcome_bind in H. destruct (int (of_opt val)); simplify_eq.
    eauto. }
  apply bool_decide_eq_false in E1. right.
  destruct (String.eqb_spec name "metadata") as [->|E2].
  { left. split; [done|]. unfold mbind, outcome_bind, getitem in H.
    destruct (rule !! "metadata") as [cur|] eqn:Hc.
    - rewrite Hc in H. destruct val; [|done]. destruct cur; simplify_eq. eauto.
    - rewrite lookup_insert_eq in H. destruct val; simplify_eq.
      rewrite insert_insert_eq. eauto. }
  right. destruct (String.eqb_spec name "flowbits") as [->|E3].
  { left. split; [done|]. unfold mbind, outcome_bind in H.
    destruct (append_to rule "flowbits" val) as [rule1|] eqn:A; [|done].
    apply append_to_shape in A as (l & _ & ->).
    exists (l ++ [val]). destruct (_ && _); simplify_eq; eauto. }
  right. destruct (String.eqb_spec name "noalert") as [->|E4].
  { left. by simplify_eq. }
  right. destruct (String.eqb_spec name "reference") as [->|E5].
  { left. split; [done|]. apply append_to_shape in H as (l & _ & ->). eauto. }
  right. destruct (String.eqb_spec name "msg") as [->|E6].
  { left. split; [done|]. destruct val; [|left; by simplify_eq].
    right. destruct (_ && _); simplify_eq; eauto. }
  right. simplify_eq. split; [|done].
  intros Hin. apply E1. repeat (apply elem_of_cons in Hin as [->|Hin]);
    try done; try (by apply elem_of_nil in Hin);
    repeat first [apply list_elem_of_here | apply list_elem_of_further].
Qed.

Lemma set_option_typed rule name val rule' :
  set_option rule name val = Ok rule' → typed rule → typed rule'.
Proof.
  intros (rule1 & H1 & H2)%set_option_shape T.
  assert (T1 : typed rule1).
  { clear H2. destruct T as (Tg & Tr & Ts & Tn & Tm & Tc & Tp & Tf).
    apply store_option_cases in H1
      as [[Hin [z ->]]|[[-> [l ->]]|[[-> [l [->| ->]]]|[[-> ->]|[[-> [l ->]]|
          [[-> [->|[s ->]]]|[Hn ->]]]]]]].
    - repeat (apply elem_of_cons in Hin as [->|Hin]);
        try (by apply elem_of_nil in Hin);
        repeat split; rewrite ?lookup_insert_eq, ?lookup_insert_ne by done;
        eauto.
    - repeat split; by rewrite ?lookup_insert_ne by done.
    - repeat split; by rewrite ?lookup_insert_ne by done.
    - repeat split; rewrite ?lookup_insert_eq, ?lookup_insert_ne by done;
        eauto.
    - repeat split; rewrite ?lookup_insert_eq, ?lookup_insert_ne by done;
        eauto.
    - repeat split; rewrite ?lookup_insert_eq, ?lookup_insert_ne by done;
        eauto.
    - repeat split; rewrite ?lookup_insert_eq, ?lookup_insert_ne by done;
        eauto.
    - repeat split; rewrite ?lookup_insert_eq, ?lookup_insert_ne by done;
        eauto.
    - repeat (apply not_elem_of_cons in Hn as [? Hn]).
      repeat split; rewrite ?(lookup_insert_ne _ name "gid"),
        ?(lookup_insert_ne _ name "rev"), ?(lookup_insert_ne _ name "sid"),
        ?(lookup_insert_ne _ name "noalert"), ?(lookup_insert_ne _ name "msg")
        by done; try done.
      + rewrite lookup_insert. case_decide; eauto.
      + rewrite lookup_insert. case_decide; eauto.
      + rewrite lookup_insert. case_decide; eauto. }
  destruct H2 as [->|[v ->]]; [done|].
  destruct T1 as (Tg & Tr & Ts & Tn & Tm & Tc & Tp & Tf).
  repeat split; by rewrite ?lookup_insert_ne by done.
Qed.

Lemma parse_options_typed fuel rule options rule' :
  parse_options fuel rule options = Ok rule' → typed rule → typed rule'.
Proof.
  revert rule options. induction fuel as [|fuel IH]; intros rule options;
    simpl; destruct (String.eqb options ""); try by intros [= ->].
  destruct (next_option options) as [[[name val] options']|]; simpl; [|done].
  destruct (set_option rule name val) as [rule1|] eqn:E1; simpl; [|done].
  intros H T. apply (IH _ _ H). by apply (set_option_typed _ _ _ _ E1).
Qed.

(** What a parsed rule holds under the names that the rest of the
    program reads: no instance attribute, integers for [gid], [sid] and
    [rev], the [sid] not zero, a boolean for [noalert], texts for [msg]
    and [raw]. *)
Lemma parse_typed buf group r :
  parse buf group = Ok (Some r) →
  attrs r = ∅
  ∧ (∃ z, fields r !! "gid" = Some (VInt z))
  ∧ (∃ z, fields r !! "sid" = Some (VInt z) ∧ z ≠ 0)
  ∧ (∃ z, fields r !! "rev" = Some (VInt z))
  ∧ (∃ b, fields r !! "noalert" = Some (VBool b))
  ∧ (∃ s, fields r !! "msg" = Some (VStr s))
  ∧ (∃ s, fields r !! "raw" = Some (VStr s)).
Proof.
  intros (m & d & Hm & Hd & Hf)%parse_Some.
  destruct (parse_matched_sid_msg _ _ _ Hd) as [Hmsg Hsid].
  destruct (finish_sid m d Hmsg Hsid) as [_ Hok].
  destruct (Hok _ Hf) as (z & Hz & Hz0).
  apply parse_matched_stages in Hd as (d0 & P & F).
  assert (T : typed d).
  { apply (parse_options_typed _ _ _ _ P).
    repeat split; rewrite F by notin; unfold Rule_init, fields;
      rewrite ?lookup_insert_ne by done; rewrite lookup_insert_eq; eauto.
    by exists None. }
  destruct T as (Tg & Tr & Ts & Tn & Tm & _).
  pose proof Hf as Hf'.
  apply finish_fields in Hf as (Ha & Hraw & Hk).
  rewrite Hk in Hz by done.
  split; [done|]. rewrite !Hk by done.
  repeat split; eauto.
  unfold finish, getitem in Hf'. destruct Tm as [Tm|[s Tm]]; rewrite Tm in Hf';
    simpl in Hf'.
  - rewrite lookup_insert_ne in Hf' by done.
    destruct (d !! "sid") as [sid|]; simpl in Hf'; [|done].
    destruct (negb (truthy sid)); [done|]. simplify_eq. simpl.
    rewrite lookup_insert_ne by done. rewrite lookup_insert_eq. eauto.
  - destruct (d !! "sid") as [sid|]; simpl in Hf'; [|done].
    destruct (negb (truthy sid)); [done|]. simplify_eq. simpl.
    rewrite lookup_insert_ne by done. eauto.
Qed.

End Typed.

(** * Parsed rules, as the rest of the program reads them *)

Section ParsedRules.

Lemma getattr_fields r k :
  attrs r = ∅ → getattr r k = getitem (fields r) k.
Proof. unfold getattr. intros ->. by rewrite lookup_empty. Qed.

Lemma parse_has buf group r k :
  parse buf group = Ok (Some r) →
  k ∈ ["enabled"; "references"; "classtype"; "priority"; "flowbits"; "group"] →
  is_Some (fields r !! k).
Proof.
  intros (m & d & Hm & Hd & Hf)%parse_Some Hk.
  apply parse_matched_stages in Hd as (d0 & P & F).
  apply finish_fields in Hf as (_ & _ & Hr).
  repeat (apply elem_of_cons in Hk as [->|Hk]); try (by apply elem_of_nil in Hk);
    rewrite Hr by done; apply (parse_options_is_Some _ _ _ _ _ P);
    rewrite F by notin; unfold Rule_init, fields;
    rewrite ?lookup_insert_ne by done; rewrite lookup_insert_eq; eauto.
Qed.

Lemma any_id_ints r g s ids :
  getattr r "gid" = Ok (VInt g) →
  getattr r "sid" = Ok (VInt s) →
  any_id r ids = Ok (bool_decide ((g, s) ∈ ids)).
Proof.
  intros Hg Hs. induction ids as [|[a b] ids IH].
  - done.
  - cbn [any_id]. rewrite Hg. unfold mbind, outcome_bind. cbn [value_eqb].
    destruct (Z.eqb_spec a g) as [->|Ha].
    + rewrite Hs. cbn [value_eqb]. destruct (Z.eqb_spec b s) as [->|Hb].
      * by rewrite bool_decide_eq_true_2 by apply list_elem_of_here.
      * rewrite IH. f_equal. apply bool_decide_ext. rewrite elem_of_cons.
        split; [by right|]. intros [[=]|]; [congruence|done].
    + rewrite IH. f_equal. apply bool_decide_ext. rewrite elem_of_cons.
      split; [by right|]. intros [[=]|]; [congruence|done].
Qed.

(** X9: A parsed rule has an identifier, the pair of its [gid] and its [sid],
    the [sid] not zero; and a matcher by identifiers matches it exactly when
    the pair is one of the pairs that the matcher holds. *)
Theorem id_matcher_membership fnmatch basename splitext_root buf group r :
  parse buf group = Ok (Some r) →
  ∃ gid sid, Rule_id r = Ok (gid, sid) ∧ sid ≠ 0
    ∧ ∀ ids, matcher_match fnmatch basename splitext_root (IdRuleMatcher ids) r
             = Ok (bool_decide ((gid, sid) ∈ ids)).
Proof.
  intros (Ha & [g Hg] & (s & Hs & Hs0) & _)%parse_typed.
  assert (Gg : getattr r "gid" = Ok (VInt g)).
  { rewrite getattr_fields by done. unfold getitem. by rewrite Hg. }
  assert (Gs : getattr r "sid" = Ok (VInt s)).
  { rewrite getattr_fields by done. unfold getitem. by rewrite Hs. }
  exists g, s. split; [|split; [done|]].
  - unfold Rule_id. by rewrite Gg, Gs.
  - intros ids. by apply any_id_ints.
Qed.

Lemma id_matcher_membership_witness :
  ∃ gid sid,
    Rule_id (parsed "alert tcp any any -> any any (msg:x; gid:3; sid:7;)" VNone)
    = Ok (gid, sid) ∧ sid ≠ 0
    ∧ ∀ ids, matcher_match String.eqb id id (IdRuleMatcher ids)
               (parsed "alert tcp any any -> any any (msg:x; gid:3; sid:7;)" VNone)
             = Ok (bool_decide ((gid, sid) ∈ ids)).
Proof.
  apply (id_matcher_membership String.eqb id id
           "alert tcp any any -> any any (msg:x; gid:3; sid:7;)" VNone).
  reflexivity.
Defined.

Lemma format_parsed_shape buf group r :
  parse buf group = Ok (Some r) →
  ∃ r' e raw, format r = (r', Ok ((if truthy e then "" else "# ") +:+ raw))
    ∧ fields r' = fields r
    ∧ fields r !! "enabled" = Some e
    ∧ getattr r' "raw" = Ok (VStr raw)
    ∧ ∀ k, k ≠ "raw" → getattr r' k = getattr r k.
Proof.
  intros H. destruct (parse_has _ _ _ "enabled" H) as [e He].
  { repeat first [apply list_elem_of_here | apply list_elem_of_further]. }
  apply parse_typed in H
    as (Ha & _ & _ & _ & [b Hb] & _ & [raw Hraw]).
  assert (Gn : getattr r "noalert" = Ok (VBool b)).
  { rewrite getattr_fields by done. unfold getitem. by rewrite Hb. }
  assert (Gr : getattr r "raw" = Ok (VStr raw)).
  { rewrite getattr_fields by done. unfold getitem. by rewrite Hraw. }
  assert (Ge : getattr r "enabled" = Ok e).
  { rewrite getattr_fields by done. unfold getitem. by rewrite He. }
  unfold format. rewrite Gn. unfold mbind, outcome_bind. cbn [truthy].
  destruct b.
  - rewrite Gr. destruct (contains "noalert;" raw).
    + exists r, e, raw. by rewrite Ge, Gr.
    + exists (setattr r "raw" (VStr (inject_noalert 0 raw))), e,
        (inject_noalert 0 raw).
      unfold getattr, setattr. cbn [attrs fields].
      rewrite lookup_insert_ne by done. rewrite lookup_insert_eq.
      rewrite Ha, lookup_empty. unfold getitem. rewrite He.
      repeat split; try done. intros k Hk. by rewrite lookup_insert_ne.
  - exists r, e, raw. by rewrite Ge, Gr.
Qed.

(** X10: [format] never raises on a parsed rule; it leaves the entries of the
    rule as they are (it may assign the attribute [raw]), and the text is
    the [raw] of the rule after the call, after the comment mark when the
    rule is disabled. *)
Theorem format_parsed buf group r :
  parse buf group = Ok (Some r) →
  ∃ r' e raw, format r = (r', Ok ((if truthy e then "" else "# ") +:+ raw))
    ∧ fields r' = fields r
    ∧ fields r !! "enabled" = Some e
    ∧ getattr r' "raw" = Ok (VStr raw).
Proof.
  intros (r' & e & raw & H1 & H2 & H3 & H4 & _)%format_parsed_shape.
  by exists r', e, raw.
Qed.

Lemma format_parsed_witness :
  ∃ r' e raw,
    format (parsed "# alert tcp any any -> any any (msg:x; noalert; sid:7;)" VNone)
    = (r', Ok ((if truthy e then "" else "# ") +:+ raw))
    ∧ fields r'
      = fields (parsed "# alert tcp any any -> any any (msg:x; noalert; sid:7;)"
                  VNone)
    ∧ fields (parsed "# alert tcp any any -> any any (msg:x; noalert; sid:7;)"
                VNone) !! "enabled" = Some e
    ∧ getattr r' "raw" = Ok (VStr raw).
Proof.
  apply (format_parsed "# alert tcp any any -> any any (msg:x; noalert; sid:7;)"
           VNone).
  reflexivity.
Defined.

End ParsedRules.

(** * Reading the lines of a file *)

Section FileObj.

Implicit Types (lines : list string) (rules : list Rule)
  (log : list (string * exn)).

(** The rules and the errors collected so far are only added to. *)
Lemma parse_fileobj_loop_acc group lines buf rules log :
  parse_fileobj_loop group lines buf rules log
  = (rules ++ (parse_fileobj_loop group lines buf [] []).1,
     log ++ (parse_fileobj_loop group lines buf [] []).2).
Proof.
  revert buf rules log. induction lines as [|line lines IH]; intros buf rules log.
  - simpl. by rewrite !app_nil_r.
  - cbn [parse_fileobj_loop]. destruct (endswith (rstrip line) "\"); [apply IH|].
    destruct (parse (buf +:+ line) group) as [[rule|]|err].
    + destruct (rule_truthy rule); [|apply IH].
      rewrite IH. rewrite (IH _ ([] ++ [rule]) []). cbn [fst snd app].
      by rewrite <- app_assoc.
    + apply IH.
    + rewrite IH. rewrite (IH _ [] ([] ++ [_])). cbn [fst snd app].
      by rewrite <- app_assoc.
Qed.

Lemma parse_fileobj_loop_app group l1 l2 buf rules log :
  (∃ line, last l1 = Some line ∧ endswith (rstrip line) "\" = false) →
  parse_fileobj_loop group (l1 ++ l2) buf rules log
  = parse_fileobj_loop group l2 ""
      (parse_fileobj_loop group l1 buf rules log).1
      (parse_fileobj_loop group l1 buf rules log).2.
Proof.
  revert buf rules log. induction l1 as [|line l1 IH]; intros buf rules log.
  - by intros (? & [=] & _).
  - intros (l & Hl & Hc). destruct l1 as [|line' l1].
    + simpl in Hl. simplify_eq. cbn [app parse_fileobj_loop]. rewrite Hc.
      destruct (parse (buf +:+ l) group) as [[rule|]|err]; try done.
      by destruct (rule_truthy rule).
    + assert (Hl' : ∃ l0, last (line' :: l1) = Some l0
                          ∧ endswith (rstrip l0) "\" = false) by eauto.
      change ((line :: line' :: l1) ++ l2) with (line :: (line' :: l1) ++ l2).
      cbn [parse_fileobj_loop].
      destruct (endswith (rstrip line) "\"); [by apply IH|].
      destruct (parse (buf +:+ line) group) as [[rule|]|err];
        [destruct (rule_truthy rule)| |]; by apply IH.
Qed.

(** X11: Reading two runs of lines one after the other gives the rules of the
    first run and then the rules of the second, and the same for the
    errors logged, when the first run does not end on a line that a
    backslash continues. *)
Theorem parse_fileobj_app group l1 l2 line :
  last l1 = Some line →
  endswith (rstrip line) "\" = false →
  parse_fileobj (l1 ++ l2) group
  = ((parse_fileobj l1 group).1 ++ (parse_fileobj l2 group).1,
     (parse_fileobj l1 group).2 ++ (parse_fileobj l2 group).2).
Proof.
  intros Hl Hc. unfold parse_fileobj.
  rewrite parse_fileobj_loop_app by eauto.
  apply parse_fileobj_loop_acc.
Qed.

Lemma parse_fileobj_app_witness :
  parse_fileobj
    (["alert tcp any any -> any any (msg:x; sid:1;)"]
     ++ ["alert tcp any any -> any any (msg:y; sid:2;)"]) VNone
  = ((parse_fileobj ["alert tcp any any -> any any (msg:x; sid:1;)"] VNone).1
     ++ (parse_fileobj ["alert tcp any any -> any any (msg:y; sid:2;)"] VNone).1,
     (parse_fileobj ["alert tcp any any -> any any (msg:x; sid:1;)"] VNone).2
     ++ (parse_fileobj ["alert tcp any any -> any any (msg:y; sid:2;)"] VNone).2).
Proof.
  apply (parse_fileobj_app VNone _ _
           "alert tcp any any -> any any (msg:x; sid:1;)"); reflexivity.
Defined.

Lemma parse_fileobj_loop_trailing group lines line buf rules log :
  endswith (rstrip line) "\" = true →
  parse_fileobj_loop group (lines ++ [line]) buf rules log
  = parse_fileobj_loop group lines buf rules log.
Proof.
  intros Hc. revert buf rules log.
  induction lines as [|l lines IH]; intros buf rules log.
  - cbn [app parse_fileobj_loop]. by rewrite Hc.
  - change ((l :: lines) ++ [line]) with (l :: lines ++ [line]).
    cbn [parse_fileobj_loop]. destruct (endswith (rstrip l) "\"); [apply IH|].
    destruct (parse (buf +:+ l) group) as [[rule|]|err];
      [destruct (rule_truthy rule)| |]; apply IH.
Qed.

(** X12: A last line that ends on a backslash is dropped, with all the lines
    that it continues: nothing is parsed from it and nothing is logged. *)
Theorem parse_fileobj_trailing_continuation group lines line :
  endswith (rstrip line) "\" = true →
  parse_fileobj (lines ++ [line]) group = parse_fileobj lines group.
Proof. intros Hc. by apply parse_fileobj_loop_trailing. Qed.

Lemma parse_fileobj_trailing_continuation_witness :
  parse_fileobj
    (["alert tcp any any -> any any (msg:x; sid:1;)"]
     ++ ["alert tcp any any -> any any (msg:y; sid:2;) \"]) VNone
  = parse_fileobj ["alert tcp any any -> any any (msg:x; sid:1;)"] VNone.
Proof.
  apply (parse_fileobj_trailing_continuation VNone); reflexivity.
Defined.

(** X13: A line on which [parse] raises does not stop the reading: the text
    and the exception are logged and the lines after it are read as if
    the file began there. *)
Theorem parse_fileobj_logs_and_goes_on group line lines err :
  endswith (rstrip line) "\" = false →
  parse line group = Raise err →
  parse_fileobj (line :: lines) group
  = ((parse_fileobj lines group).1,
     (rstrip line, err) :: (parse_fileobj lines group).2).
Proof.
  intros Hc Hp. unfold parse_fileobj. cbn [parse_fileobj_loop]. rewrite Hc.
  change ("" +:+ line) with line. rewrite Hp.
  by rewrite parse_fileobj_loop_acc.
Qed.

Lemma parse_fileobj_logs_and_goes_on_witness :
  parse_fileobj
    ["alert tcp any any -> any any (msg:x;)";
     "alert tcp any any -> any any (msg:y; sid:2;)"] VNone
  = ((parse_fileobj ["alert tcp any any -> any any (msg:y; sid:2;)"] VNone).1,
     (rstrip "alert tcp any any -> any any (msg:x;)", BadSidError)
     :: (parse_fileobj ["alert tcp any any -> any any (msg:y; sid:2;)"] VNone).2).
Proof.
  apply (parse_fileobj_logs_and_goes_on VNone); reflexivity.
Defined.

End FileObj.

(** * Entries of the map of identifiers and messages *)

Section MapEntries.

Lemma parse_fields_typed buf group r :
  parse buf group = Ok (Some r) → typed (fields r).
Proof.
  intros H.
  destruct (parse_typed _ _ _ H) as (_ & Hg & (z & Hz & _) & Hv & Hn & Hm & _).
  apply parse_Some in H as (m & d & Hm' & Hd & Hf).
  apply parse_matched_stages in Hd as (d0 & P & F).
  assert (T : typed d).
  { apply (parse_options_typed _ _ _ _ P).
    repeat split; rewrite F by notin; unfold Rule_init, fields;
      rewrite ?lookup_insert_ne by done; rewrite lookup_insert_eq; eauto.
    by exists None. }
  destruct T as (_ & _ & _ & _ & _ & Tc & Tp & Tf).
  apply finish_fields in Hf as (_ & _ & Hk).
  split; [done|]. split; [done|]. split; [eauto|]. split; [done|].
  split; [destruct Hm; eauto|]. by rewrite !Hk by done.
Qed.

Lemma join_texts sep items :
  forallb is_text items = true → ∃ t, join sep items = Ok t.
Proof.
  induction items as [|v items IH]; [by eexists|].
  cbn [forallb]. intros [Hv Hi]%andb_true_iff.
  destruct v; try done. destruct (IH Hi) as [t Ht].
  cbn [join]. destruct items; [by eexists|]. rewrite Ht. by eexists.
Qed.

Lemma join_not_texts sep items :
  forallb is_text items = false → join sep items = Raise TypeError.
Proof.
  induction items as [|v items IH]; [done|].
  cbn [forallb]. intros [Hv|Hi]%andb_false_iff.
  - by destruct v.
  - destruct v; try done. cbn [join]. destruct items; [done|].
    by rewrite (IH Hi).
Qed.

Lemma forallb_row pre l :
  forallb is_text pre = true →
  forallb is_text (pre ++ map of_opt l)
  = forallb (fun o => is_text (of_opt o)) l.
Proof.
  intros Hp. rewrite forallb_app, Hp. cbn [andb].
  induction l as [|o l IH]; [done|]. cbn [map forallb]. by rewrite IH.
Qed.

(** What [list_add] and [join] make of a row whose first items are
    texts: a text when the references are a list of texts, else a type
    error. *)
Lemma row_spec pre refs :
  forallb is_text pre = true →
  (texts refs = true
   → ∃ t, (items ← list_add pre refs; join " || " items) = Ok t)
  ∧ (texts refs = false
     → (items ← list_add pre refs; join " || " items) = Raise TypeError).
Proof.
  intros Hp. unfold mbind, outcome_bind.
  destruct refs as [| | | |l]; cbn [list_add texts]; try (split; done).
  rewrite <- (forallb_row pre l Hp). split.
  - apply join_texts.
  - apply join_not_texts.
Qed.

(** X14: For a parsed rule [format_sidmsgmap] never raises.  It returns a row
    when the entry [references] of the rule is a list of texts; when an
    option has replaced the list or a reference has no value it returns
    [None] and logs the rule as [format] prints it. *)
Theorem format_sidmsgmap_parsed buf group r refs :
  parse buf group = Ok (Some r) →
  fields r !! "references" = Some refs →
  if texts refs
  then ∃ row, format_sidmsgmap r = (r, Ok (Some row, []))
  else ∃ r' text, format r = (r', Ok text)
         ∧ format_sidmsgmap r
           = (r', Ok (None, ["Failed to format rule as sid-msg.map: " +:+ text])).
Proof.
  intros H Hrefs.
  destruct (format_parsed_shape _ _ _ H) as (r' & e & raw & Hfmt & _).
  destruct (parse_typed _ _ _ H)
    as (Ha & _ & (s & Hs & _) & _ & _ & [m Hm] & _).
  unfold format_sidmsgmap, guarded, sidmsgmap_row.
  rewrite !getattr_fields by done. unfold getitem. rewrite Hs, Hm, Hrefs.
  destruct (row_spec [VStr (str_of_int s); VStr m] refs eq_refl) as [Hy Hn].
  unfold mbind, outcome_bind in *. cbn beta iota in *. cbn [str_of_value].
  destruct (texts refs).
  - destruct (Hy eq_refl) as [t Ht]. rewrite Ht. by exists t.
  - rewrite (Hn eq_refl). rewrite Hfmt. by eexists r', _.
Qed.

Lemma format_sidmsgmap_parsed_witness :
  if texts (VList [None])
  then ∃ row,
      format_sidmsgmap
        (parsed "alert tcp any any -> any any (msg:x; reference; sid:7;)" VNone)
      = (parsed "alert tcp any any -> any any (msg:x; reference; sid:7;)" VNone,
         Ok (Some row, []))
  else ∃ r' text,
      format
        (parsed "alert tcp any any -> any any (msg:x; reference; sid:7;)" VNone)
      = (r', Ok text)
      ∧ format_sidmsgmap
          (parsed "alert tcp any any -> any any (msg:x; reference; sid:7;)" VNone)
        = (r', Ok (None, ["Failed to format rule as sid-msg.map: " +:+ text])).
Proof.
  apply (format_sidmsgmap_parsed
           "alert tcp any any -> any any (msg:x; reference; sid:7;)" VNone);
    reflexivity.
Defined.

(** X15: The same for [format_sidmsgmap_v2]; an option [classtype] or
    [priority], with or without a value, never makes it fail. *)
Theorem format_sidmsgmap_v2_parsed buf group r refs :
  parse buf group = Ok (Some r) →
  fields r !! "references" = Some refs →
  if texts refs
  then ∃ row, format_sidmsgmap_v2 r = (r, Ok (Some row, []))
  else ∃ r' text, format r = (r', Ok text)
         ∧ format_sidmsgmap_v2 r
           = (r', Ok (None,
                      ["Failed to format rule as sid-msg-v2.map: " +:+ text])).
Proof.
  intros H Hrefs.
  destruct (format_parsed_shape _ _ _ H) as (r' & e & raw & Hfmt & _).
  destruct (parse_typed _ _ _ H)
    as (Ha & [g Hg] & (s & Hs & _) & [v Hv] & _ & [m Hm] & _).
  destruct (parse_fields_typed _ _ _ H)
    as (_ & _ & _ & _ & _ & [c Hc] & Hp & _).
  unfold format_sidmsgmap_v2, guarded, sidmsgmap_v2_row.
  rewrite !getattr_fields by done. unfold getitem.
  rewrite Hg, Hs, Hv, Hm, Hc, Hrefs.
  assert (∃ p ptext, fields r !! "priority" = Some p
                     ∧ str_of_value p = Ok ptext) as (p & ptext & Hp1 & Hp2).
  { destruct Hp as [Hp|[[o|] Hp]]; rewrite Hp; by eauto. }
  rewrite Hp1.
  assert (Hpre : forallb is_text
            [VStr (str_of_int g); VStr (str_of_int s); VStr (str_of_int v);
             match of_opt c with VNone => VStr "NOCLASS" | _ => of_opt c end;
             VStr ptext; VStr m] = true).
  { by destruct c. }
  destruct (row_spec _ refs Hpre) as [Hy Hn].
  unfold mbind, outcome_bind in *. cbn beta iota in *. cbn [str_of_value].
  rewrite Hp2.
  destruct (texts refs).
  - destruct (Hy eq_refl) as [t Ht]. rewrite Ht. by exists t.
  - rewrite (Hn eq_refl). rewrite Hfmt. by eexists r', _.
Qed.

Lemma format_sidmsgmap_v2_parsed_witness :
  if texts (VList [Some "url,example.com"])
  then ∃ row,
      format_sidmsgmap_v2
        (parsed "alert tcp any any -> any any (msg:x; reference:url,example.com; priority; sid:7;)" VNone)
      = (parsed "alert tcp any any -> any any (msg:x; reference:url,example.com; priority; sid:7;)" VNone,
         Ok (Some row, []))
  else ∃ r' text,
      format
        (parsed "alert tcp any any -> any any (msg:x; reference:url,example.com; priority; sid:7;)" VNone)
      = (r', Ok text)
      ∧ format_sidmsgmap_v2
          (parsed "alert tcp any any -> any any (msg:x; reference:url,example.com; priority; sid:7;)" VNone)
        = (r', Ok (None,
                   ["Failed to format rule as sid-msg-v2.map: " +:+ text])).
Proof.
  apply (format_sidmsgmap_v2_parsed
           "alert tcp any any -> any any (msg:x; reference:url,example.com; priority; sid:7;)"
           VNone);
    reflexivity.
Defined.

End MapEntries.

(** * Match expressions *)

Section MatchExpressions.

Variable re_compile : string → option (string → bool).

Lemma rstrip_cons c s :
  isspace c = false → rstrip (String c s) = String c (rstrip s).
Proof. intros H. cbn [rstrip]. destruct (rstrip s); by rewrite ?H. Qed.

Lemma strip_cons c s :
  isspace c = false → strip (String c s) = String c (rstrip s).
Proof.
  intros H. unfold strip. rewrite rstrip_cons by done.
  by apply lstrip_not_space.
Qed.

(** The first part of a split text starts with what was read so far. *)
Lemma split_aux_head sep acc s :
  ∃ q rest, split_aux sep acc s = (rev_string "" acc +:+ q) :: rest.
Proof.
  revert acc. induction s as [|c s IH]; intros acc; cbn [split_aux].
  - exists "", []. by rewrite append_nil_r.
  - destruct (ascii_eqb c sep).
    + exists "", (split_aux sep "" s). by rewrite append_nil_r.
    + destruct (IH (String c acc)) as (q & rest & ->).
      exists (String c q), rest. by rewrite rev_string_cons.
Qed.

(** An entry whose first part is not a number makes the whole list of
    identifiers fail. *)
Lemma parse_ids_not_int entry entries ids p0 parts :
  split1 ":"%char (strip entry) = p0 :: parts →
  int_of_text p0 = Raise ValueError →
  parse_ids (entry :: entries) ids = None.
Proof.
  intros Hs Hi. cbn [parse_ids]. rewrite Hs.
  destruct parts as [|p1 [|p2 parts]]; by rewrite ?Hi.
Qed.

(** X16: An expression that starts with [re:] is a regular expression when
    the text after the colon, stripped, compiles.  When it does not
    compile the expression is tried as a group, and an expression that
    ends in [.rules] then becomes a group matcher. *)
Theorem parse_rule_match_re p :
  parse_rule_match re_compile ("re:" +:+ p)
  = match re_compile (strip p) with
    | Some search => Some (ReRuleMatcher search)
    | None =>
        if endswith ("re:" +:+ p) ".rules"
        then Some (GroupMatcher (strip ("re:" +:+ p)))
        else None
    end.
Proof.
  change ("re:" +:+ p) with (String "r" (String "e" (String ":" p))).
  unfold parse_rule_match.
  assert (A : AllRuleMatcher_parse (String "r" (String "e" (String ":" p)))
              = None).
  { unfold AllRuleMatcher_parse. by rewrite strip_cons. }
  assert (I : IdRuleMatcher_parse (String "r" (String "e" (String ":" p)))
              = None).
  { unfold IdRuleMatcher_parse, split. cbn [split_aux ascii_eqb Ascii.eqb Bool.eqb].
    destruct (split_aux_head ","%char (String ":" (String "e" (String "r" ""))) p)
      as (q & rest & ->).
    change (rev_string "" _ +:+ q) with (String "r" (String "e" (String ":" q))).
    rewrite (parse_ids_not_int _ _ _ "re" [rstrip q]);
      [done| |done].
    rewrite strip_cons by done. rewrite !rstrip_cons by done.
    reflexivity. }
  rewrite A, I.
  unfold ReRuleMatcher_parse, FilenameMatcher_parse, GroupMatcher_parse.
  assert (startswith (String "r" (String "e" (String ":" p))) "re:" = true)
    as -> by (unfold startswith; cbn; by destruct p).
  change (startswith (String "r" (String "e" (String ":" p))) "filename:")
    with false.
  change (startswith (String "r" (String "e" (String ":" p))) "group:")
    with false.
  change (after_colon (String "r" (String "e" (String ":" p)))) with (Some p).
  cbn [mbind option_bind fmap option_fmap option_map].
  by destruct (re_compile (strip p)).
Qed.

(** X17: An expression that starts with [filename:] or with [group:] gives
    the matcher of that class, on the pattern after the colon, stripped:
    the parsers tried before decline it whatever the pattern is. *)
Theorem parse_rule_match_prefixed p :
  parse_rule_match re_compile ("filename:" +:+ p)
  = Some (FilenameMatcher (strip p))
  ∧ parse_rule_match re_compile ("group:" +:+ p)
    = Some (GroupMatcher (strip p)).
Proof.
  split.
  - change ("filename:" +:+ p) with
      (String "f" (String "i" (String "l" (String "e" (String "n" (String "a"
        (String "m" (String "e" (String ":" p))))))))).
    set (buf := String "f" _).
    unfold parse_rule_match.
    assert (A : AllRuleMatcher_parse buf = None).
    { unfold AllRuleMatcher_parse, buf. by rewrite strip_cons. }
    assert (I : IdRuleMatcher_parse buf = None).
    { unfold IdRuleMatcher_parse, split, buf.
      cbn [split_aux ascii_eqb Ascii.eqb Bool.eqb].
      match goal with
      | |- context [split_aux ?c ?acc p] =>
          destruct (split_aux_head c acc p) as (q & rest & ->)
      end.
      change (rev_string "" _ +:+ q) with
        (String "f" (String "i" (String "l" (String "e" (String "n" (String "a"
          (String "m" (String "e" (String ":" q))))))))).
      rewrite (parse_ids_not_int _ _ _ "filename" [rstrip q]); [done| |done].
      rewrite strip_cons by done. rewrite !rstrip_cons by done.
      reflexivity. }
    rewrite A, I.
    unfold ReRuleMatcher_parse, FilenameMatcher_parse.
    change (startswith buf "re:") with false.
    assert (startswith buf "filename:" = true)
      as -> by (unfold startswith; cbn; by destruct p).
    by change (after_colon buf) with (Some p).
  - change ("group:" +:+ p) with
      (String "g" (String "r" (String "o" (String "u" (String "p"
        (String ":" p)))))).
    set (buf := String "g" _).
    unfold parse_rule_match.
    assert (A : AllRuleMatcher_parse buf = None).
    { unfold AllRuleMatcher_parse, buf. by rewrite strip_cons. }
    assert (I : IdRuleMatcher_parse buf = None).
    { unfold IdRuleMatcher_parse, split, buf.
      cbn [split_aux ascii_eqb Ascii.eqb Bool.eqb].
      match goal with
      | |- context [split_aux ?c ?acc p] =>
          destruct (split_aux_head c acc p) as (q & rest & ->)
      end.
      change (rev_string "" _ +:+ q) with
        (String "g" (String "r" (String "o" (String "u" (String "p"
          (String ":" q)))))).
      rewrite (parse_ids_not_int _ _ _ "group" [rstrip q]); [done| |done].
      rewrite strip_cons by done. rewrite !rstrip_cons by done.
      reflexivity. }
    rewrite A, I.
    unfold ReRuleMatcher_parse, FilenameMatcher_parse, GroupMatcher_parse.
    change (startswith buf "re:") with false.
    change (startswith buf "filename:") with false.
    assert (startswith buf "group:" = true)
      as -> by (unfold startswith; cbn; by destruct p).
    by change (after_colon buf) with (Some p).
Qed.

Lemma parse_ids_length entries ids0 ids :
  parse_ids entries ids0 = Some ids →
  length ids = (length ids0 + length entries)%nat.
Proof.
  revert ids0. induction entries as [|entry entries IH]; intros ids0.
  - cbn [parse_ids]. intros [= <-]. cbn [length]. lia.
  - cbn [parse_ids]. intros H.
    destruct (split1 ":"%char (strip entry)) as [|p0 [|p1 [|p2 parts]]];
      try done.
    + destruct (int_of_text p0); [|done]. apply IH in H.
      rewrite H, length_app. cbn [length]. lia.
    + destruct (int_of_text p0); [|done]. destruct (int_of_text p1); [|done].
      apply IH in H. rewrite H, length_app. cbn [length]. lia.
Qed.

(** X18: A matcher by identifiers that comes from an expression holds one
    identifier for each part that the commas separate, so at least one. *)
Theorem id_matcher_parse_count buf m :
  IdRuleMatcher_parse buf = Some m →
  ∃ ids, m = IdRuleMatcher ids
         ∧ length ids = length (split ","%char buf) ∧ ids ≠ [].
Proof.
  unfold IdRuleMatcher_parse. intros H.
  destruct (parse_ids (split ","%char buf) []) as [ids|] eqn:E; [|done].
  cbn [fmap option_fmap option_map] in H. simplify_eq.
  apply parse_ids_length in E. exists ids. split; [done|]. split; [done|].
  unfold split in *. destruct (split_aux_head ","%char "" buf) as (q & rest & Hs).
  rewrite Hs in E. by destruct ids.
Qed.

End MatchExpressions.

Lemma id_matcher_parse_count_witness :
  ∃ ids, IdRuleMatcher [(1, 2); (1, 3)] = IdRuleMatcher ids
         ∧ length ids = length (split ","%char "1:2, 3") ∧ ids ≠ [].
Proof. apply (id_matcher_parse_count "1:2, 3"). reflexivity. Defined.

(** * The rules that a pass would enable *)

Section RequiredRules.

Implicit Types (h : list Rule) (req : gset (option string)).

Lemma required_of_disabled req r a items h acc h' out e :
  getattr r "enabled" = Ok e → truthy e = false →
  enable_matching req a items h acc = (h', Ok out) →
  ∃ new, out = acc ++ new ∧ h' = foldl enable h new
         ∧ required_of req false r a items = Ok new.
Proof.
  intros He Ht. revert h acc.
  induction items as [|fb items IH]; intros h acc;
    cbn [enable_matching required_of].
  - intros [= <- <-]. exists []. by rewrite app_nil_r.
  - destruct (parse_flowbit fb) as [[option value]|]; [|done].
    unfold mbind, outcome_bind. cbv beta iota.
    destruct (bool_decide (option ∈ setters) && bool_decide (value ∈ req)).
    + intros (new & -> & -> & Hr)%IH. exists (a :: new).
      rewrite <- app_assoc. split; [done|]. split; [done|].
      rewrite He. cbv beta iota. rewrite Ht. cbn [negb orb].
      fold (required_of req false r a items). by rewrite Hr.
    + intros (new & -> & -> & Hr)%IH. exists new.
      split; [done|]. split; [done|].
      fold (required_of req false r a items). by rewrite Hr.
Qed.

Lemma required_of_enabled req r a items e mine :
  getattr r "enabled" = Ok e → truthy e = true →
  required_of req false r a items = Ok mine → mine = [].
Proof.
  intros He Ht. revert mine.
  induction items as [|fb items IH]; intros mine; cbn [required_of].
  - by intros [= <-].
  - destruct (parse_flowbit fb) as [[option value]|]; [|done].
    unfold mbind, outcome_bind. cbv beta iota.
    fold (required_of req false r a items).
    destruct (required_of req false r a items) as [rest|]; cycle 1.
    { destruct (_ && _); [rewrite He|]; done. }
    rewrite (IH rest eq_refl).
    destruct (_ && _); [rewrite He; cbv beta iota; rewrite Ht|];
      by intros [= <-].
Qed.

Lemma get_required_rules_loop_agrees req h0 vs rs done acc h' out got :
  all_truthy h0 vs = true →
  select (is_disabled h0) vs = Ok rs →
  set_required_loop req rs (foldl enable h0 done) acc = (h', Ok out) →
  get_required_rules_loop h0 req false vs = Ok got →
  out = acc ++ got.
Proof.
  revert rs done acc got.
  induction vs as [|[a|] vs IH]; intros rs done acc got.
  - intros _ [= <-] [= <- <-] [= <-]. by rewrite app_nil_r.
  - cbn [all_truthy forallb]. intros [Ta Tv]%andb_true_iff.
    cbn [select get_required_rules_loop]. unfold is_disabled, deref.
    destruct (h0 !! a) as [r|] eqn:E0; [|done].
    unfold mbind, outcome_bind. cbv beta iota. rewrite Ta.
    destruct (getattr r "enabled") as [e|] eqn:He; [|done].
    destruct (select _ vs) as [rs'|] eqn:Es; [|done].
    intros [= <-].
    destruct (flowbits_of r) as [items|] eqn:Ei; [|done].
    destruct (required_of req false r a items) as [mine|] eqn:Em; [|done].
    destruct (get_required_rules_loop h0 req false vs) as [rest|] eqn:Eg;
      [|done].
    intros Hset [= <-]. revert Hset.
    destruct (truthy e) eqn:Ht; cbn [negb].
    + rewrite (required_of_enabled _ _ _ _ _ _ He Ht Em). cbn [app].
      intros Hset. by apply (IH _ _ _ _ Tv eq_refl Hset).
    + cbn [set_required_loop]. unfold deref.
      rewrite enabled_lookup, E0. cbn [fmap option_fmap option_map].
      unfold mbind, outcome_bind. cbv beta iota.
      assert (flowbits_of
                ((if decide (a ∈ done) then set_enabled else id) r) = Ok items)
        as ->.
      { case_decide; [by rewrite set_enabled_flowbits|done]. }
      destruct (enable_matching req a items (foldl enable h0 done) acc)
        as [h1 [out1|]] eqn:Ee; [|done].
      destruct (required_of_disabled _ _ _ _ _ _ _ _ _ He Ht Ee)
        as (new & -> & -> & Hr).
      rewrite Hr in Em. simplify_eq. rewrite <- foldl_app.
      intros Hset. rewrite app_assoc.
      by apply (IH _ _ _ _ Tv eq_refl Hset).
  - intros _. cbn [select]. by unfold is_disabled.
Qed.

(** X19: What [get_required_rules] lists, without the enabled rules, is what a
    pass of [set_required_flowbits] on the same flowbits enables and
    returns: the same rules, as often and in the same order, when both
    return and no value of the map is an empty dictionary. *)
Theorem get_required_rules_agrees h rules req h' new got :
  all_truthy h (values rules) = true →
  set_required_flowbits h rules req = (h', Ok new) →
  get_required_rules h rules req false = Ok got →
  got = new.
Proof.
  unfold set_required_flowbits, get_required_rules. intros T.
  destruct (select (is_disabled h) (values rules)) as [rs|] eqn:Es; [|done].
  intros Hs Hg.
  by rewrite (get_required_rules_loop_agrees req h (values rules) rs [] []
                h' new got T Es Hs Hg).
Qed.

Lemma get_required_rules_agrees_witness :
  set_required_flowbits example_heap example_rules {[Some "foo"]}
  = (enable example_heap 0, Ok [0%nat])
  ∧ get_required_rules example_heap example_rules {[Some "foo"]} false
    = Ok [0%nat]
  ∧ [0%nat] = [0%nat].
Proof.
  split; [reflexivity|]. split; [reflexivity|].
  apply (get_required_rules_agrees example_heap example_rules
           {[Some "foo"]} (enable example_heap 0)); reflexivity.
Defined.

End RequiredRules.

(** * The names of variables in a text *)

Section VarNames.

Lemma span_forall p s a b : span p s = (a, b) → string_forall p a = true.
Proof.
  revert a b. induction s as [|c s IH]; intros a b; cbn [span].
  - by intros [= <- _].
  - destruct (p c) eqn:E; [|by intros [= <- _]].
    destruct (span p s) as [a' b'] eqn:Es. intros [= <- _].
    cbn [string_forall]. rewrite E. cbn [andb]. apply (IH a' b').
    first [exact Es | reflexivity].
Qed.

Lemma find_var_names_sound skip s name :
  name ∈ find_var_names skip s →
  ∃ pre post, s = pre +:+ "$" +:+ name +:+ post
    ∧ name ≠ "" ∧ string_forall isword name = true
    ∧ (post = "" ∨ ∃ c rest, post = String c rest ∧ isword c = false).
Proof.
  revert skip. induction s as [|c s IH]; intros skip; cbn [find_var_names].
  - by intros ?%elem_of_nil.
  - assert (Hnext : ∀ k, name ∈ find_var_names k s →
      ∃ pre post, String c s = pre +:+ "$" +:+ name +:+ post
        ∧ name ≠ "" ∧ string_forall isword name = true
        ∧ (post = "" ∨ ∃ c rest, post = String c rest ∧ isword c = false)).
    { intros k (pre & post & -> & ?)%IH. by exists (String c pre), post. }
    destruct skip as [|k]; [|by apply Hnext].
    destruct (ascii_eqb c "$") eqn:Ec; [|by apply Hnext].
    destruct (span isword s) as [[|d w] rest] eqn:Es; [by apply Hnext|].
    intros [->|Hin]%elem_of_cons; [|by eapply Hnext].
    exists "", rest. split; [|split; [done|split]].
    + apply span_app in Es as ->.
      assert (c = "$"%char) as ->; [|done].
      unfold ascii_eqb in Ec. by apply Ascii.eqb_eq in Ec.
    + by apply span_forall in Es.
    + destruct rest as [|c' rest']; [by left|]. right. exists c', rest'.
      split; [done|]. by apply span_rest_head in Es.
Qed.

(** X20: A name that [parse_var_names] returns stands in the text after a
    dollar sign: it is not empty, it is made of word characters, and what
    follows it in the text does not start with a word character. *)
Theorem parse_var_names_sound var name :
  name ∈ parse_var_names var →
  ∃ s pre post, var = Some s ∧ s = pre +:+ "$" +:+ name +:+ post
    ∧ name ≠ "" ∧ string_forall isword name = true
    ∧ (post = "" ∨ ∃ c rest, post = String c rest ∧ isword c = false).
Proof.
  destruct var as [s|]; cbn [parse_var_names]; [|by intros ?%elem_of_nil].
  intros (pre & post & H)%find_var_names_sound. by exists s, pre, post.
Qed.

Lemma parse_var_names_sound_witness :
  ∃ s pre post, Some "[$HOME_NET,!$DNS]" = Some s
    ∧ s = pre +:+ "$" +:+ "DNS" +:+ post
    ∧ "DNS" ≠ "" ∧ string_forall isword "DNS" = true
    ∧ (post = "" ∨ ∃ c rest, post = String c rest ∧ isword c = false).
Proof.
  apply (parse_var_names_sound (Some "[$HOME_NET,!$DNS]") "DNS").
  change (parse_var_names (Some "[$HOME_NET,!$DNS]")) with ["HOME_NET"; "DNS"].
  apply list_elem_of_further, list_elem_of_here.
Defined.

End VarNames.

(** * Formatting twice *)

Section FormatAgain.

Lemma contains_tail sub c s :
  contains sub s = true → contains sub (String c s) = true.
Proof.
  unfold contains. intros H%Z.leb_le. apply Z.leb_le. cbn [find].
  destruct (String.prefix sub (String c s)); [done|].
  destruct (find sub s <? 0) eqn:E; [apply Z.ltb_lt in E|]; lia.
Qed.

(** The substitution leaves the text as it is or puts the word into it. *)
Lemma inject_noalert_spec skip s :
  inject_noalert skip s = s ∨ contains "noalert;" (inject_noalert skip s) = true.
Proof.
  revert skip. induction s as [|c s IH]; intros skip; cbn [inject_noalert].
  - by left.
  - assert (Hnext : ∀ k, String c (inject_noalert k s) = String c s
               ∨ contains "noalert;" (String c (inject_noalert k s)) = true).
    { intros k. destruct (IH k) as [->|H]; [by left|right].
      by apply contains_tail. }
    destruct skip as [|k]; [|apply Hnext].
    destruct (match_sid (String c s)); [|apply Hnext].
    right. reflexivity.
Qed.

Lemma inject_noalert_again s :
  contains "noalert;" (inject_noalert 0 s) = false →
  inject_noalert 0 (inject_noalert 0 s) = inject_noalert 0 s.
Proof.
  intros Hc. destruct (inject_noalert_spec 0 s) as [H|H]; [|congruence].
  by rewrite !H.
Qed.

(** X21: Formatting a rule again gives the same text and changes nothing
    more: the word that the first call put into [raw] keeps the second
    call from putting it again. *)
Theorem format_idempotent r r1 text :
  format r = (r1, Ok text) → format r1 = (r1, Ok text).
Proof.
  unfold format at 1.
  destruct (getattr r "noalert") as [n|] eqn:Hn;
    unfold mbind at 1, outcome_bind at 1; cbv beta iota; [|done].
  destruct (truthy n) eqn:Tn; cycle 1.
  { intros H. assert (r1 = r) as -> by congruence.
    unfold format. rewrite Hn. unfold mbind at 1, outcome_bind at 1.
    cbv beta iota. by rewrite Tn. }
  destruct (getattr r "raw") as [raw|] eqn:Hr;
    unfold mbind at 1, outcome_bind at 1; cbv beta iota; [|done].
  destruct raw as [| | |s|l]; try done.
  - destruct (contains "noalert;" s) eqn:Hc.
    + intros H. assert (r1 = r) as -> by congruence.
      unfold format. rewrite Hn. unfold mbind at 1, outcome_bind at 1.
      cbv beta iota. rewrite Tn, Hr. unfold mbind at 1, outcome_bind at 1.
      cbv beta iota. by rewrite Hc.
    + set (s' := inject_noalert 0 s). intros H.
      assert (r1 = setattr r "raw" (VStr s')) as E by congruence.
      assert (Hn1 : getattr r1 "noalert" = Ok n).
      { rewrite E. unfold getattr, setattr in *. cbn [attrs fields] in *.
        by rewrite lookup_insert_ne. }
      assert (Hr1 : getattr r1 "raw" = Ok (VStr s')).
      { rewrite E. unfold getattr, setattr. cbn [attrs].
        by rewrite lookup_insert_eq. }
      unfold format. rewrite Hn1. unfold mbind at 1, outcome_bind at 1.
      cbv beta iota. rewrite Tn, Hr1. unfold mbind at 1, outcome_bind at 1.
      cbv beta iota.
      destruct (contains "noalert;" s') eqn:Hc'; [by rewrite <- E in H|].
      unfold s' in Hc' |- *. rewrite (inject_noalert_again s) by done.
      fold s'.
      assert (setattr r1 "raw" (VStr s') = r1) as ->; [|by rewrite <- E in H].
      rewrite E. unfold setattr. cbn [attrs fields].
      by rewrite insert_insert_eq.
  - destruct (existsb _ l); [|done].
    unfold mbind, outcome_bind. cbv beta iota.
    destruct (getattr r "enabled"); [|done]. rewrite Hr. done.
Qed.

Lemma format_idempotent_witness :
  format
    (setattr
       (parsed "alert tcp any any -> any any (msg:x; noalert; sid:7;)" VNone)
       "raw" (VStr "alert tcp any any -> any any (msg:x; sid:7;)"))
  = (setattr
       (parsed "alert tcp any any -> any any (msg:x; noalert; sid:7;)" VNone)
       "raw" (VStr "alert tcp any any -> any any (msg:x; noalert; sid:7;)"),
     Ok "alert tcp any any -> any any (msg:x; noalert; sid:7;)")
  ∧ format
      (setattr
         (parsed "alert tcp any any -> any any (msg:x; noalert; sid:7;)" VNone)
         "raw" (VStr "alert tcp any any -> any any (msg:x; noalert; sid:7;)"))
    = (setattr
         (parsed "alert tcp any any -> any any (msg:x; noalert; sid:7;)" VNone)
         "raw" (VStr "alert tcp any any -> any any (msg:x; noalert; sid:7;)"),
       Ok "alert tcp any any -> any any (msg:x; noalert; sid:7;)").
Proof.
  assert (H : format
    (setattr
       (parsed "alert tcp any any -> any any (msg:x; noalert; sid:7;)" VNone)
       "raw" (VStr "alert tcp any any -> any any (msg:x; sid:7;)"))
  = (setattr
       (parsed "alert tcp any any -> any any (msg:x; noalert; sid:7;)" VNone)
       "raw" (VStr "alert tcp any any -> any any (msg:x; noalert; sid:7;)"),
     Ok "alert tcp any any -> any any (msg:x; noalert; sid:7;)")).
  { reflexivity. }
  split; [exact H|]. exact (format_idempotent _ _ _ H).
Defined.

End FormatAgain.

(** * The modify filter on a parsed rule *)

Section ModifyParsed.

(** X22: On a parsed rule [ModifyRuleFilter.run] gets through [format], the
    group and the identifier without an exception: what it returns or
    raises is decided by the substitution and by [parse] on the modified
    text.  It raises what the substitution raises; else it returns the
    new rule, or the rule it was given with one error logged when the
    text is not a rule, or it raises what [parse] raises. *)
Theorem modify_run_parsed f buf group r :
  parse buf group = Ok (Some r) →
  ∃ r1 text g gid sid,
    format r = (r1, Ok text) ∧ getattr r "group" = Ok g
    ∧ Rule_id r = Ok (gid, sid)
    ∧ ModifyRuleFilter_run f r
      = (r1,
         match modify_sub f text with
         | Raise e => Raise e
         | Ok modified_rule =>
             match parse modified_rule g with
             | Ok (Some r') => Ok (Parsed r', [])
             | Ok None =>
                 Ok (Original r1,
                     ["Modification of rule "
                      +:+ ("[" +:+ str_of_int gid +:+ ":" +:+ str_of_int sid
                           +:+ "]")
                      +:+ " results in invalid rule: " +:+ modified_rule])
             | Raise e => Raise e
             end
         end).
Proof.
  intros H.
  destruct (format_parsed_shape _ _ _ H) as (r1 & e & raw & Hf & _ & _ & _ & Hk).
  destruct (parse_has _ _ _ "group" H) as [g Hg].
  { repeat first [apply list_elem_of_here | apply list_elem_of_further]. }
  destruct (parse_typed _ _ _ H) as (Ha & [gid Hgid] & (sid & Hsid & _) & _).
  assert (Gg : getattr r "group" = Ok g).
  { rewrite getattr_fields by done. unfold getitem. by rewrite Hg. }
  assert (Gi : getattr r "gid" = Ok (VInt gid)).
  { rewrite getattr_fields by done. unfold getitem. by rewrite Hgid. }
  assert (Gs : getattr r "sid" = Ok (VInt sid)).
  { rewrite getattr_fields by done. unfold getitem. by rewrite Hsid. }
  exists r1, ((if truthy e then "" else "# ") +:+ raw), g, gid, sid.
  split; [exact Hf|]. split; [done|]. split.
  { unfold Rule_id. by rewrite Gi, Gs. }
  assert (Hg1 : getattr r1 "group" = Ok g) by (by rewrite Hk).
  assert (Hid : idstr r1
                = Ok ("[" +:+ str_of_int gid +:+ ":" +:+ str_of_int sid +:+ "]")).
  { unfold idstr. rewrite !Hk by done. by rewrite Gi, Gs. }
  destruct (modify_sub f ((if truthy e then "" else "# ") +:+ raw))
    as [modified_rule|err] eqn:Hs.
  - destruct (parse modified_rule g) as [[r'|]|err] eqn:Hp.
    + unfold ModifyRuleFilter_run. rewrite Hf. cbv beta iota.
      unfold mbind at 1, outcome_bind at 1. cbv beta iota. rewrite Hs.
      unfold mbind at 1, outcome_bind at 1. cbv beta iota. rewrite Hg1.
      unfold mbind at 1, outcome_bind at 1. cbv beta iota. by rewrite Hp.
    + exact (modify_run_not_a_rule f r r1 _ _ g _ Hf Hs Hg1 Hp Hid).
    + exact (modify_run_propagates f r r1 _ _ g err Hf Hs Hg1 Hp).
  - exact (modify_run_sub_raises f r r1 _ err Hf Hs).
Qed.

Lemma modify_run_parsed_witness :
  ∃ r1 text g gid sid,
    format (parsed "alert tcp any any -> any any (msg:x; sid:1;)" VNone)
    = (r1, Ok text)
    ∧ getattr (parsed "alert tcp any any -> any any (msg:x; sid:1;)" VNone)
        "group" = Ok g
    ∧ Rule_id (parsed "alert tcp any any -> any any (msg:x; sid:1;)" VNone)
      = Ok (gid, sid)
    ∧ ModifyRuleFilter_run
        {| modify_matcher := AllRuleMatcher;
           modify_sub := plain_sub "sid:1;" "sid:one;" |}
        (parsed "alert tcp any any -> any any (msg:x; sid:1;)" VNone)
      = (r1,
         match plain_sub "sid:1;" "sid:one;" text with
         | Raise e => Raise e
         | Ok modified_rule =>
             match parse modified_rule g with
             | Ok (Some r') => Ok (Parsed r', [])
             | Ok None =>
                 Ok (Original r1,
                     ["Modification of rule "
                      +:+ ("[" +:+ str_of_int gid +:+ ":" +:+ str_of_int sid
                           +:+ "]")
                      +:+ " results in invalid rule: " +:+ modified_rule])
             | Raise e => Raise e
             end
         end).
Proof.
  apply (modify_run_parsed
           {| modify_matcher := AllRuleMatcher;
              modify_sub := plain_sub "sid:1;" "sid:one;" |}
           "alert tcp any any -> any any (msg:x; sid:1;)" VNone).
  reflexivity.
Defined.

End ModifyParsed.

(** * Every call ends *)

Section Ends.

(** X23: [parse] returns or raises a Python exception on every text: the
    loops over the header and over the options end. *)
Theorem parse_ends buf group : terminated (parse buf group).
Proof.
  pose proof (parse_terminates buf group) as H. unfold terminated.
  destruct (parse buf group) as [|[]]; done.
Qed.

(** X24: [resolve] returns or raises a Python exception on every map and
    every resolver: it makes at most one pass more than the map has
    rules. *)
Theorem resolve_ends self rules h : terminated (resolve self rules h).2.
Proof.
  pose proof (resolve_terminates self rules h) as H. unfold terminated.
  destruct ((resolve self rules h).2) as [|[]]; done.
Qed.

End Ends.

(** * Identifiers written out and read back *)

Section Identifiers.

Variable re_compile : string → option (string → bool).

Lemma idchar_facts c :
  idchar c = true →
  isspace c = false ∧ int_space c = false
  ∧ c ≠ ","%char ∧ c ≠ "*"%char.
Proof.
  destruct c as [[] [] [] [] [] [] [] []]; vm_compute; intros H;
    try discriminate H; repeat split; discriminate.
Qed.

Lemma numeric_facts c :
  numeric c = true → idchar c = true ∧ c ≠ ":"%char.
Proof.
  destruct c as [[] [] [] [] [] [] [] []]; vm_compute; intros H;
    try discriminate H; repeat split; discriminate.
Qed.

Lemma string_forall_app p a b :
  string_forall p (a +:+ b) = string_forall p a && string_forall p b.
Proof.
  induction a as [|c a IH]; [done|]. cbn [String.append string_forall].
  by rewrite IH, andb_assoc.
Qed.

Lemma string_forall_impl (p q : ascii → bool) s :
  (∀ c, p c = true → q c = true) →
  string_forall p s = true → string_forall q s = true.
Proof.
  intros Hpq. induction s as [|c s IH]; [done|]. cbn [string_forall].
  intros [Hc Hs]%andb_true_iff. by rewrite (Hpq c Hc), IH.
Qed.

Lemma contains_none p sep s :
  (∀ c, p c = true → c ≠ sep) →
  string_forall p s = true → contains (String sep "") s = false.
Proof.
  intros Hp. induction s as [|c s IH]; [done|]. cbn [string_forall].
  intros [Hc Hs]%andb_true_iff. specialize (IH Hs). unfold contains in *.
  cbn [find String.prefix].
  destruct (Ascii.ascii_dec sep c) as [->|_]; [by destruct (Hp c Hc)|].
  apply Z.leb_gt in IH. apply Z.leb_gt.
  destruct (find (String sep "") s <? 0) eqn:E; [lia|].
  apply Z.ltb_ge in E. lia.
Qed.

Lemma split_aux_none sep acc s :
  contains (String sep "") s = false →
  split_aux sep acc s = [rev_string "" acc +:+ s].
Proof.
  revert acc. induction s as [|c s IH]; intros acc H.
  - cbn [split_aux]. by rewrite append_nil_r.
  - apply contains_cons in H as [Hc H]. cbn [split_aux].
    unfold ascii_eqb. destruct (Ascii.eqb_spec c sep) as [->|_]; [done|].
    by rewrite IH, rev_string_cons.
Qed.

Lemma rstrip_clean s :
  string_forall idchar s = true → rstrip s = s ∧ rstrip_int s = s.
Proof.
  induction s as [|c s IH]; [done|]. cbn [string_forall].
  intros [Hc Hs]%andb_true_iff. destruct (IH Hs) as [H1 H2].
  destruct (idchar_facts c Hc) as (Hsp & Hin & _).
  cbn [rstrip rstrip_int]. rewrite H1, H2, Hsp, Hin. by destruct s.
Qed.

Lemma strip_clean s :
  string_forall idchar s = true
  → strip s = s ∧ lstrip_int (rstrip_int s) = s.
Proof.
  intros H. destruct (rstrip_clean s H) as [H1 H2]. unfold strip.
  rewrite H1, H2. destruct s as [|c s]; [done|].
  cbn [string_forall] in H. apply andb_true_iff in H as [Hc _].
  destruct (idchar_facts c Hc) as (Hsp & Hin & _).
  cbn [lstrip lstrip_int]. by rewrite Hsp, Hin.
Qed.

(** ** Printing and reading an integer *)

Lemma int_digits_uint d acc seen :
  d ≠ Decimal.Nil ∨ seen = true →
  int_digits acc seen (NilEmpty.string_of_uint d) = Some (digits_value d acc).
Proof.
  revert acc seen. induction d as [|d IH|d IH|d IH|d IH|d IH|d IH|d IH|d IH|d IH|d IH];
    intros acc seen H;
    cbn [NilEmpty.string_of_uint int_digits digits_value].
  { by destruct H as [H | ->]. }
  all: match goal with
       | |- context [isdigit ?c] =>
           let v := eval vm_compute in (code c - 48) in
           change (isdigit c) with true; change (code c - 48) with v
       end; cbv iota; rewrite IH by (by right); f_equal; f_equal; lia.
Qed.

Lemma of_uint_acc_value d p :
  Z.pos (Pos.of_uint_acc d p) = digits_value d (Z.pos p).
Proof.
  revert p. induction d; intros p; cbn [Pos.of_uint_acc digits_value];
    [done|..]; rewrite IHd; f_equal; lia.
Qed.

Lemma of_uint_value d : Z.of_uint d = digits_value d 0.
Proof.
  unfold Z.of_uint. induction d; cbn [Pos.of_uint digits_value]; [done|done|..];
    cbn [Z.of_N]; by rewrite of_uint_acc_value.
Qed.

Lemma uint_numeric d :
  string_forall numeric (NilEmpty.string_of_uint d) = true.
Proof. induction d; cbn [NilEmpty.string_of_uint string_forall]; by rewrite ?IHd. Qed.

Lemma str_of_int_numeric z :
  string_forall numeric (str_of_int z) = true.
Proof.
  unfold str_of_int. destruct z as [|p|p]; [done|..]; cbn [Z.to_int];
    pose proof (DecimalPos.Unsigned.to_uint_nonnil p) as Hn;
    unfold NilZero.string_of_int, NilZero.string_of_uint;
    destruct (Pos.to_uint p) eqn:E; try done;
    cbn [string_forall]; rewrite <- ?E; by rewrite ?uint_numeric.
Qed.

Lemma read_digits_within d :
  digit_count d <= max_str_digits → read_digits d = int_digits 0 false d.
Proof.
  intros H. unfold read_digits.
  destruct (Z.ltb_spec max_str_digits (digit_count d)); [lia|done].
Qed.

(** [int] reads back the integer that [str] printed, when it has no more
    digits than [int] accepts. *)
Lemma int_of_text_str_of_int z :
  digit_count (str_of_int z) <= max_str_digits →
  int_of_text (str_of_int z) = Ok z.
Proof.
  intros Hlen. unfold int_of_text.
  destruct (strip_clean (str_of_int z)) as [_ ->].
  { eapply string_forall_impl; [|apply str_of_int_numeric].
    intros c Hc. by apply numeric_facts. }
  pose proof (DecimalZ.of_to z) as Hz. unfold str_of_int in *.
  destruct z as [|p|p]; [done|..]; cbn [Z.to_int] in *;
    pose proof (DecimalPos.Unsigned.to_uint_nonnil p) as Hn;
    unfold NilZero.string_of_int, NilZero.string_of_uint in *;
    cbn [Z.of_int] in Hz; rewrite of_uint_value in Hz;
    assert (E : (match Pos.to_uint p with
                 | Decimal.Nil => "0"
                 | _ => NilEmpty.string_of_uint (Pos.to_uint p)
                 end) = NilEmpty.string_of_uint (Pos.to_uint p))
      by (by destruct (Pos.to_uint p));
    rewrite E in *.
  - assert (Hd : read_digits (NilEmpty.string_of_uint (Pos.to_uint p))
                 = Some (Z.pos p)).
    { rewrite read_digits_within by done.
      rewrite int_digits_uint by (by left). by rewrite Hz. }
    clear E Hlen. destruct (Pos.to_uint p); try done;
      cbn [NilEmpty.string_of_uint] in *; by rewrite Hd.
  - assert (Hd : read_digits (NilEmpty.string_of_uint (Pos.to_uint p))
                 = Some (Z.pos p)).
    { rewrite read_digits_within by (cbn [digit_count] in Hlen; exact Hlen).
      rewrite int_digits_uint by (by left). f_equal. lia. }
    cbv beta iota. by rewrite Hd.
Qed.

(** X25: The expression that writes out a pair of integers, [gid:sid],
    each of at most 4300 digits (with more, [str] and [int] raise), is
    read by [parse_rule_match] as the matcher by identifiers that holds
    this pair, and an integer alone as the matcher that holds it with the
    generator 1. *)
Theorem parse_rule_match_id gid sid :
  digit_count (str_of_int gid) <= max_str_digits →
  digit_count (str_of_int sid) <= max_str_digits →
  parse_rule_match re_compile (str_of_int gid +:+ ":" +:+ str_of_int sid)
  = Some (IdRuleMatcher [(gid, sid)])
  ∧ parse_rule_match re_compile (str_of_int sid)
    = Some (IdRuleMatcher [(1, sid)]).
Proof.
  intros Hgid Hsid.
  assert (Hn : ∀ z, string_forall idchar (str_of_int z) = true).
  { intros z. eapply string_forall_impl; [|apply str_of_int_numeric].
    intros c Hc. by apply numeric_facts. }
  assert (Hcolon : ∀ z, contains ":" (str_of_int z) = false).
  { intros z. apply (contains_none numeric); [|apply str_of_int_numeric].
    intros c Hc. by apply numeric_facts. }
  assert (Hall : ∀ buf, string_forall idchar buf = true →
            AllRuleMatcher_parse buf = None
            ∧ split ","%char buf = [buf] ∧ strip buf = buf).
  { intros buf Hb. destruct (strip_clean buf Hb) as [Hs _].
    split; [|split; [|done]].
    - unfold AllRuleMatcher_parse. rewrite Hs.
      destruct (String.eqb_spec buf "*") as [->|]; [|done].
      by vm_compute in Hb.
    - unfold split. rewrite split_aux_none; [done|].
      apply (contains_none idchar); [|done].
      intros c Hc. by apply idchar_facts. }
  split.
  - set (buf := str_of_int gid +:+ ":" +:+ str_of_int sid).
    assert (Hb : string_forall idchar buf = true).
    { unfold buf. rewrite !string_forall_app, !Hn. done. }
    destruct (Hall buf Hb) as (HA & HS & HT).
    unfold parse_rule_match, IdRuleMatcher_parse. rewrite HA, HS.
    cbn [parse_ids]. rewrite HT. unfold buf, split1.
    change (":" +:+ str_of_int sid) with (String ":" (str_of_int sid)).
    rewrite split1_aux_first by apply Hcolon.
    change (rev_string "" "" +:+ str_of_int gid) with (str_of_int gid).
    by rewrite !int_of_text_str_of_int.
  - destruct (Hall (str_of_int sid) (Hn sid)) as (HA & HS & HT).
    unfold parse_rule_match, IdRuleMatcher_parse. rewrite HA, HS.
    cbn [parse_ids]. rewrite HT. unfold split1.
    rewrite split1_aux_none by apply Hcolon.
    change (rev_string "" "" +:+ str_of_int sid) with (str_of_int sid).
    by rewrite !int_of_text_str_of_int.
Qed.

End Identifiers.

Lemma parse_rule_match_id_witness :
  parse_rule_match (fun _ => None) (str_of_int 3 +:+ ":" +:+ str_of_int 2000001)
  = Some (IdRuleMatcher [(3, 2000001)])
  ∧ parse_rule_match (fun _ => None) (str_of_int 2000001)
    = Some (IdRuleMatcher [(1, 2000001)]).
Proof.
  apply (parse_rule_match_id (fun _ => None) 3 2000001); by vm_compute.
Defined.

(** * The two readings of an integer *)

Section IntTexts.

Lemma int_space_isspace c : int_space c = true → isspace c = true.
Proof.
  destruct c as [[] [] [] [] [] [] [] []]; vm_compute; intros H;
    done || discriminate H.
Qed.

Lemma not_isspace_int_space c : isspace c = false → int_space c = false.
Proof.
  intros H. destruct (int_space c) eqn:E; [|done].
  apply int_space_isspace in E. congruence.
Qed.

Lemma rstrip_fixed_int s : rstrip s = s → rstrip_int s = s.
Proof.
  induction s as [|c s IH]; [done|]. cbn [rstrip rstrip_int].
  destruct (rstrip s) as [|d r] eqn:E.
  - destruct (isspace c) eqn:Hc; [done|]. intros [= <-].
    cbn [rstrip_int]. by rewrite (not_isspace_int_space c Hc).
  - intros [= <-]. by rewrite (IH eq_refl).
Qed.

Lemma lstrip_fixed_int s : lstrip s = s → lstrip_int s = s.
Proof.
  destruct s as [|c s]; [done|]. cbn [lstrip lstrip_int].
  destruct (isspace c) eqn:Hc.
  - intros H. pose proof (lstrip_length s) as Hl. rewrite H in Hl.
    cbn [String.length] in Hl. lia.
  - by rewrite (not_isspace_int_space c Hc).
Qed.

(** On a text that [strip] leaves as it is, which is what [parse] gives
    to [int], the two readings of an integer agree. *)
Lemma int_of_str_text s : strip s = s → int_of_str s = int_of_text s.
Proof.
  intros H. unfold int_of_str, int_of_text. rewrite H.
  assert (Hl : lstrip s = s).
  { rewrite <- H at 1. by rewrite lstrip_strip. }
  assert (Hr : rstrip s = s).
  { rewrite <- H at 1. unfold strip.
    by rewrite rstrip_lstrip, rstrip_idem. }
  by rewrite (rstrip_fixed_int s Hr), (lstrip_fixed_int s Hl).
Qed.

End IntTexts.

(** * The numbers of a rule *)

Section Numbers.

Implicit Types rule d : gmap string value.





End Numbers.
